(** * saltpack encryption mode: a shallow embedding of [saltpack/encrypt.py]

    The development follows the Python module function by function:
    the two chunkers, [payload_key_nonce], [encrypt] and [decrypt].  The
    collaborators that the module imports ([umsgpack], [nacl.bindings],
    [hmac]) are interfaces ([Umsgpack], [Crypto]); what is assumed of them
    is stated as explicit laws ([UmsgpackLaws], [CryptoLaws]), and a small
    executable implementation of both interfaces ([Toy]) shows that the laws
    can be met and lets every statement be run on concrete inputs. *)

From Stdlib Require Import List ZArith NArith Lia Bool String Ascii Floats.
From Stdlib.Strings Require Import Byte.
Import ListNotations.

Local Open Scope Z_scope.

(** ** Byte strings *)

Definition bytes := list byte.

Definition len {A : Type} (s : list A) : Z := Z.of_nat (List.length s).

Definition byte_of_N (n : N) : byte :=
  match Byte.of_N n with
  | Some b => b
  | None => x00
  end.

Fixpoint bytes_eqb (a b : bytes) : bool :=
  match a, b with
  | [], [] => true
  | x :: a', y :: b' => Byte.eqb x y && bytes_eqb a' b'
  | _, _ => false
  end.

Definition is_empty {A : Type} (s : list A) : bool :=
  match s with
  | [] => true
  | _ :: _ => false
  end.

(** Python slicing [s[lo:hi]] with step 1: an omitted bound is [None], a
    negative bound counts from the end, and bounds are clamped to the
    sequence. *)
Definition slice_bound (n : Z) (i : Z) : Z :=
  if i <? 0 then Z.max (i + n) 0 else Z.min i n.

Definition py_slice {A : Type} (s : list A) (lo hi : option Z) : list A :=
  let n := len s in
  let lo' := match lo with Some i => slice_bound n i | None => 0 end in
  let hi' := match hi with Some i => slice_bound n i | None => n end in
  firstn (Z.to_nat (hi' - lo')) (skipn (Z.to_nat lo') s).

(** ** Outcomes of a call: a value, a raised exception, or a loop that does
    not finish within the fuel it was given *)

Inductive exn : Type :=
| BadFormatError            (* error.BadFormatError *)
| BadVersionError           (* error.BadVersionError *)
| BadModeError              (* error.BadModeError *)
| HMACError                 (* error.HMACError *)
| RuntimeError (msg : string)
| CryptoError               (* nacl.exceptions.CryptoError, or a subclass *)
| TypeError
| ValueError
| IndexError
| KeyError
| OverflowError
| AssertionError
| UmsgpackException (msg : string).

Inductive res (A : Type) : Type :=
| Ok (a : A)
| Raise (e : exn)
| Diverge.

Arguments Ok {A} a.
Arguments Raise {A} e.
Arguments Diverge {A}.

Definition bind {A B : Type} (c : res A) (k : A -> res B) : res B :=
  match c with
  | Ok a => k a
  | Raise e => Raise e
  | Diverge => Diverge
  end.

Declare Scope res_scope.
Delimit Scope res_scope with res.
Notation "x <- c ;; k" := (bind c (fun x => k))
  (at level 61, c at next level, right associativity) : res_scope.
Notation "' p <- c ;; k" := (bind c (fun x => match x with p => k end))
  (at level 61, p pattern, c at next level, right associativity) : res_scope.
Local Open Scope res_scope.

(** [try: ... except CryptoError: handler] *)
Definition except_CryptoError {A : Type} (c : res A) (handler : res A) : res A :=
  match c with
  | Raise CryptoError => handler
  | other => other
  end.

(** [n.to_bytes(width, "big")] for a non-negative [n]. *)
Fixpoint be_bytes (width : nat) (n : N) : bytes :=
  match width with
  | O => []
  | S l => be_bytes l (n / 256)%N ++ [byte_of_N (n mod 256)%N]
  end.

Definition to_bytes (n : nat) (width : nat) : res bytes :=
  if (N.of_nat n <? 256 ^ N.of_nat width)%N
  then Ok (be_bytes width (N.of_nat n))
  else Raise OverflowError.

(** ** The Python objects that [umsgpack] produces and consumes *)

#[warnings="-register-all"]
Inductive value : Type :=
| VNil                                  (* None *)
| VBool (b : bool)
| VInt (z : Z)
| VFloat (f : float)
| VStr (s : list N)                     (* str, as its Unicode code points *)
| VBin (b : bytes)                      (* bytes *)
| VArray (l : list value)               (* list *)
| VMap (kvs : list (value * value))     (* dict, in insertion order *)
| VExt (type : Z) (data : bytes).       (* umsgpack.Ext and other opaque objects *)

(** Induction on objects, with the induction hypothesis for the items of a list. *)
Section ValueInd.
Variable P : value -> Prop.
Hypothesis HNil : P VNil.
Hypothesis HBool : forall b, P (VBool b).
Hypothesis HInt : forall z, P (VInt z).
Hypothesis HFloat : forall f, P (VFloat f).
Hypothesis HStr : forall s, P (VStr s).
Hypothesis HBin : forall b, P (VBin b).
Hypothesis HArray : forall l, Forall P l -> P (VArray l).
Hypothesis HMap : forall kvs, P (VMap kvs).
Hypothesis HExt : forall t d, P (VExt t d).

Fixpoint value_ind_items (v : value) : P v :=
  match v with
  | VNil => HNil
  | VBool b => HBool b
  | VInt z => HInt z
  | VFloat f => HFloat f
  | VStr s => HStr s
  | VBin b => HBin b
  | VArray l =>
      HArray l ((fix items (l : list value) : Forall P l :=
                   match l with
                   | [] => Forall_nil P
                   | x :: l' => Forall_cons x (value_ind_items x) (items l')
                   end) l)
  | VMap kvs => HMap kvs
  | VExt t d => HExt t d
  end.
End ValueInd.


Definition str (s : string) : list N :=
  map (fun c => N.of_nat (nat_of_ascii c)) (list_ascii_of_string s).

Definition bytes_of_string (s : string) : bytes :=
  map byte_of_ascii (list_ascii_of_string s).

(** A float equals an integer when its exact value is that integer. *)
Definition float_eq_Z (f : float) (z : Z) : bool :=
  match Prim2SF f with
  | S754_zero _ => z =? 0
  | S754_finite s m e =>
      let v := if s then Z.neg m else Z.pos m in
      if 0 <=? e then v * 2 ^ e =? z else v =? z * 2 ^ (- e)
  | _ => false
  end.

(** [v == z] for a Python int [z]: True, 1 and 1.0 are all equal to 1. *)
Definition py_eq_int (v : value) (z : Z) : bool :=
  match v with
  | VInt n => n =? z
  | VBool b => (if b then 1 else 0) =? z
  | VFloat f => float_eq_Z f z
  | _ => false
  end.

(** [v == s] for a Python str [s]. *)
Definition py_eq_str (v : value) (s : list N) : bool :=
  match v with
  | VStr s' => if list_eq_dec N.eq_dec s' s then true else false
  | _ => false
  end.

(** Truth value of an object, as [if v] and [v or ...] test it. *)
Definition py_truthy (v : value) : bool :=
  match v with
  | VNil => false
  | VBool b => b
  | VInt z => negb (z =? 0)
  | VFloat f => negb (PrimFloat.eqb f 0%float)
  | VStr s => negb (is_empty s)
  | VBin b => negb (is_empty b)
  | VArray l => negb (is_empty l)
  | VMap kvs => negb (is_empty kvs)
  | VExt _ _ => true
  end.

Definition int_of_byte (b : byte) : value := VInt (Z.of_N (Byte.to_N b)).

(** The items that iterating over an object yields: the elements of a list,
    the ints of a bytes object, the characters of a str, the keys of a dict;
    anything else is not iterable. *)
Definition py_iter (v : value) : res (list value) :=
  match v with
  | VArray l => Ok l
  | VBin b => Ok (map int_of_byte b)
  | VStr s => Ok (map (fun c => VStr [c]) s)
  | VMap kvs => Ok (map fst kvs)
  | _ => Raise TypeError
  end.

Fixpoint dict_get (kvs : list (value * value)) (i : Z) : res value :=
  match kvs with
  | [] => Raise KeyError
  | (k, v) :: rest => if py_eq_int k i then Ok v else dict_get rest i
  end.

Definition nth_or_IndexError {A : Type} (l : list A) (i : nat) : res A :=
  match nth_error l i with
  | Some x => Ok x
  | None => Raise IndexError
  end.

(** [v[i]] for a non-negative int [i]. *)
Definition py_getitem (v : value) (i : nat) : res value :=
  match v with
  | VArray l => nth_or_IndexError l i
  | VBin b => nth_or_IndexError (map int_of_byte b) i
  | VStr s => nth_or_IndexError (map (fun c => VStr [c]) s) i
  | VMap kvs => dict_get kvs (Z.of_nat i)
  | _ => Raise TypeError
  end.

(** [bytes + v]: only a bytes object can be appended to bytes. *)
Definition bytes_add (b : bytes) (v : value) : res bytes :=
  match v with
  | VBin b' => Ok (b ++ b')
  | _ => Raise TypeError
  end.

(** [hmac.compare_digest(a, b)] with [b] a bytes object. *)
Definition compare_digest (a : value) (b : bytes) : res bool :=
  match a with
  | VBin a' => Ok (bytes_eqb a' b)
  | _ => Raise TypeError
  end.

(** [bytearray(b)[15] = f(bytearray(b)[15])] *)
Definition update_byte15 (f : byte -> byte) (b : bytes) : res bytes :=
  match nth_error b 15 with
  | Some x => Ok (firstn 15 b ++ [f x] ++ skipn 16 b)
  | None => Raise IndexError
  end.

Definition byte_and (n : N) (x : byte) : byte := byte_of_N (N.land (Byte.to_N x) n).
Definition byte_or (n : N) (x : byte) : byte := byte_of_N (N.lor (Byte.to_N x) n).

(** ** Utility functions *)

Fixpoint chunks_with_empty_while (fuel : nat) (message : bytes) (chunk_size : Z)
    (chunk_start : Z) (chunks : list bytes) : res (list bytes) :=
  if chunk_start <? len message then
    match fuel with
    | O => Diverge
    | S fuel' =>
        let chunks := chunks ++ [py_slice message (Some chunk_start) (Some (chunk_start + chunk_size))] in
        let chunk_start := chunk_start + chunk_size in
        chunks_with_empty_while fuel' message chunk_size chunk_start chunks
    end
  else
    (* empty chunk *)
    Ok (chunks ++ [[]]).

(** The last chunk is empty, which signifies the end of the message.  With
    [chunk_size > 0] the loop body runs at most [len(message)] times; with
    [chunk_size <= 0] and a non-empty message the Python loop never ends. *)
Definition chunks_with_empty (message : bytes) (chunk_size : Z) : res (list bytes) :=
  chunks_with_empty_while (List.length message) message chunk_size 0 [].

Definition chunk_triple : Type := nat * bytes * bool.

Fixpoint chunks_loop_while (fuel : nat) (message : bytes) (chunk_size : Z)
    (major_version : Z) (chunk_start : Z) (chunks_count : nat) : res (list chunk_triple) :=
  if chunk_start <? len message then
    match fuel with
    | O => Diverge
    | S fuel' =>
        let chunk := py_slice message (Some chunk_start) (Some (chunk_start + chunk_size)) in
        let chunk_start := chunk_start + chunk_size in
        let item := (chunks_count, chunk,
                     negb (major_version =? 1) && (len message <=? chunk_start)) in
        let chunks_count := S chunks_count in
        rest <- chunks_loop_while fuel' message chunk_size major_version chunk_start chunks_count ;;
        Ok (item :: rest)
    end
  else if major_version =? 1 then Ok [(chunks_count, [], true)]
  else Ok [].

(** The generator [chunks_loop], as the list of the triples it yields. *)
Definition chunks_loop (message : bytes) (chunk_size : Z) (major_version : Z)
  : res (list chunk_triple) :=
  if negb (0 <? chunk_size) then Raise AssertionError
  else if is_empty message then Ok [(O, [], true)]
  else chunks_loop_while (List.length message) message chunk_size major_version 0 0.

(** [json_repr(obj)]: [_recurse_repr] keeps lists and dicts, turns every
    bytes object into a str and leaves the rest alone; [json.dumps] then
    raises [TypeError] on an object it cannot serialise, which here is an
    opaque object.  The key of a dict is [None], a bool, a number, a str or
    a bytes object: a list or a dict cannot be the key of the dict that
    [_recurse_repr] builds, and [json.dumps] takes no opaque key.  The string
    that [json_repr] returns only feeds [debug]. *)
Definition json_key (key : value) : bool :=
  match key with
  | VNil | VBool _ | VInt _ | VFloat _ | VStr _ | VBin _ => true
  | VArray _ | VMap _ | VExt _ _ => false
  end.

Fixpoint json_serialisable (obj : value) : bool :=
  match obj with
  | VExt _ _ => false
  | VArray l => forallb json_serialisable l
  | VMap kvs =>
      forallb (fun kv => let '(key, val) := kv in json_key key && json_serialisable val) kvs
  | _ => true
  end.

Definition json_repr (obj : value) : res unit :=
  if json_serialisable obj then Ok tt else Raise TypeError.

(** ** All the important bits *)

Definition SENDER_KEY_SECRETBOX_NONCE : bytes := bytes_of_string "saltpack_sender_key_sbox".
Definition PAYLOAD_KEY_BOX_NONCE_V1 : bytes := bytes_of_string "saltpack_payload_key_box".
Definition PAYLOAD_KEY_BOX_NONCE_PREFIX_V2 : bytes := bytes_of_string "saltpack_recipsb".
Definition PAYLOAD_NONCE_PREFIX : bytes := bytes_of_string "saltpack_ploadsb".

Definition DEFAULT_MAJOR_VERSION : Z := 2.

(** [CURRENT_MINOR_VERSIONS[major_version]] for the dict [{1: 0, 2: 0}]. *)
Definition CURRENT_MINOR_VERSIONS (major_version : Z) : res Z :=
  if major_version =? 1 then Ok 0
  else if major_version =? 2 then Ok 0
  else Raise KeyError.

Definition payload_key_nonce (version : value) (recipient_index : nat) : res bytes :=
  if py_eq_int version 1 then Ok PAYLOAD_KEY_BOX_NONCE_V1
  else
    index_bytes <- to_bytes recipient_index 8 ;;
    Ok (PAYLOAD_KEY_BOX_NONCE_PREFIX_V2 ++ index_bytes).

Definition zero32 : bytes := repeat x00 32.

(** ** The collaborators

    [umsgpack]: [packb] serialises an object, [unpack] reads one object from
    the front of a stream and leaves the rest of the stream. *)
Class Umsgpack : Type := {
  packb : value -> res bytes;
  unpack : bytes -> res (value * bytes)
}.

(** [nacl.bindings] and [hmac].  An argument that [decrypt] passes on as it
    came out of [umsgpack] is a [value]: what the binding does with an object
    that is not a bytes object is left to the binding. *)
Class Crypto : Type := {
  crypto_scalarmult_base : bytes -> res bytes;
  crypto_secretbox : bytes -> bytes -> bytes -> res bytes;          (* message, nonce, key *)
  crypto_secretbox_open : value -> bytes -> bytes -> res bytes;     (* ciphertext, nonce, key *)
  crypto_box : bytes -> bytes -> value -> bytes -> res bytes;       (* message, nonce, pk, sk *)
  crypto_box_beforenm : value -> bytes -> res bytes;                (* pk, sk *)
  crypto_box_open_afternm : value -> bytes -> bytes -> res bytes;   (* ciphertext, nonce, k *)
  crypto_hash : value -> res bytes;
  hmac_sha512 : bytes -> bytes -> bytes                             (* key, message *)
}.

Section Saltpack.

Context {M : Umsgpack} {C : Crypto}.

(** [umsgpack.unpackb(s)]: the first object of [s]; a [TypeError] unless [s]
    is a bytes object. *)
Definition unpackb (s : value) : res value :=
  match s with
  | VBin b => '(v, _) <- unpack b ;; Ok v
  | _ => Raise TypeError
  end.

(** *** encrypt *)

(** The loop that fills [recipient_pairs] (lines 120-135). *)
Fixpoint recipient_pairs_loop (payload_key ephemeral_private : bytes)
    (visible_recipients : bool) (major_version : Z)
    (i : nat) (recipient_public_keys : list bytes) : res (list value) :=
  match recipient_public_keys with
  | [] => Ok []
  | recipient_public :: rest =>
      nonce <- payload_key_nonce (VInt major_version) i ;;
      payload_key_box <- crypto_box payload_key nonce (VBin recipient_public) ephemeral_private ;;
      let pair :=
        if visible_recipients
        then VArray [VBin recipient_public; VBin payload_key_box]
        else VArray [VNil; VBin payload_key_box] in
      pairs <- recipient_pairs_loop payload_key ephemeral_private visible_recipients
                 major_version (S i) rest ;;
      Ok (pair :: pairs)
  end.

(** One turn of the loop that computes the per-user MAC keys (lines 156-182). *)
Definition recipient_mac_key (sender_private ephemeral_private header_hash : bytes)
    (major_version : Z) (recipient_index : nat) (recipient_public : bytes) : res bytes :=
  mac_nonce_recipient <-
    (if major_version =? 1 then Ok (py_slice header_hash None (Some 24))
     else
       mac_key_nonce_base <- update_byte15 (byte_and 254) (py_slice header_hash None (Some 16)) ;;
       index_bytes <- to_bytes recipient_index 8 ;;
       Ok (mac_key_nonce_base ++ index_bytes)) ;;
  mac_key_box <- crypto_box zero32 mac_nonce_recipient (VBin recipient_public) sender_private ;;
  if major_version =? 1 then Ok (py_slice mac_key_box (Some 16) (Some 48))
  else
    mac_key_nonce_base <- update_byte15 (byte_or 1) (py_slice header_hash None (Some 16)) ;;
    index_bytes <- to_bytes recipient_index 8 ;;
    let mac_nonce_recipient := mac_key_nonce_base ++ index_bytes in
    mac_key_box2 <- crypto_box zero32 mac_nonce_recipient (VBin recipient_public) ephemeral_private ;;
    let mac_key_boxes_tails :=
      py_slice mac_key_box (Some (-32)) None ++ py_slice mac_key_box2 (Some (-32)) None in
    digest <- crypto_hash (VBin mac_key_boxes_tails) ;;
    Ok (py_slice digest None (Some 32)).

Fixpoint recipient_mac_keys_loop (sender_private ephemeral_private header_hash : bytes)
    (major_version : Z) (recipient_index : nat) (recipient_public_keys : list bytes)
  : res (list bytes) :=
  match recipient_public_keys with
  | [] => Ok []
  | recipient_public :: rest =>
      mac_key <- recipient_mac_key sender_private ephemeral_private header_hash
                   major_version recipient_index recipient_public ;;
      mac_keys <- recipient_mac_keys_loop sender_private ephemeral_private header_hash
                    major_version (S recipient_index) rest ;;
      Ok (mac_key :: mac_keys)
  end.

(** [hmac.new(mac_key, digestmod=hashlib.sha512)], [update], [digest()[:32]]. *)
Definition authenticator (mac_key payload_hash : bytes) : bytes :=
  py_slice (hmac_sha512 mac_key payload_hash) None (Some 32).

(** The body of the loop that writes the chunks (lines 187-214): the packet of
    one chunk. *)
Definition chunk_packet (payload_key header_hash : bytes) (recipient_mac_keys : list bytes)
    (major_version : Z) (chunk : chunk_triple) : res value :=
  let '(chunknum, chunk, final_flag) := chunk in
  chunknum_bytes <- to_bytes chunknum 8 ;;
  let payload_nonce := PAYLOAD_NONCE_PREFIX ++ chunknum_bytes in
  payload_secretbox <- crypto_secretbox chunk payload_nonce payload_key ;;
  let final_flag_byte :=
    if major_version =? 1 then []
    else if final_flag then [x01] else [x00] in
  payload_hash <- crypto_hash
    (VBin (header_hash ++ payload_nonce ++ final_flag_byte ++ payload_secretbox)) ;;
  let hash_authenticators :=
    map (fun mac_key => VBin (authenticator mac_key payload_hash)) recipient_mac_keys in
  let packet :=
    if major_version =? 1
    then VArray [VArray hash_authenticators; VBin payload_secretbox]
    else VArray [VBool final_flag; VArray hash_authenticators; VBin payload_secretbox] in
  Ok packet.

(** [umsgpack.packb(packet)], which line 215 writes to the output. *)
Definition encrypt_chunk (payload_key header_hash : bytes) (recipient_mac_keys : list bytes)
    (major_version : Z) (chunk : chunk_triple) : res bytes :=
  packet <- chunk_packet payload_key header_hash recipient_mac_keys major_version chunk ;;
  packb packet.

Fixpoint encrypt_chunks (payload_key header_hash : bytes) (recipient_mac_keys : list bytes)
    (major_version : Z) (chunks : list chunk_triple) (output : bytes) : res bytes :=
  match chunks with
  | [] => Ok output
  | chunk :: rest =>
      packet <- encrypt_chunk payload_key header_hash recipient_mac_keys major_version chunk ;;
      encrypt_chunks payload_key header_hash recipient_mac_keys major_version rest
        (output ++ packet)
  end.

Definition header_of (major_version minor_version : Z) (ephemeral_public sender_secretbox : bytes)
    (recipient_pairs : list value) : value :=
  VArray [
    VStr (str "saltpack");
    VArray [VInt major_version; VInt minor_version];
    VInt 0;
    VBin ephemeral_public;
    VBin sender_secretbox;
    VArray recipient_pairs
  ].

(** [encrypt].  The two [os.urandom(32)] draws are the last two arguments. *)
Definition encrypt (sender_private : bytes) (recipient_public_keys : list bytes)
    (message : bytes) (chunk_size : Z) (visible_recipients : bool)
    (major_version : option Z) (ephemeral_private payload_key : bytes) : res bytes :=
  sender_public <- crypto_scalarmult_base sender_private ;;
  ephemeral_public <- crypto_scalarmult_base ephemeral_private ;;
  sender_secretbox <- crypto_secretbox sender_public SENDER_KEY_SECRETBOX_NONCE payload_key ;;
  let major_version :=
    match major_version with
    | None => DEFAULT_MAJOR_VERSION
    | Some v => v
    end in
  recipient_pairs <- recipient_pairs_loop payload_key ephemeral_private visible_recipients
                       major_version 0 recipient_public_keys ;;
  minor_version <- CURRENT_MINOR_VERSIONS major_version ;;
  let header := header_of major_version minor_version ephemeral_public sender_secretbox
                  recipient_pairs in
  header_bytes <- packb header ;;
  header_hash <- crypto_hash (VBin header_bytes) ;;
  double_encoded_header_bytes <- packb (VBin header_bytes) ;;
  let output := double_encoded_header_bytes in
  recipient_mac_keys <- recipient_mac_keys_loop sender_private ephemeral_private header_hash
                          major_version 0 recipient_public_keys ;;
  chunks <- chunks_loop message chunk_size major_version ;;
  encrypt_chunks payload_key header_hash recipient_mac_keys major_version chunks output.

(** *** decrypt *)

(** [[a, b, *_] = v] and its relatives: the items of [v], at least [n] of them. *)
Definition unpack_at_least (n : nat) (v : value) : res (list value) :=
  items <- py_iter v ;;
  if (n <=? List.length items)%nat then Ok items else Raise ValueError.

(** [[a, b] = v]: the items of [v], exactly [n] of them. *)
Definition unpack_exactly (n : nat) (v : value) : res (list value) :=
  items <- py_iter v ;;
  if (n =? List.length items)%nat then Ok items else Raise ValueError.

Definition no_matching_recipient : exn := RuntimeError "Failed to find matching recipient.".

(** The loop that tries each sender box until one opens (lines 252-263); it
    leaves [recipient_index] and [payload_key]. *)
Fixpoint find_recipient (major_version : value) (ephemeral_beforenm : bytes)
    (recipient_index : nat) (recipient_pairs : list value) : res (nat * bytes) :=
  match recipient_pairs with
  | [] => Raise no_matching_recipient
  | pair' :: rest =>
      items <- unpack_at_least 2 pair' ;;
      let payload_key_box := nth 1 items VNil in
      except_CryptoError
        (nonce <- payload_key_nonce major_version recipient_index ;;
         payload_key <- crypto_box_open_afternm payload_key_box nonce ephemeral_beforenm ;;
         Ok (recipient_index, payload_key))
        (find_recipient major_version ephemeral_beforenm (S recipient_index) rest)
  end.

(** The MAC key of the matched recipient (lines 270-296). *)
Definition decrypt_mac_key (recipient_private header_hash : bytes) (major_version : value)
    (recipient_index : nat) (sender_public : bytes) (ephemeral_public : value) : res bytes :=
  if py_eq_int major_version 1 then
    let mac_key_nonce := py_slice header_hash None (Some 24) in
    mac_key_box <- crypto_box zero32 mac_key_nonce (VBin sender_public) recipient_private ;;
    Ok (py_slice mac_key_box (Some 16) (Some 48))
  else
    mac_key_nonce_base <- update_byte15 (byte_and 254) (py_slice header_hash None (Some 16)) ;;
    index_bytes <- to_bytes recipient_index 8 ;;
    mac_key_box_sender <- crypto_box zero32 (mac_key_nonce_base ++ index_bytes)
                            (VBin sender_public) recipient_private ;;
    mac_key_nonce_base <- update_byte15 (byte_or 1) mac_key_nonce_base ;;
    index_bytes <- to_bytes recipient_index 8 ;;
    mac_key_box_ephemeral <- crypto_box zero32 (mac_key_nonce_base ++ index_bytes)
                               ephemeral_public recipient_private ;;
    digest <- crypto_hash (VBin (py_slice mac_key_box_sender (Some (-32)) None ++
                                 py_slice mac_key_box_ephemeral (Some (-32)) None)) ;;
    Ok (py_slice digest None (Some 32)).

(** The body of the loop that decrypts the packets (lines 307-343), after the
    packet has been read: the chunk of the packet, and whether the loop ends
    with it. *)
Definition decrypt_packet (major_version : value)
    (header_hash mac_key payload_key : bytes) (recipient_index : nat)
    (packet : value) (chunknum : nat) : res (bytes * bool) :=
  _ <- json_repr packet ;;
  let final_flag := VBool false in
  '(final_flag, hash_authenticators, payload_secretbox) <-
    (if py_eq_int major_version 1 then
       items <- unpack_at_least 2 packet ;;
       Ok (final_flag, nth 0 items VNil, nth 1 items VNil)
     else
       items <- unpack_at_least 3 packet ;;
       Ok (nth 0 items VNil, nth 1 items VNil, nth 2 items VNil)) ;;
  hash_authenticator <- py_getitem hash_authenticators recipient_index ;;
  (* Verify the secretbox hash. *)
  chunknum_bytes <- to_bytes chunknum 8 ;;
  let payload_nonce := PAYLOAD_NONCE_PREFIX ++ chunknum_bytes in
  let final_flag_byte :=
    if py_eq_int major_version 1 then []
    else if py_truthy final_flag then [x01] else [x00] in
  to_hash <- bytes_add (header_hash ++ payload_nonce ++ final_flag_byte) payload_secretbox ;;
  payload_hash <- crypto_hash (VBin to_hash) ;;
  let our_authenticator := authenticator mac_key payload_hash in
  equal <- compare_digest hash_authenticator our_authenticator ;;
  if negb equal then Raise HMACError
  else
    (* Open the payload secretbox. *)
    chunk <- crypto_secretbox_open payload_secretbox payload_nonce payload_key ;;
    (* The empty chunk or the final flag signifies the end of the message. *)
    Ok (chunk, is_empty chunk || py_truthy final_flag).

(** The loop that decrypts the packets (lines 303-347).  Each turn reads one
    object from the stream; [fuel] bounds the number of turns. *)
Fixpoint decrypt_packets (fuel : nat) (major_version : value)
    (header_hash mac_key payload_key : bytes) (recipient_index : nat)
    (stream : bytes) (output : bytes) (chunknum : nat) : res bytes :=
  match fuel with
  | O => Diverge
  | S fuel' =>
      '(packet, stream) <- unpack stream ;;
      '(chunk, stop) <- decrypt_packet major_version header_hash mac_key payload_key
                          recipient_index packet chunknum ;;
      let output := output ++ chunk in
      if stop then Ok output
      else
        decrypt_packets fuel' major_version header_hash mac_key payload_key
          recipient_index stream output (S chunknum)
  end.

(** What [decrypt] does once the header has passed the three checks
    (lines 251-347). *)
Definition decrypt_checked (recipient_private header_hash : bytes)
    (major_version ephemeral_public sender_secretbox recipient_pairs : value)
    (ephemeral_beforenm : bytes) (stream : bytes) : res bytes :=
  (* Try decrypting each sender box, until we find the one that works. *)
  pairs <- py_iter recipient_pairs ;;
  '(recipient_index, payload_key) <- find_recipient major_version ephemeral_beforenm 0 pairs ;;
  sender_public <- crypto_secretbox_open sender_secretbox SENDER_KEY_SECRETBOX_NONCE payload_key ;;
  mac_key <- decrypt_mac_key recipient_private header_hash major_version recipient_index
               sender_public ephemeral_public ;;
  (* Decrypt each of the packets. *)
  decrypt_packets (S (List.length stream)) major_version header_hash mac_key payload_key
    recipient_index stream [] 0.

(** The three checks on the parsed header (lines 241-249). *)
Definition check_header (format_name major_version mode : value) : res unit :=
  if negb (py_eq_str format_name (str "saltpack")) then Raise BadFormatError
  else if negb (py_eq_int major_version 1 || py_eq_int major_version 2) then Raise BadVersionError
  else if negb (py_eq_int mode 0) then Raise BadModeError
  else Ok tt.

(** What [decrypt] has in hand when it reaches the checks. *)
Record parsed_header : Type := {
  hdr_hash : bytes;
  hdr_format_name : value;
  hdr_major_version : value;
  hdr_minor_version : value;
  hdr_mode : value;
  hdr_ephemeral_public : value;
  hdr_sender_secretbox : value;
  hdr_recipient_pairs : value;
  hdr_ephemeral_beforenm : bytes;
  hdr_stream : bytes                (* the stream after the header *)
}.

(** Parsing the header (lines 221-239). *)
Definition parse_header (input : bytes) (recipient_private : bytes) : res parsed_header :=
  let stream := input in
  '(header_bytes, stream) <- unpack stream ;;
  header_hash <- crypto_hash header_bytes ;;
  header <- unpackb header_bytes ;;
  _ <- json_repr header ;;
  items <- unpack_at_least 6 header ;;
  version <- unpack_exactly 2 (nth 1 items VNil) ;;
  let ephemeral_public := nth 3 items VNil in
  ephemeral_beforenm <- crypto_box_beforenm ephemeral_public recipient_private ;;
  Ok {| hdr_hash := header_hash;
        hdr_format_name := nth 0 items VNil;
        hdr_major_version := nth 0 version VNil;
        hdr_minor_version := nth 1 version VNil;
        hdr_mode := nth 2 items VNil;
        hdr_ephemeral_public := ephemeral_public;
        hdr_sender_secretbox := nth 4 items VNil;
        hdr_recipient_pairs := nth 5 items VNil;
        hdr_ephemeral_beforenm := ephemeral_beforenm;
        hdr_stream := stream |}.

Definition decrypt (input : bytes) (recipient_private : bytes) : res bytes :=
  h <- parse_header input recipient_private ;;
  _ <- check_header (hdr_format_name h) (hdr_major_version h) (hdr_mode h) ;;
  decrypt_checked recipient_private (hdr_hash h) (hdr_major_version h)
    (hdr_ephemeral_public h) (hdr_sender_secretbox h) (hdr_recipient_pairs h)
    (hdr_ephemeral_beforenm h) (hdr_stream h).

End Saltpack.

(** ** What is assumed of the collaborators *)

(** Objects made of [None], bools, ints, strs, bytes and lists only. *)
Fixpoint plain (v : value) : bool :=
  match v with
  | VNil | VBool _ | VInt _ | VStr _ | VBin _ => true
  | VArray l => forallb plain l
  | _ => false
  end.

(** Plain objects within the size classes that [encrypt] writes: ints that fit
    a positive fixint, ASCII strs that fit a fixstr, bytes and lists below
    [2^32] items. *)
Fixpoint wire_value (v : value) : bool :=
  match v with
  | VNil | VBool _ => true
  | VInt z => (0 <=? z) && (z <? 128)
  | VStr s => (len s <? 32) && forallb (fun c => (c <? 128)%N) s
  | VBin b => len b <? 2 ^ 32
  | VArray l => (len l <? 2 ^ 32) && forallb wire_value l
  | _ => false
  end.

(** The number of bytes of the MessagePack encoding of a [wire_value]. *)
Definition bin_header_size (n : Z) : Z :=
  if n <? 2 ^ 8 then 2 else if n <? 2 ^ 16 then 3 else 5.

Definition array_header_size (n : Z) : Z :=
  if n <? 16 then 1 else if n <? 2 ^ 16 then 3 else 5.

Fixpoint msgpack_size (v : value) : Z :=
  match v with
  | VNil | VBool _ | VInt _ => 1
  | VStr s => 1 + len s
  | VBin b => bin_header_size (len b) + len b
  | VArray l => array_header_size (len l) + fold_right (fun x acc => msgpack_size x + acc) 0 l
  | _ => 0
  end.

Section Laws.

Context (M : Umsgpack) (C : Crypto).

(** Reading back what [packb] wrote gives the object and leaves what follows. *)
Definition unpack_inverts_packb : Prop :=
  forall v b rest, plain v = true -> packb v = Ok b -> unpack (b ++ rest) = Ok (v, rest).

(** [unpack] reads only the bytes of the object it returns. *)
Definition unpack_reads_prefix : Prop :=
  forall s v rest t, unpack s = Ok (v, rest) -> unpack (s ++ t) = Ok (v, rest ++ t).

(** Every object takes at least one byte. *)
Definition unpack_consumes : Prop :=
  forall s v rest, unpack s = Ok (v, rest) -> (List.length rest < List.length s)%nat.

Definition packb_succeeds : Prop :=
  forall v, wire_value v = true -> exists b, packb v = Ok b.

Definition packb_msgpack_size : Prop :=
  forall v b, wire_value v = true -> packb v = Ok b -> len b = msgpack_size v.

Record UmsgpackLaws : Prop := {
  law_unpack_inverts_packb : unpack_inverts_packb;
  law_unpack_consumes : unpack_consumes
}.

Record UmsgpackFormat : Prop := {
  law_packb_succeeds : packb_succeeds;
  law_packb_msgpack_size : packb_msgpack_size
}.

(** [sk] is a private key with public key [pk]. *)
Definition keypair (sk pk : bytes) : Prop := crypto_scalarmult_base sk = Ok pk.

Record CryptoLaws : Prop := {
  (* a secretbox opens under the nonce and key that sealed it *)
  law_secretbox_open :
    forall m n k c,
      crypto_secretbox m n k = Ok c -> crypto_secretbox_open (VBin c) n k = Ok m;
  (* two key pairs have a shared key *)
  law_beforenm :
    forall a A b B, keypair a A -> keypair b B ->
      exists k, crypto_box_beforenm (VBin A) b = Ok k;
  (* a box sealed by [a] for [B] opens under the key that [b] shares with [A] *)
  law_box_open :
    forall a A b B m n c k, keypair a A -> keypair b B ->
      crypto_box m n (VBin B) a = Ok c ->
      crypto_box_beforenm (VBin A) b = Ok k ->
      crypto_box_open_afternm (VBin c) n k = Ok m;
  (* both ends of a key exchange seal the same box *)
  law_box_symmetric :
    forall a A b B m n, keypair a A -> keypair b B ->
      crypto_box m n (VBin B) a = crypto_box m n (VBin A) b
}.

(** The bindings return or raise: they do not loop. *)
Record CryptoReturns : Prop := {
  ret_secretbox_open : forall c n k, crypto_secretbox_open c n k <> Diverge;
  ret_box : forall m n pk sk, crypto_box m n pk sk <> Diverge;
  ret_beforenm : forall pk sk, crypto_box_beforenm pk sk <> Diverge;
  ret_box_open : forall c n k, crypto_box_open_afternm c n k <> Diverge;
  ret_hash : forall v, crypto_hash v <> Diverge
}.

Definition unpack_returns : Prop := forall s, unpack s <> Diverge.

(** The sizes of keys, boxes and digests. *)
Record CryptoSizes : Prop := {
  law_scalarmult_base :
    forall sk, len sk = 32 -> exists pk, keypair sk pk /\ len pk = 32;
  law_secretbox :
    forall m n k, len n = 24 -> len k = 32 ->
      exists c, crypto_secretbox m n k = Ok c /\ len c = 16 + len m;
  law_box :
    forall m n a b B, len n = 24 -> len a = 32 -> len b = 32 -> keypair b B ->
      exists c, crypto_box m n (VBin B) a = Ok c /\ len c = 16 + len m;
  law_hash :
    forall b, exists h, crypto_hash (VBin b) = Ok h /\ len h = 64;
  law_hmac :
    forall key message, len (hmac_sha512 key message) = 64
}.

End Laws.

(** ** An executable implementation of the two interfaces

    [Toy.msgpack] writes and reads the MessagePack encodings of the
    [wire_value]s (nil, false/true, positive fixint, fixstr, bin 8/16/32,
    fixarray, array 16/32).  [Toy.crypto] is a keyed byte-wise cipher with a
    16-byte tag; it offers no security and stands in for [nacl] only so that
    the laws above have a model and the functions can be run. *)
Module Toy.

Definition N_of_bytes (b : bytes) : N :=
  fold_left (fun acc x => (acc * 256 + Byte.to_N x)%N) b 0%N.

Definition bin_header (n : N) : bytes :=
  if (n <? 2 ^ 8)%N then xc4 :: be_bytes 1 n
  else if (n <? 2 ^ 16)%N then xc5 :: be_bytes 2 n
  else xc6 :: be_bytes 4 n.

Definition array_header (n : N) : bytes :=
  if (n <? 16)%N then [byte_of_N (144 + n)]
  else if (n <? 2 ^ 16)%N then xdc :: be_bytes 2 n
  else xdd :: be_bytes 4 n.

Definition unsupported {A : Type} : res A := Raise (UmsgpackException "unsupported").
Definition insufficient {A : Type} : res A := Raise (UmsgpackException "insufficient data").

Fixpoint pack_all (pack : value -> res bytes) (l : list value) : res bytes :=
  match l with
  | [] => Ok []
  | v :: l' => b <- pack v ;; bs <- pack_all pack l' ;; Ok (b ++ bs)
  end.

Fixpoint toy_packb (v : value) : res bytes :=
  match v with
  | VNil => Ok [xc0]
  | VBool false => Ok [xc2]
  | VBool true => Ok [xc3]
  | VInt z => if (0 <=? z) && (z <? 128) then Ok [byte_of_N (Z.to_N z)] else unsupported
  | VStr s =>
      if (len s <? 32) && forallb (fun c => (c <? 128)%N) s
      then Ok (byte_of_N (160 + N.of_nat (List.length s)) :: map byte_of_N s)
      else unsupported
  | VBin b =>
      if len b <? 2 ^ 32 then Ok (bin_header (N.of_nat (List.length b)) ++ b) else unsupported
  | VArray l =>
      if len l <? 2 ^ 32
      then items <- pack_all toy_packb l ;; Ok (array_header (N.of_nat (List.length l)) ++ items)
      else unsupported
  | _ => unsupported
  end.

(** [take n s]: the first [n] bytes of the stream and the rest. *)
Definition take (n : N) (s : bytes) : res (bytes * bytes) :=
  if (n <=? N.of_nat (List.length s))%N
  then Ok (firstn (N.to_nat n) s, skipn (N.to_nat n) s)
  else insufficient.

Definition take_N (width : N) (s : bytes) : res (N * bytes) :=
  '(b, rest) <- take width s ;; Ok (N_of_bytes b, rest).

Definition unpack_bin (n : N) (s : bytes) : res (value * bytes) :=
  '(b, s) <- take n s ;; Ok (VBin b, s).

Definition unpack_str (n : N) (s : bytes) : res (value * bytes) :=
  '(b, s) <- take n s ;;
  if forallb (fun x => (Byte.to_N x <? 128)%N) b
  then Ok (VStr (map Byte.to_N b), s)
  else unsupported.

(** One object whose first byte is [c], given the reader of the items of an
    array. *)
Definition unpack_body (unpack_items : N -> bytes -> res (list value * bytes))
    (c : byte) (s : bytes) : res (value * bytes) :=
  let unpack_array (n : N) (s : bytes) : res (value * bytes) :=
    '(vs, s) <- unpack_items n s ;; Ok (VArray vs, s) in
  let t := Byte.to_N c in
  if (t <? 128)%N then Ok (VInt (Z.of_N t), s)
  else if (t <? 144)%N then unsupported
  else if (t <? 160)%N then unpack_array (t - 144)%N s
  else if (t <? 192)%N then unpack_str (t - 160)%N s
  else if (t =? 192)%N then Ok (VNil, s)
  else if (t =? 194)%N then Ok (VBool false, s)
  else if (t =? 195)%N then Ok (VBool true, s)
  else if (t =? 196)%N then '(n, s) <- take_N 1 s ;; unpack_bin n s
  else if (t =? 197)%N then '(n, s) <- take_N 2 s ;; unpack_bin n s
  else if (t =? 198)%N then '(n, s) <- take_N 4 s ;; unpack_bin n s
  else if (t =? 220)%N then '(n, s) <- take_N 2 s ;; unpack_array n s
  else if (t =? 221)%N then '(n, s) <- take_N 4 s ;; unpack_array n s
  else unsupported.

Fixpoint unpack_fuel (fuel : nat) (s : bytes) {struct fuel} : res (value * bytes) :=
  match fuel with
  | O => insufficient
  | S fuel' =>
      match s with
      | [] => insufficient
      | c :: s => unpack_body (unpack_items fuel') c s
      end
  end
with unpack_items (fuel : nat) (n : N) (s : bytes) {struct fuel} : res (list value * bytes) :=
  if (n =? 0)%N then Ok ([], s)
  else
    match fuel with
    | O => insufficient
    | S fuel' =>
        '(v, s) <- unpack_fuel fuel' s ;;
        '(vs, s) <- unpack_items fuel' (n - 1)%N s ;;
        Ok (v :: vs, s)
    end.

Definition toy_unpack (s : bytes) : res (value * bytes) :=
  unpack_fuel (2 * List.length s) s.

(** A reader [r'] extends a reader [r]: where [r] succeeds it does not make
    the stream longer, and [r'] reads the same from a longer stream. *)
Definition extends {A : Type} (r r' : bytes -> res (A * bytes)) : Prop :=
  forall s a rest, r s = Ok (a, rest) ->
    (List.length rest <= List.length s)%nat /\
    forall t, r' (s ++ t) = Ok (a, rest ++ t).

#[export] Instance msgpack : Umsgpack := {|
  packb := toy_packb;
  unpack := toy_unpack
|}.

Definition add_byte (a b : byte) : byte :=
  byte_of_N ((Byte.to_N a + Byte.to_N b) mod 256)%N.

Definition sub_byte (a b : byte) : byte :=
  byte_of_N ((Byte.to_N a + 256 - Byte.to_N b) mod 256)%N.

Fixpoint zip_bytes (op : byte -> byte -> byte) (a b : bytes) : bytes :=
  match a, b with
  | x :: a', y :: b' => op x y :: zip_bytes op a' b'
  | _, _ => []
  end.

(** [m] combined byte by byte with the key, repeated as often as needed. *)
Fixpoint keyed (op : byte -> byte -> byte) (key : bytes) (i : nat) (m : bytes) : bytes :=
  match m with
  | [] => []
  | x :: m' => op x (nth (i mod List.length key) key x00) :: keyed op key (S i) m'
  end.

Definition tag (nonce key : bytes) : bytes :=
  zip_bytes add_byte
    (zip_bytes add_byte (firstn 16 key) (skipn 16 key))
    (zip_bytes add_byte (firstn 16 nonce) (skipn 8 nonce)).

Definition toy_secretbox (message nonce key : bytes) : res bytes :=
  if (List.length nonce =? 24)%nat && (List.length key =? 32)%nat
  then Ok (tag nonce key ++ keyed add_byte key 0 message)
  else Raise ValueError.

Definition toy_secretbox_open (ciphertext : value) (nonce key : bytes) : res bytes :=
  match ciphertext with
  | VBin c =>
      if (List.length nonce =? 24)%nat && (List.length key =? 32)%nat
      then
        if (16 <=? List.length c)%nat && bytes_eqb (firstn 16 c) (tag nonce key)
        then Ok (keyed sub_byte key 0 (skipn 16 c))
        else Raise CryptoError
      else Raise ValueError
  | _ => Raise TypeError
  end.

Definition toy_scalarmult_base (sk : bytes) : res bytes :=
  if (List.length sk =? 32)%nat then Ok (rev sk) else Raise ValueError.

Definition toy_beforenm (pk : value) (sk : bytes) : res bytes :=
  match pk with
  | VBin pk =>
      if (List.length pk =? 32)%nat && (List.length sk =? 32)%nat
      then Ok (zip_bytes add_byte (rev pk) sk)
      else Raise ValueError
  | _ => Raise TypeError
  end.

Definition toy_box (message nonce : bytes) (pk : value) (sk : bytes) : res bytes :=
  k <- toy_beforenm pk sk ;; toy_secretbox message nonce k.

Definition toy_digest (b : bytes) : bytes :=
  let s := fold_left (fun acc x => (acc * 31 + Byte.to_N x + 1) mod 65521)%N b 7%N in
  map (fun i => byte_of_N ((s + N.of_nat i * (s / 256 + 1)) mod 256)%N) (seq 0 64).

Definition toy_hash (v : value) : res bytes :=
  match v with
  | VBin b => Ok (toy_digest b)
  | _ => Raise TypeError
  end.

#[export] Instance crypto : Crypto := {|
  crypto_scalarmult_base := toy_scalarmult_base;
  crypto_secretbox := toy_secretbox;
  crypto_secretbox_open := toy_secretbox_open;
  crypto_box := toy_box;
  crypto_box_beforenm := toy_beforenm;
  crypto_box_open_afternm := toy_secretbox_open;
  crypto_hash := toy_hash;
  hmac_sha512 := fun key message => toy_digest (key ++ message)
|}.

End Toy.

(** ** The chunker contract, in the words of the specification *)

Definition ceil_div (a b : Z) : Z := (a + b - 1) / b.

(** The i-th chunk of the message, for chunks of [S] bytes. *)
Definition nth_chunk (message : bytes) (S : Z) (i : nat) : bytes :=
  py_slice message (Some (Z.of_nat i * S)) (Some (Z.of_nat i * S + S)).

(** The [ceil(len/S)] full-or-short chunks of the message, in order. *)
Definition spec_chunks (message : bytes) (S : Z) : list bytes :=
  map (nth_chunk message S) (seq 0 (Z.to_nat (ceil_div (len message) S))).

Definition chunk_index (t : chunk_triple) : nat := fst (fst t).
Definition chunk_bytes (t : chunk_triple) : bytes := snd (fst t).
Definition chunk_final (t : chunk_triple) : bool := snd t.

(** The triples that the loop of [chunks_loop] yields from [chunk_start] on. *)
Definition loop_triples (message : bytes) (S : Z) (major_version : Z)
    (chunk_start : Z) (chunks_count : nat) : list chunk_triple :=
  map (fun i => ((chunks_count + i)%nat,
                 py_slice message (Some (chunk_start + Z.of_nat i * S))
                                  (Some (chunk_start + Z.of_nat i * S + S)),
                 negb (major_version =? 1) && (len message <=? chunk_start + Z.of_nat i * S + S)))
      (seq 0 (Z.to_nat (ceil_div (len message - chunk_start) S)))
  ++ (if major_version =? 1
      then [((chunks_count + Z.to_nat (ceil_div (len message - chunk_start) S))%nat, [], true)]
      else []).

(** ** MAC-key derivation, in the words of the specification *)

(** [u64be(i)]: the 8-byte big-endian encoding of [i]. *)
Definition u64be (i : nat) : bytes := be_bytes 8 (N.of_nat i).

(** [B[-n..]]: the last [n] bytes of [B]. *)
Definition last_bytes (n : nat) (b : bytes) : bytes := skipn (List.length b - n) b.

(** The 16 bytes [h16] with bit 0 of byte 15 set or cleared. *)
Definition with_bit0_of_byte15 (set : bool) (h16 : bytes) : bytes :=
  let b15 := Byte.to_N (nth 15 h16 x00) in
  firstn 15 h16 ++ [byte_of_N (if set then N.setbit b15 0 else N.clearbit b15 0)].

Definition spec_mac_key_v1 {C : Crypto} (header_hash R_i sender_private : bytes) : res bytes :=
  (B <- crypto_box zero32 (firstn 24 header_hash) (VBin R_i) sender_private ;;
   Ok (firstn 32 (skipn 16 B)))%res.

Definition spec_mac_key_v2 {C : Crypto} (header_hash : bytes) (i : nat)
    (R_i sender_private ephemeral_private : bytes) : res bytes :=
  let H16 := firstn 16 header_hash in
  let N_even := with_bit0_of_byte15 false H16 ++ u64be i in
  let N_odd := with_bit0_of_byte15 true H16 ++ u64be i in
  (B1 <- crypto_box zero32 N_even (VBin R_i) sender_private ;;
   B2 <- crypto_box zero32 N_odd (VBin R_i) ephemeral_private ;;
   digest <- crypto_hash (VBin (last_bytes 32 B1 ++ last_bytes 32 B2)) ;;
   Ok (firstn 32 digest))%res.

(** ** Sizes on the wire

    The number of bytes that [encrypt] writes, by the MessagePack encoding:
    keys have 32 bytes, boxes 16 bytes more than what they seal. *)

(** One recipient pair: [[R, box]] or [[nil, box]], the box sealing a 32-byte key. *)
Definition pair_size (visible_recipients : bool) : Z :=
  1 + (if visible_recipients then 2 + 32 else 1) + (2 + 48).

(** The header array for [n] recipients. *)
Definition header_size (visible_recipients : bool) (n : Z) : Z :=
  1 + 9 + 3 + 1 + (2 + 32) + (2 + 48)
  + (array_header_size n + n * pair_size visible_recipients).

(** The packet of a chunk of [chunk_len] bytes, with [n] authenticators. *)
Definition packet_size (major_version : Z) (n : Z) (chunk_len : Z) : Z :=
  1 + (if major_version =? 1 then 0 else 1)
  + (array_header_size n + n * (2 + 32))
  + (bin_header_size (16 + chunk_len) + (16 + chunk_len)).

Definition ciphertext_size (major_version : Z) (visible_recipients : bool) (n : Z)
    (chunk_lens : list Z) : Z :=
  bin_header_size (header_size visible_recipients n) + header_size visible_recipients n
  + fold_right (fun l acc => packet_size major_version n l + acc) 0 chunk_lens.

(** ** Notions used in the statements *)

(** [R] is the public key of some 32-byte private key. *)
Definition is_public_key {C : Crypto} (R : bytes) : Prop :=
  exists r, len r = 32 /\ keypair C r R.


(** The payload key box of slot [i], made for [R] with the nonce of version
    [major_version], does not open with the shared key [ephemeral_beforenm]. *)
Definition slot_rejects {C : Crypto} (ephemeral_private payload_key : bytes) (major_version : Z)
    (ephemeral_beforenm : bytes) (i : nat) (R : bytes) : Prop :=
  forall n c,
    payload_key_nonce (VInt major_version) i = Ok n ->
    crypto_box payload_key n (VBin R) ephemeral_private = Ok c ->
    crypto_box_open_afternm (VBin c) n ephemeral_beforenm = Raise CryptoError.

(** Slot [i] of the header does not give the payload key: its payload key
    box fails to open with the shared key, with a [CryptoError]. *)
Definition slot_fails {C : Crypto} (major_version : value) (ephemeral_beforenm : bytes)
    (i : nat) (slot : value) : Prop :=
  exists items n,
    unpack_at_least 2 slot = Ok items /\
    payload_key_nonce major_version i = Ok n /\
    crypto_box_open_afternm (nth 1 items VNil) n ephemeral_beforenm = Raise CryptoError.

(** The reading of the packet loop in which, for major version 2, only the
    final flag of a packet ends the loop: after a packet that is accepted, the
    loop returns when the flag is true and goes on to the next packet when it
    is not, whether or not the chunk is empty. *)
Definition only_final_flag_terminates (M : Umsgpack) (C : Crypto) : Prop :=
  forall fuel major_version header_hash mac_key payload_key recipient_index
         stream packet stream' items chunk stop output chunknum,
    py_eq_int major_version 1 = false ->
    unpack stream = Ok (packet, stream') ->
    unpack_at_least 3 packet = Ok items ->
    decrypt_packet major_version header_hash mac_key payload_key recipient_index
      packet chunknum = Ok (chunk, stop) ->
    decrypt_packets (S fuel) major_version header_hash mac_key payload_key recipient_index
      stream output chunknum =
    if py_truthy (nth 0 items VNil) then Ok (output ++ chunk)
    else decrypt_packets fuel major_version header_hash mac_key payload_key recipient_index
           stream' (output ++ chunk) (S chunknum).

(** Whether the packet loop of [decrypt] ends with this chunk. *)
Definition terminal (major_version : Z) (t : chunk_triple) : bool :=
  is_empty (chunk_bytes t) || (negb (major_version =? 1) && chunk_final t).

(** The first terminal chunk of the list is its last chunk. *)
Fixpoint stops_at_last (major_version : Z) (chunks : list chunk_triple) : Prop :=
  match chunks with
  | [] => False
  | t :: rest =>
      match rest with
      | [] => terminal major_version t = true
      | _ :: _ => terminal major_version t = false /\ stops_at_last major_version rest
      end
  end.

Definition given_version (major_version : option Z) : Z :=
  match major_version with
  | None => DEFAULT_MAJOR_VERSION
  | Some v => v
  end.


(** ** Example inputs

    The keys of the test suite: an all-zero sender key and the two recipient
    keys [1 ... 1] and [1 ... 1 0]; the two random draws are fixed. *)
Module Example.
Import Toy.

Definition sender_private : bytes := repeat x00 32.
Definition recipient1_private : bytes := repeat x01 32.
Definition recipient2_private : bytes := repeat x01 31 ++ [x00].
Definition ephemeral_private : bytes := repeat x07 32.
Definition payload_key : bytes := map (fun i => byte_of_N (N.of_nat i)) (seq 3 32).

Definition public (private : bytes) : bytes :=
  match crypto_scalarmult_base private with
  | Ok pk => pk
  | _ => []
  end.

Definition recipients : list bytes := [public recipient1_private; public recipient2_private].

Definition message : bytes := bytes_of_string "foo bar".

(** The ciphertexts of [message] for the two recipients, in chunks of 3 bytes. *)
Definition ciphertext_v1 : bytes :=
  Eval vm_compute in
    match encrypt sender_private recipients message 3 false (Some 1)
            ephemeral_private payload_key with
    | Ok c => c
    | _ => []
    end.

Definition ciphertext_v2 : bytes :=
  Eval vm_compute in
    match encrypt sender_private recipients message 3 false (Some 2)
            ephemeral_private payload_key with
    | Ok c => c
    | _ => []
    end.

(** A header that is well formed except for its major version, 3, written as
    [encrypt] writes headers. *)
Definition bad_version_input : bytes :=
  Eval vm_compute in
    match (header_bytes <- packb (header_of 3 0 (public ephemeral_private) (repeat x00 48) []) ;;
           packb (VBin header_bytes))%res with
    | Ok c => c
    | _ => []
    end.

(** A version 2 stream of two packets made with the payload key, an all-zero
    header hash and an all-zero MAC key: an empty chunk with the final flag
    false, then the chunk "x" with the final flag true. *)
Definition zero_hash : bytes := repeat x00 64.

Definition two_packets : bytes :=
  Eval vm_compute in
    match encrypt_chunks payload_key zero_hash [zero32] 2
            [(0%nat, [], false); (1%nat, bytes_of_string "x", true)] [] with
    | Ok c => c
    | _ => []
    end.

(** A version 2 ciphertext for [recipients] put together as [encrypt] does,
    but from these two chunks: an empty chunk with the final flag false, then
    the chunk "x" with the final flag true. *)
Definition crafted_v2 : bytes :=
  Eval vm_compute in
    match (sender_public <- crypto_scalarmult_base sender_private ;;
           ephemeral_public <- crypto_scalarmult_base ephemeral_private ;;
           sender_secretbox <- crypto_secretbox sender_public SENDER_KEY_SECRETBOX_NONCE
                                 payload_key ;;
           pairs <- recipient_pairs_loop payload_key ephemeral_private false 2 0 recipients ;;
           header_bytes <- packb (header_of 2 0 ephemeral_public sender_secretbox pairs) ;;
           header_hash <- crypto_hash (VBin header_bytes) ;;
           double_encoded_header_bytes <- packb (VBin header_bytes) ;;
           mac_keys <- recipient_mac_keys_loop sender_private ephemeral_private header_hash
                         2 0 recipients ;;
           encrypt_chunks payload_key header_hash mac_keys 2
             [(0%nat, [], false); (1%nat, bytes_of_string "x", true)]
             double_encoded_header_bytes)%res with
    | Ok c => c
    | _ => []
    end.

End Example.

(** ** Further notions and example inputs *)

(** Where a packet of major version [major_version] keeps its authenticators:
    after the final flag, which version 1 does not have. *)
Definition authenticators_position (major_version : value) : nat :=
  if py_eq_int major_version 1 then 0 else 1.

(** The final flag that [decrypt] takes from the items of a packet. *)
Definition packet_final_flag (major_version : value) (items : list value) : value :=
  if py_eq_int major_version 1 then VBool false else nth 0 items VNil.

(** The byte that stands for the final flag in the payload hash. *)
Definition packet_final_flag_byte (major_version : value) (items : list value) : bytes :=
  if py_eq_int major_version 1 then []
  else if py_truthy (packet_final_flag major_version items) then [x01] else [x00].

Module Cases.
Import Toy.

(** A header of five elements, written as [encrypt] writes headers. *)
Definition short_header_input : bytes :=
  Eval vm_compute in
    match (header_bytes <- packb (VArray [VStr (str "saltpack"); VArray [VInt 2; VInt 0]; VInt 0;
                                          VBin (Example.public Example.ephemeral_private);
                                          VBin (repeat x00 48)]) ;;
           packb (VBin header_bytes))%res with
    | Ok c => c
    | _ => []
    end.

End Cases.

(** ** The command line

    [get_private], [get_recipients], [do_encrypt] and [do_decrypt] read the
    dict [args] of the command-line parser, the standard input and, for the
    armored form, the module [armor] of the package. *)

(** A Python str, as its Unicode code points. *)
Definition pystr : Type := list N.

(** The value of a hexadecimal digit, of either case. *)
Definition hex_digit (c : N) : option N :=
  if ((48 <=? c) && (c <=? 57))%N then Some (c - 48)%N
  else if ((97 <=? c) && (c <=? 102))%N then Some (c - 87)%N
  else if ((65 <=? c) && (c <=? 70))%N then Some (c - 55)%N
  else None.

(** [binascii.unhexlify(s)] for a str [s]: two hexadecimal digits per byte.
    A str of odd length, or a character that is not a hexadecimal digit
    (a character outside ASCII is none), raises [binascii.Error] or
    [ValueError]; [binascii.Error] is a [ValueError]. *)
Fixpoint unhexlify (s : pystr) : res bytes :=
  match s with
  | [] => Ok []
  | [_] => Raise ValueError
  | high :: low :: rest =>
      match hex_digit high, hex_digit low with
      | Some h, Some l => b <- unhexlify rest ;; Ok (byte_of_N (16 * h + l) :: b)
      | _, _ => Raise ValueError
      end
  end.

(** [s.encode('utf8')]: a surrogate cannot be encoded
    ([UnicodeEncodeError], a [ValueError]). *)
Definition utf8_encode_char (c : N) : res bytes :=
  if (c <? 128)%N then Ok [byte_of_N c]
  else if (c <? 2048)%N then
    Ok [byte_of_N (192 + c / 64); byte_of_N (128 + c mod 64)]
  else if (c <? 65536)%N then
    if ((55296 <=? c) && (c <=? 57343))%N then Raise ValueError
    else Ok [byte_of_N (224 + c / 4096); byte_of_N (128 + (c / 64) mod 64);
             byte_of_N (128 + c mod 64)]
  else if (c <? 1114112)%N then
    Ok [byte_of_N (240 + c / 262144); byte_of_N (128 + (c / 4096) mod 64);
        byte_of_N (128 + (c / 64) mod 64); byte_of_N (128 + c mod 64)]
  else Raise ValueError.

Fixpoint utf8_encode (s : pystr) : res bytes :=
  match s with
  | [] => Ok []
  | c :: rest => b <- utf8_encode_char c ;; bs <- utf8_encode rest ;; Ok (b ++ bs)
  end.

(** The dict [args]: an optional argument is [None] when it is not given,
    [<recipients>] is a list, a flag is a bool. *)
Record arguments : Type := {
  arg_private : option pystr;          (* args['<private>'] *)
  arg_recipients : list pystr;         (* args['<recipients>'] *)
  arg_message : option pystr;          (* args['--message'] *)
  arg_visible : bool;                  (* args['--visible'] *)
  arg_chunk : option pystr;            (* args['--chunk'] *)
  arg_major_version : option pystr;    (* args['--major-version'] *)
  arg_binary : bool                    (* args['--binary'] *)
}.

(** [if s] for an optional str: [None] and the empty str count as false. *)
Definition if_given {A : Type} (s : option pystr) (yes : pystr -> A) (no : A) : A :=
  match s with
  | Some (c :: rest) => yes (c :: rest)
  | _ => no
  end.

Definition get_private (args : arguments) : res bytes :=
  if_given (arg_private args)
    (fun hex =>
       private <- unhexlify hex ;;
       if len private =? 32 then Ok private else Raise AssertionError)
    (Ok (repeat x00 32)).

(** The loop of [get_recipients] (lines 361-365). *)
Fixpoint recipients_loop (hexes : list pystr) : res (list bytes) :=
  match hexes with
  | [] => Ok []
  | recipient :: rest =>
      key <- unhexlify recipient ;;
      if len key =? 32
      then recipients <- recipients_loop rest ;; Ok (key :: recipients)
      else Raise AssertionError
  end.

Definition get_recipients {C : Crypto} (args : arguments) : res (list bytes) :=
  match arg_recipients args with
  | _ :: _ => recipients_loop (arg_recipients args)
  | [] =>
      (* Without explicit recipients, just send to yourself. *)
      private <- get_private args ;;
      public <- crypto_scalarmult_base private ;;
      Ok [public]
  end.

(** The built-in [int] on a str, and the two uses of the module [armor]:
    [(armor.armor(output, message_type="ENCRYPTED MESSAGE") + '\n').encode()]
    and [armor.dearmor(message.decode())]. *)
Class Runtime : Type := {
  int : pystr -> res Z;
  armor_output : bytes -> res bytes;
  dearmor_input : bytes -> res bytes
}.

Section CommandLine.

Context {M : Umsgpack} {C : Crypto} {R : Runtime}.

(** The message that [do_encrypt] encrypts (lines 375-380); [stdin] is what
    [sys.stdin.buffer.read()] returns. *)
Definition encoded_message_of (args : arguments) (stdin : bytes) : res bytes :=
  match arg_message args with
  | None => Ok stdin
  | Some message => utf8_encode message
  end.

(** Lines 382-385. *)
Definition chunk_size_of (args : arguments) : res Z :=
  if_given (arg_chunk args) int (Ok (10 ^ 6)).

(** Lines 386-389. *)
Definition major_version_of (args : arguments) : res (option Z) :=
  if_given (arg_major_version args) (fun s => v <- int s ;; Ok (Some v)) (Ok None).

(** [do_encrypt]: the bytes that it writes to the standard output. *)
Definition do_encrypt (args : arguments) (stdin : bytes) (ephemeral_private payload_key : bytes)
  : res bytes :=
  let visible_recipients := arg_visible args in
  encoded_message <- encoded_message_of args stdin ;;
  sender <- get_private args ;;
  chunk_size <- chunk_size_of args ;;
  major_version <- major_version_of args ;;
  recipients <- get_recipients args ;;
  output <- encrypt sender recipients encoded_message chunk_size visible_recipients
              major_version ephemeral_private payload_key ;;
  if negb (arg_binary args) then armor_output output else Ok output.

(** [do_decrypt]: the bytes that it writes to the standard output. *)
Definition do_decrypt (args : arguments) (stdin : bytes) : res bytes :=
  let message := stdin in
  message <- (if negb (arg_binary args) then dearmor_input message else Ok message) ;;
  private <- get_private args ;;
  decrypt message private.

End CommandLine.

(** Hexadecimal digits, for the statements: [hexlify upper b] writes the
    bytes of [b] with the digits a-f in upper or in lower case. *)
Definition hex_char (upper : bool) (d : N) : N :=
  if (d <? 10)%N then (48 + d)%N else if upper then (55 + d)%N else (87 + d)%N.

Definition hexlify (upper : bool) (b : bytes) : pystr :=
  flat_map (fun x => [hex_char upper (Byte.to_N x / 16); hex_char upper (Byte.to_N x mod 16)]) b.

(** [armor.dearmor] gives back what [armor.armor] was given. *)
Definition dearmor_inverts_armor (R : Runtime) : Prop :=
  forall b, exists a, armor_output b = Ok a /\ dearmor_input a = Ok b.

Module ToyRuntime.

(** Decimal digits only. *)
Fixpoint digits_value (acc : Z) (s : pystr) : res Z :=
  match s with
  | [] => Ok acc
  | c :: rest =>
      if ((48 <=? c) && (c <=? 57))%N
      then digits_value (10 * acc + Z.of_N (c - 48)) rest
      else Raise ValueError
  end.

Definition toy_int (s : pystr) : res Z :=
  match s with
  | [] => Raise ValueError
  | _ :: _ => digits_value 0 s
  end.

(** A one-byte mark in front of the bytes stands in for the armor. *)
Definition toy_armor (b : bytes) : res bytes := Ok (x3a :: b).

Definition toy_dearmor (a : bytes) : res bytes :=
  match a with
  | x3a :: b => Ok b
  | _ => Raise ValueError
  end.

#[export] Instance runtime : Runtime := {|
  int := toy_int;
  armor_output := toy_armor;
  dearmor_input := toy_dearmor
|}.

End ToyRuntime.

Module CliExample.

(** No key and no recipients given: the message "foo bar" in chunks of 3. *)
Definition to_yourself (binary : bool) : arguments := {|
  arg_private := None;
  arg_recipients := [];
  arg_message := Some (str "foo bar");
  arg_visible := false;
  arg_chunk := Some (str "3");
  arg_major_version := None;
  arg_binary := binary
|}.

End CliExample.

(** ** The test suite: [test_encrypt.py] *)

(** [for x in items: body], with the state that the body changes. *)
Fixpoint for_each {A S : Type} (body : A -> S -> res S) (items : list A) (s : S) : res S :=
  match items with
  | [] => Ok s
  | x :: rest => s' <- body x s ;; for_each body rest s'
  end.

(** [self.assertEqual(a, b)] and [self.assertNotEqual(a, b)] on bytes. *)
Definition assertEqual (a b : bytes) : res unit :=
  if bytes_eqb a b then Ok tt else Raise AssertionError.

Definition assertNotEqual (a b : bytes) : res unit :=
  if bytes_eqb a b then Raise AssertionError else Ok tt.

(** [self.assertRaises(RuntimeError, f, ...)]: another exception passes
    through, and a call that returns fails the test. *)
Definition assertRaises_RuntimeError {A : Type} (call : res A) : res unit :=
  match call with
  | Raise (RuntimeError _) => Ok tt
  | Raise e => Raise e
  | Ok _ => Raise AssertionError
  | Diverge => Diverge
  end.

(** [[nacl.bindings.crypto_scalarmult_base(x) for x in keys]] *)
Fixpoint public_keys {C : Crypto} (keys : list bytes) : res (list bytes) :=
  match keys with
  | [] => Ok []
  | x :: rest =>
      public <- crypto_scalarmult_base x ;; publics <- public_keys rest ;; Ok (public :: publics)
  end.

(** [b'long message' * 10 ** 4] *)
Definition long_message : bytes :=
  List.concat (repeat (bytes_of_string "long message") (10 ^ 4)).

Section TestEncrypt.

Context {M : Umsgpack} {C : Crypto}.

(** [urandom k] is what the call number [k] of [os.urandom(32)] returns; the
    state of the test is the number of calls made so far. *)
Variable urandom : nat -> bytes.

(** The body of the loop over the recipients' private keys (lines 20-22). *)
Definition check_recipient (encrypted message : bytes) (recipient_private_key : bytes)
    (calls : nat) : res nat :=
  decrypted <- decrypt encrypted recipient_private_key ;;
  _ <- assertEqual decrypted message ;;
  _ <- assertNotEqual encrypted message ;;
  Ok calls.

(** The body of the loop over the major versions (lines 16-24). *)
Definition check_version (message : bytes) (chunk_size : Z) (private_sender : bytes)
    (recipient_private_keys recipient_public_keys : list bytes) (major_version : Z)
    (calls : nat) : res nat :=
  encrypted <- encrypt private_sender recipient_public_keys message chunk_size false
                 (Some major_version) (urandom calls) (urandom (S calls)) ;;
  let calls := S (S calls) in
  calls <- for_each (check_recipient encrypted message) recipient_private_keys calls ;;
  _ <- assertRaises_RuntimeError (decrypt encrypted private_sender) ;;
  Ok calls.

(** The body of the loop over the chunk sizes (lines 11-24). *)
Definition check_chunk_size (message : bytes) (chunk_size : Z) (calls : nat) : res nat :=
  let private_sender := repeat x00 32 in
  let recipient_private_keys := [repeat x01 32; repeat x01 31 ++ [x00]] in
  recipient_public_keys <- public_keys recipient_private_keys ;;
  for_each (check_version message chunk_size private_sender recipient_private_keys
              recipient_public_keys)
    [1; 2] calls.

(** [Test.test_encrypt]: the number of calls of [os.urandom] when the test
    passes, and the exception that it ends with when it does not. *)
Definition test_encrypt : res nat :=
  for_each (fun message calls => for_each (check_chunk_size message) [10 ^ 6; 10 ^ 3] calls)
    [[]; bytes_of_string "foo bar"; long_message] 0%nat.

End TestEncrypt.

(** The payload key box made for [R] in slot [i] is rejected under the
    private key [other_private]. *)
Definition foreign_key_rejected {C : Crypto} (ephemeral_private payload_key : bytes)
    (major_version : Z) (other_private : bytes) (i : nat) (R : bytes) : Prop :=
  forall ephemeral_public k,
    keypair C ephemeral_private ephemeral_public ->
    crypto_box_beforenm (VBin ephemeral_public) other_private = Ok k ->
    slot_rejects ephemeral_private payload_key major_version k i R.

(** What the test needs of the boxes made with the draws [ephemeral_private]
    and [payload_key]: the box of the first recipient is rejected under the
    key of the second, and both boxes under the sender's key. *)
Definition test_keys_rejected {C : Crypto} (ephemeral_private payload_key : bytes) : Prop :=
  forall major_version R1 R2,
    major_version = 1 \/ major_version = 2 ->
    keypair C (repeat x01 32) R1 ->
    keypair C (repeat x01 31 ++ [x00]) R2 ->
    foreign_key_rejected ephemeral_private payload_key major_version
      (repeat x01 31 ++ [x00]) 0 R1 /\
    foreign_key_rejected ephemeral_private payload_key major_version (repeat x00 32) 0 R1 /\
    foreign_key_rejected ephemeral_private payload_key major_version (repeat x00 32) 1 R2.

Module TestExample.
(** Draws that alternate between the two draws of the examples. *)
Definition urandom (k : nat) : bytes :=
  if Nat.even k then Example.ephemeral_private else Example.payload_key.

End TestExample.

(** ** The header checks

    The reading of the header checks in which they come straight after the
    header array has been taken apart: a header array that parses is rejected
    by its format name, its major version or its mode, whatever else it
    holds. *)
Definition checks_follow_header_array (M : Umsgpack) (C : Crypto) : Prop :=
  forall input recipient_private header_bytes stream header_hash header items version,
    unpack input = Ok (header_bytes, stream) ->
    crypto_hash header_bytes = Ok header_hash ->
    unpackb header_bytes = Ok header ->
    json_repr header = Ok tt ->
    unpack_at_least 6 header = Ok items ->
    unpack_exactly 2 (nth 1 items VNil) = Ok version ->
    let format_ok := py_eq_str (nth 0 items VNil) (str "saltpack") in
    let version_ok :=
      py_eq_int (nth 0 version VNil) 1 || py_eq_int (nth 0 version VNil) 2 in
    let mode_ok := py_eq_int (nth 2 items VNil) 0 in
    (format_ok = false -> decrypt input recipient_private = Raise BadFormatError) /\
    (format_ok = true -> version_ok = false ->
     decrypt input recipient_private = Raise BadVersionError) /\
    (format_ok = true -> version_ok = true -> mode_ok = false ->
     decrypt input recipient_private = Raise BadModeError).

Module HeaderCases.
Import Toy.

(** A header of six elements with the format name "notsaltpack" and an
    ephemeral public key of 31 bytes, written as [encrypt] writes headers. *)
Definition wrong_name_short_key_input : bytes :=
  Eval vm_compute in
    match (header_bytes <- packb (VArray [VStr (str "notsaltpack"); VArray [VInt 2; VInt 0];
                                          VInt 0; VBin (repeat x00 31); VBin (repeat x00 48);
                                          VArray []]) ;;
           packb (VBin header_bytes))%res with
    | Ok c => c
    | _ => []
    end.

End HeaderCases.

(** * Proofs *)

(** ** The chunkers *)

Lemma len_nonneg {A} (s : list A) : 0 <= len s.
Proof. unfold len; lia. Qed.

Lemma len_app {A : Type} (a b : list A) : len (a ++ b) = len a + len b.
Proof. unfold len. rewrite length_app. lia. Qed.

Lemma be_bytes_length k : forall n, List.length (be_bytes k n) = k.
Proof.
  induction k as [|k IH]; intros n; cbn [be_bytes]; [reflexivity|].
  rewrite length_app, IH. cbn. lia.
Qed.

Lemma py_slice_nonneg {A} (s : list A) lo hi :
  0 <= lo -> lo <= hi ->
  py_slice s (Some lo) (Some hi) =
  firstn (Z.to_nat (Z.min hi (len s) - Z.min lo (len s))) (skipn (Z.to_nat (Z.min lo (len s))) s).
Proof.
  intros Hlo Hhi. unfold py_slice, slice_bound.
  destruct (Z.ltb_spec lo 0); [lia|]. destruct (Z.ltb_spec hi 0); [lia|]. reflexivity.
Qed.

Lemma ceil_div_nonpos a b : 0 < b -> a <= 0 -> Z.to_nat (ceil_div a b) = 0%nat.
Proof.
  intros Hb Ha. unfold ceil_div.
  assert ((a + b - 1) / b <= 0); [|lia].
  assert ((a + b - 1) / b < 1); [|lia].
  apply Z.div_lt_upper_bound; lia.
Qed.

Lemma ceil_div_step a b : 0 < b -> 0 < a ->
  Z.to_nat (ceil_div a b) = S (Z.to_nat (ceil_div (a - b) b)).
Proof.
  intros Hb Ha. unfold ceil_div.
  replace (a + b - 1) with ((a - b + b - 1) + 1 * b) by lia.
  rewrite Z.div_add by lia.
  assert (0 <= (a - b + b - 1) / b) by (apply Z.div_pos; lia).
  lia.
Qed.

Lemma chunks_loop_while_closed fuel : forall message S v chunk_start chunks_count,
  0 < S -> len message - chunk_start <= Z.of_nat fuel ->
  chunks_loop_while fuel message S v chunk_start chunks_count
  = Ok (loop_triples message S v chunk_start chunks_count).
Proof.
  induction fuel as [|fuel IH]; intros message S v start count HS Hfuel;
    cbn [chunks_loop_while]; unfold loop_triples.
  - destruct (Z.ltb_spec start (len message)); [lia|].
    rewrite ceil_div_nonpos by lia. cbn. rewrite Nat.add_0_r.
    destruct (v =? 1); reflexivity.
  - destruct (Z.ltb_spec start (len message)).
    + rewrite IH by lia. cbn [bind].
      rewrite (ceil_div_step (len message - start)) by lia.
      cbn [seq map app]. rewrite <- seq_shift, map_map.
      unfold loop_triples.
      replace (len message - (start + S)) with (len message - start - S) by lia.
      change (Z.of_nat 0) with 0. rewrite Z.mul_0_l, Z.add_0_r, Nat.add_0_r.
      apply f_equal, f_equal, f_equal2.
      * apply map_ext. intros i.
        rewrite Nat2Z.inj_succ, Z.mul_succ_l, Nat.add_succ_r.
        replace (start + (Z.of_nat i * S + S)) with (start + S + Z.of_nat i * S) by lia.
        reflexivity.
      * destruct (v =? 1); [|reflexivity]. rewrite Nat.add_succ_r. reflexivity.
    + rewrite ceil_div_nonpos by lia. cbn. rewrite Nat.add_0_r.
      destruct (v =? 1); reflexivity.
Qed.

Lemma py_slice_len {A} (s : list A) lo hi :
  0 <= lo -> lo <= hi ->
  len (py_slice s (Some lo) (Some hi)) = Z.min hi (len s) - Z.min lo (len s).
Proof.
  intros Hlo Hhi. rewrite py_slice_nonneg by assumption.
  unfold len. rewrite length_firstn, length_skipn. lia.
Qed.

Lemma ceil_div_bounds a b : 0 < b ->
  b * (ceil_div a b - 1) < a <= b * ceil_div a b.
Proof.
  intros Hb. unfold ceil_div.
  pose proof (Z.mul_div_le (a + b - 1) b Hb).
  pose proof (Z.mul_succ_div_gt (a + b - 1) b Hb).
  lia.
Qed.

Lemma chunks_loop_closed message S v :
  0 < S ->
  chunks_loop message S v =
  Ok (if is_empty message then [(O, [], true)] else loop_triples message S v 0 0).
Proof.
  intros HS. unfold chunks_loop.
  destruct (Z.ltb_spec 0 S); [|lia]. cbn [negb].
  destruct message as [|x message]; [reflexivity|]. cbn [is_empty].
  apply chunks_loop_while_closed; [assumption|]. unfold len. lia.
Qed.

(** The last of the [n] chunks is the one that reaches the end of the message. *)
Lemma final_chunk_index (message : bytes) S i :
  0 < S -> (i < Z.to_nat (ceil_div (len message) S))%nat ->
  (len message <=? Z.of_nat i * S + S) = (Datatypes.S i =? Z.to_nat (ceil_div (len message) S))%nat.
Proof.
  intros HS Hi. pose proof (ceil_div_bounds (len message) S HS) as [Hlo Hhi].
  destruct (Nat.eqb_spec (Datatypes.S i) (Z.to_nat (ceil_div (len message) S))) as [E|E].
  - apply Z.leb_le. nia.
  - apply Z.leb_gt. nia.
Qed.

Lemma chunks_loop_v1 message S :
  0 < S ->
  chunks_loop message S 1 =
  Ok (map (fun i => (i, nth_chunk message S i, false))
          (seq 0 (Z.to_nat (ceil_div (len message) S)))
      ++ [(Z.to_nat (ceil_div (len message) S), [], true)]).
Proof.
  intros HS. rewrite chunks_loop_closed by assumption.
  destruct message as [|x message].
  - rewrite ceil_div_nonpos by (cbn; lia). reflexivity.
  - cbn [is_empty]. unfold loop_triples. rewrite Z.sub_0_r. reflexivity.
Qed.

Lemma chunks_loop_not_v1 message S v :
  0 < S -> v <> 1 -> message <> [] ->
  chunks_loop message S v =
  Ok (map (fun i => (i, nth_chunk message S i, (Datatypes.S i =? Z.to_nat (ceil_div (len message) S))%nat))
          (seq 0 (Z.to_nat (ceil_div (len message) S)))).
Proof.
  intros HS Hv Hm. rewrite chunks_loop_closed by assumption.
  destruct message as [|x message]; [congruence|]. cbn [is_empty].
  unfold loop_triples. rewrite Z.sub_0_r.
  destruct (Z.eqb_spec v 1); [congruence|]. rewrite app_nil_r.
  apply f_equal, map_ext_in. intros i Hi. apply in_seq in Hi.
  cbn [negb andb Nat.add]. unfold nth_chunk. rewrite !Z.add_0_l.
  rewrite final_chunk_index by lia. reflexivity.
Qed.

Lemma chunks_loop_empty S v :
  0 < S -> chunks_loop [] S v = Ok [(O, [], true)].
Proof. intros HS. rewrite chunks_loop_closed by assumption. reflexivity. Qed.

(** The slices [start + i*S .. start + (i+1)*S], put end to end, are the
    message from [start] on. *)
Lemma concat_slices fuel : forall (message : bytes) S start,
  0 < S -> 0 <= start -> len message - start <= Z.of_nat fuel ->
  List.concat (map (fun i => py_slice message (Some (start + Z.of_nat i * S))
                                         (Some (start + Z.of_nat i * S + S)))
              (seq 0 (Z.to_nat (ceil_div (len message - start) S))))
  = skipn (Z.to_nat start) message.
Proof.
  induction fuel as [|fuel IH]; intros message S start HS Hstart Hfuel.
  - rewrite ceil_div_nonpos by lia. rewrite skipn_all2 by (unfold len in *; lia). reflexivity.
  - destruct (Z.lt_ge_cases start (len message)) as [Hlt|Hge].
    + rewrite ceil_div_step by lia. cbn [seq map List.concat].
      rewrite <- seq_shift, map_map.
      change (Z.of_nat 0) with 0. rewrite Z.mul_0_l, Z.add_0_r.
      pose proof (IH message S (start + S) HS ltac:(lia) ltac:(lia)) as H.
      replace (len message - (start + S)) with (len message - start - S) in H by lia.
      match goal with
      | |- _ ++ List.concat (map ?f ?l) = _ =>
          rewrite (map_ext f (fun i => py_slice message (Some (start + S + Z.of_nat i * S))
                                                 (Some (start + S + Z.of_nat i * S + S))))
      end.
      2:{ intros i. rewrite Nat2Z.inj_succ, Z.mul_succ_l.
          replace (start + (Z.of_nat i * S + S)) with (start + S + Z.of_nat i * S) by lia.
          reflexivity. }
      rewrite H. clear H.
      rewrite py_slice_nonneg by lia.
      rewrite Z.min_l with (n := start) by lia.
      replace (Z.to_nat (start + S)) with (Z.to_nat S + Z.to_nat start)%nat by lia.
      rewrite <- skipn_skipn.
      set (l := skipn (Z.to_nat start) message).
      assert (Hl : List.length l = Z.to_nat (len message - start)).
      { subst l. rewrite length_skipn. unfold len. lia. }
      destruct (Z.le_gt_cases (start + S) (len message)) as [Hle|Hgt].
      * rewrite Z.min_l by lia. replace (start + S - start) with S by lia.
        apply firstn_skipn.
      * rewrite Z.min_r by lia. rewrite skipn_all2 by lia.
        rewrite app_nil_r. apply firstn_all2. lia.
    + rewrite ceil_div_nonpos by lia. rewrite skipn_all2 by (unfold len in *; lia). reflexivity.
Qed.

Lemma concat_spec_chunks message S :
  0 < S -> List.concat (spec_chunks message S) = message.
Proof.
  intros HS. unfold spec_chunks, nth_chunk.
  pose proof (concat_slices (List.length message) message S 0 HS) as H.
  rewrite Z.sub_0_r in H. cbn [Z.to_nat skipn Z.add] in H. apply H; unfold len; lia.
Qed.

Lemma nth_chunk_len (message : bytes) S i :
  0 < S -> (i < Z.to_nat (ceil_div (len message) S))%nat ->
  0 < len (nth_chunk message S i) <= S /\
  ((Datatypes.S i < Z.to_nat (ceil_div (len message) S))%nat -> len (nth_chunk message S i) = S).
Proof.
  intros HS Hi. unfold nth_chunk. rewrite py_slice_len by nia.
  pose proof (ceil_div_bounds (len message) S HS) as [Hlo Hhi].
  split; [nia|]. intros Hi'. nia.
Qed.

Lemma chunks_with_empty_while_closed fuel : forall message S chunk_start chunks,
  0 < S -> len message - chunk_start <= Z.of_nat fuel ->
  chunks_with_empty_while fuel message S chunk_start chunks
  = Ok (chunks ++
        map (fun i => py_slice message (Some (chunk_start + Z.of_nat i * S))
                                       (Some (chunk_start + Z.of_nat i * S + S)))
            (seq 0 (Z.to_nat (ceil_div (len message - chunk_start) S)))
        ++ [[]]).
Proof.
  induction fuel as [|fuel IH]; intros message S start chunks HS Hfuel;
    cbn [chunks_with_empty_while].
  - destruct (Z.ltb_spec start (len message)); [lia|].
    rewrite ceil_div_nonpos by lia. reflexivity.
  - destruct (Z.ltb_spec start (len message)).
    + rewrite IH by lia.
      rewrite (ceil_div_step (len message - start)) by lia.
      cbn [seq map]. rewrite <- seq_shift, map_map.
      change (Z.of_nat 0) with 0. rewrite Z.mul_0_l, Z.add_0_r.
      replace (len message - (start + S)) with (len message - start - S) by lia.
      rewrite <- app_assoc. cbn [app].
      apply f_equal, f_equal, f_equal, f_equal2; [|reflexivity].
      apply map_ext. intros i.
      rewrite Nat2Z.inj_succ, Z.mul_succ_l.
      replace (start + (Z.of_nat i * S + S)) with (start + S + Z.of_nat i * S) by lia.
      reflexivity.
    + rewrite ceil_div_nonpos by lia. reflexivity.
Qed.

Lemma chunks_with_empty_closed message S :
  0 < S -> chunks_with_empty message S = Ok (spec_chunks message S ++ [[]]).
Proof.
  intros HS. unfold chunks_with_empty.
  rewrite chunks_with_empty_while_closed by (unfold len; lia).
  rewrite Z.sub_0_r. reflexivity.
Qed.


(** ** From [encrypt] to [decrypt] *)


(** ** The error monad *)

Lemma bind_Ok {A B : Type} (c : res A) (k : A -> res B) (b : B) :
  bind c k = Ok b -> exists a, c = Ok a /\ k a = Ok b.
Proof. destruct c; cbn; intros H; try discriminate. eauto. Qed.

Lemma Ok_inj {A : Type} (a b : A) : Ok a = Ok b -> a = b.
Proof. intros H. injection H as H. exact H. Qed.

Tactic Notation "inv_bind" hyp(H) "as" ident(a) ident(E) :=
  apply bind_Ok in H; destruct H as (a & E & H).

Lemma bytes_eqb_refl (b : bytes) : bytes_eqb b b = true.
Proof.
  induction b as [|x b IH]; [reflexivity|]. cbn.
  rewrite IH, andb_true_r. apply Byte.byte_dec_lb. reflexivity.
Qed.

Lemma bytes_eqb_eq (a b : bytes) : bytes_eqb a b = true -> a = b.
Proof.
  revert b. induction a as [|x a IH]; intros [|y b] H; try discriminate; [reflexivity|].
  cbn in H. apply andb_true_iff in H as [H1 H2].
  apply Byte.byte_dec_bl in H1. f_equal; auto.
Qed.

Lemma byte_or_and (x : byte) : byte_or 1 (byte_and 254 x) = byte_or 1 x.
Proof. destruct x; reflexivity. Qed.

Lemma update_byte15_parts (f : byte -> byte) (p q : bytes) (y : byte) :
  List.length p = 15%nat ->
  update_byte15 f (p ++ [y] ++ q) = Ok (p ++ [f y] ++ q).
Proof.
  intros L. unfold update_byte15.
  rewrite nth_error_app2 by lia. rewrite L, Nat.sub_diag. cbn [nth_error app].
  rewrite firstn_app, L, Nat.sub_diag, firstn_O, app_nil_r.
  rewrite (firstn_all2 (n := 15) p) by lia.
  change 16%nat with (1 + 15)%nat. rewrite <- skipn_skipn.
  rewrite skipn_app, L, Nat.sub_diag, skipn_O.
  rewrite (skipn_all2 (n := 15) p) by lia.
  reflexivity.
Qed.

Lemma update_byte15_twice (f g : byte -> byte) (b b' : bytes) :
  update_byte15 g b = Ok b' ->
  update_byte15 f b' = update_byte15 (fun x => f (g x)) b.
Proof.
  intros H. unfold update_byte15 in H |- * at 2.
  destruct (nth_error b 15) as [x|] eqn:E; [|discriminate].
  assert (L : (15 < List.length b)%nat) by (apply nth_error_Some; congruence).
  assert (L15 : List.length (firstn 15 b) = 15%nat) by (rewrite length_firstn; lia).
  revert H L15. generalize (firstn 15 b) (skipn 16 b). intros p q H L15.
  injection H as <-. apply update_byte15_parts. assumption.
Qed.

Lemma update_byte15_ext (f g : byte -> byte) (b : bytes) :
  (forall x, f x = g x) -> update_byte15 f b = update_byte15 g b.
Proof. intros H. unfold update_byte15. destruct (nth_error b 15); [rewrite H|]; reflexivity. Qed.

Lemma forallb_map_VBin (p : value -> bool) (l : list bytes) :
  (forall b, p (VBin b) = true) -> forallb p (map VBin l) = true.
Proof. intros H. induction l; cbn; [reflexivity|]. rewrite H, IHl. reflexivity. Qed.

Section RoundTrip.

Context {M : Umsgpack} {C : Crypto}.
Hypothesis ML : UmsgpackLaws M.
Hypothesis CL : CryptoLaws C.

Variables (sender_private sender_public ephemeral_private ephemeral_public : bytes).
Variables (payload_key header_hash : bytes).
Variable major_version : Z.
Variables (recipient_private recipient_public ephemeral_beforenm : bytes).

Hypothesis sender_keys : keypair C sender_private sender_public.
Hypothesis ephemeral_keys : keypair C ephemeral_private ephemeral_public.
Hypothesis recipient_keys : keypair C recipient_private recipient_public.
Hypothesis shared_key :
  crypto_box_beforenm (VBin ephemeral_public) recipient_private = Ok ephemeral_beforenm.

Lemma find_recipient_finds visible recipients : forall i0 j pairs,
  recipient_pairs_loop payload_key ephemeral_private visible major_version i0 recipients = Ok pairs ->
  nth_error recipients j = Some recipient_public ->
  (forall i R, (i < j)%nat -> nth_error recipients i = Some R ->
     slot_rejects ephemeral_private payload_key major_version ephemeral_beforenm (i0 + i) R) ->
  find_recipient (VInt major_version) ephemeral_beforenm i0 pairs = Ok ((i0 + j)%nat, payload_key).
Proof.
  induction recipients as [|R recipients IH]; intros i0 j pairs Hpairs Hj Hrej.
  - destruct j; discriminate.
  - cbn [recipient_pairs_loop] in Hpairs.
    inv_bind Hpairs as nonce E. inv_bind Hpairs as box E0.
    inv_bind Hpairs as rest E1. injection Hpairs as <-.
    cbn [find_recipient].
    assert (Hitems : forall p, p = (if visible then VArray [VBin R; VBin box] else VArray [VNil; VBin box]) ->
               unpack_at_least 2 p = Ok (if visible then [VBin R; VBin box] else [VNil; VBin box])).
    { intros p ->. destruct visible; reflexivity. }
    rewrite (Hitems _ eq_refl). cbn [bind].
    replace (nth 1 (if visible then [VBin R; VBin box] else [VNil; VBin box]) VNil)
      with (VBin box) by (destruct visible; reflexivity).
    rewrite E. cbn [bind].
    destruct j as [|j].
    + injection Hj as ->.
      rewrite (law_box_open _ CL _ _ _ _ _ _ _ _ ephemeral_keys recipient_keys E0 shared_key).
      cbn. rewrite Nat.add_0_r. reflexivity.
    + rewrite (Hrej 0%nat R ltac:(lia) eq_refl nonce box); [|rewrite Nat.add_0_r; assumption|assumption].
      cbn [bind except_CryptoError].
      rewrite (IH (S i0) j rest E1 Hj).
      * f_equal. f_equal. lia.
      * intros i R' Hi HR'. replace (S i0 + i)%nat with (i0 + S i)%nat by lia.
        apply Hrej; [lia|assumption].
Qed.


Lemma decrypt_mac_key_agrees i mac_key :
  recipient_mac_key sender_private ephemeral_private header_hash major_version i
    recipient_public = Ok mac_key ->
  decrypt_mac_key recipient_private header_hash (VInt major_version) i sender_public
    (VBin ephemeral_public) = Ok mac_key.
Proof.
  unfold recipient_mac_key, decrypt_mac_key. cbn [py_eq_int].
  assert (Hs : forall a A b B n, keypair C a A -> keypair C b B ->
            crypto_box zero32 n (VBin B) a = crypto_box zero32 n (VBin A) b)
    by (intros; apply (law_box_symmetric _ CL); assumption).
  destruct (major_version =? 1); intros H.
  - cbn [bind] in H |- *.
    rewrite <- (Hs sender_private sender_public recipient_private recipient_public)
      by assumption.
    exact H.
  - inv_bind H as nonce En. inv_bind En as base Eb. inv_bind En as ib Ei. injection En as <-.
    inv_bind H as box1 E1. inv_bind H as base2 Eb2. inv_bind H as ib' Ei'.
    inv_bind H as box2 E2.
    rewrite Eb. cbn [bind]. rewrite Ei. cbn [bind].
    rewrite <- (Hs sender_private sender_public recipient_private recipient_public)
      by assumption.
    rewrite E1. cbn [bind].
    rewrite (update_byte15_twice _ _ _ _ Eb).
    rewrite (update_byte15_ext (fun x => byte_or 1 (byte_and 254 x)) (byte_or 1))
      by apply byte_or_and.
    rewrite Eb2. cbn [bind]. rewrite Ei in Ei'. injection Ei' as <-.
    rewrite <- (Hs ephemeral_private ephemeral_public recipient_private recipient_public)
      by assumption.
    rewrite E2. cbn [bind]. exact H.
Qed.

Lemma recipient_mac_keys_loop_nth recipients : forall i0 j keys,
  recipient_mac_keys_loop sender_private ephemeral_private header_hash major_version i0
    recipients = Ok keys ->
  nth_error recipients j = Some recipient_public ->
  exists mac_key,
    nth_error keys j = Some mac_key /\
    recipient_mac_key sender_private ephemeral_private header_hash major_version (i0 + j)
      recipient_public = Ok mac_key.
Proof.
  induction recipients as [|R recipients IH]; intros i0 j keys H Hj.
  - destruct j; discriminate.
  - cbn [recipient_mac_keys_loop] in H. inv_bind H as x E. inv_bind H as x0 E0.
    injection H as <-.
    destruct j as [|j].
    + injection Hj as ->. exists x. rewrite Nat.add_0_r. split; [reflexivity|assumption].
    + destruct (IH (S i0) j x0 E0 Hj) as (mk & H1 & H2).
      exists mk. split; [assumption|].
      replace (i0 + S j)%nat with (S i0 + j)%nat by lia. assumption.
Qed.


(** The packet that [encrypt] writes for a chunk is accepted by the loop body
    of [decrypt], which gives back the chunk. *)
Lemma decrypt_packet_of_encrypt_chunk recipient_mac_keys j mac_key chunknum chunk final_flag packet_bytes :
  encrypt_chunk payload_key header_hash recipient_mac_keys major_version
    (chunknum, chunk, final_flag) = Ok packet_bytes ->
  nth_error recipient_mac_keys j = Some mac_key ->
  exists packet,
    packb packet = Ok packet_bytes /\ plain packet = true /\
    decrypt_packet (VInt major_version) header_hash mac_key payload_key j packet chunknum
    = Ok (chunk, terminal major_version (chunknum, chunk, final_flag)).
Proof.
  unfold encrypt_chunk. intros H Hj. inv_bind H as packet Hpacket.
  exists packet. split; [exact H|]. clear H. unfold chunk_packet in Hpacket.
  inv_bind Hpacket as nb En. inv_bind Hpacket as sbox Es. inv_bind Hpacket as ph Eh.
  apply Ok_inj in Hpacket. subst packet.
  assert (Hget : forall l, l = map (fun mk => VBin (authenticator mk ph)) recipient_mac_keys ->
            nth_or_IndexError l j = Ok (VBin (authenticator mac_key ph))).
  { intros l ->. unfold nth_or_IndexError. rewrite nth_error_map, Hj. reflexivity. }
  assert (Hplain : forallb plain (map (fun mk => VBin (authenticator mk ph)) recipient_mac_keys) = true).
  { rewrite <- (map_map (fun mk => authenticator mk ph) VBin). apply forallb_map_VBin. reflexivity. }
  assert (Hjson : forallb json_serialisable (map (fun mk => VBin (authenticator mk ph)) recipient_mac_keys) = true).
  { rewrite <- (map_map (fun mk => authenticator mk ph) VBin). apply forallb_map_VBin. reflexivity. }
  apply (law_secretbox_open _ CL) in Es. rewrite <- ?app_assoc in Eh.
  unfold decrypt_packet, terminal, chunk_bytes, chunk_final, json_repr. cbn [py_eq_int fst snd].
  destruct (major_version =? 1).
  - split; [cbn; rewrite Hplain; reflexivity|].
    cbn [json_serialisable forallb]. rewrite Hjson. cbn [andb bind].
    cbn [unpack_at_least py_iter bind List.length Nat.leb nth py_getitem].
    rewrite (Hget _ eq_refl). cbn [bind]. rewrite En. cbn [bind bytes_add].
    rewrite <- !app_assoc. rewrite Eh. cbn [bind compare_digest].
    rewrite bytes_eqb_refl. cbn [negb]. rewrite Es. cbn [bind py_truthy negb andb].
    reflexivity.
  - split; [cbn; rewrite Hplain; reflexivity|].
    cbn [json_serialisable forallb]. rewrite Hjson. cbn [andb bind].
    cbn [unpack_at_least py_iter bind List.length Nat.leb nth py_getitem].
    rewrite (Hget _ eq_refl). cbn [bind]. rewrite En. cbn [bind bytes_add py_truthy].
    rewrite <- !app_assoc. rewrite Eh. cbn [bind compare_digest].
    rewrite bytes_eqb_refl. cbn [negb]. rewrite Es. cbn [bind py_truthy negb andb].
    reflexivity.
Qed.

Lemma packet_not_empty packet packet_bytes :
  plain packet = true -> packb packet = Ok packet_bytes -> (1 <= List.length packet_bytes)%nat.
Proof.
  intros Hp Hb.
  pose proof (law_unpack_inverts_packb _ ML packet packet_bytes [] Hp Hb) as H.
  apply (law_unpack_consumes _ ML) in H. rewrite app_nil_r in H. cbn in H. lia.
Qed.

Lemma decrypt_packets_of_encrypt_chunks recipient_mac_keys j mac_key :
  nth_error recipient_mac_keys j = Some mac_key ->
  forall chunks output0 output chunknum,
  encrypt_chunks payload_key header_hash recipient_mac_keys major_version chunks output0
    = Ok output ->
  map chunk_index chunks = seq chunknum (List.length chunks) ->
  stops_at_last major_version chunks ->
  exists packets,
    output = output0 ++ packets /\
    (List.length chunks <= List.length packets)%nat /\
    forall fuel trailing acc, (List.length chunks <= fuel)%nat ->
      decrypt_packets fuel (VInt major_version) header_hash mac_key payload_key j
        (packets ++ trailing) acc chunknum
      = Ok (acc ++ List.concat (map chunk_bytes chunks)).
Proof.
  intros Hj. induction chunks as [|[[n chunk] final_flag] rest IH];
    intros output0 output chunknum H Hidx Hstop; [contradiction|].
  cbn [encrypt_chunks] in H. inv_bind H as packet_bytes Ep.
  cbn [map List.length seq chunk_index fst] in Hidx. injection Hidx as -> Hidx.
  destruct (decrypt_packet_of_encrypt_chunk _ _ _ _ _ _ _ Ep Hj) as (packet & Hb & Hp & Hd).
  pose proof (packet_not_empty _ _ Hp Hb) as Hlen.
  destruct rest as [|t rest].
  - cbn [encrypt_chunks] in H. injection H as <-. exists packet_bytes.
    split; [reflexivity|]. split; [cbn; lia|].
    intros fuel trailing acc Hfuel. destruct fuel as [|fuel]; [cbn in Hfuel; lia|].
    cbn [decrypt_packets].
    rewrite (law_unpack_inverts_packb _ ML _ _ trailing Hp Hb). cbn [bind].
    rewrite Hd. cbn [bind]. cbn in Hstop. rewrite Hstop. cbn. rewrite app_nil_r. reflexivity.
  - destruct Hstop as [Hterm Hstop].
    destruct (IH _ _ _ H Hidx Hstop) as (packets & -> & Hlen' & Hdec).
    exists (packet_bytes ++ packets). split; [rewrite app_assoc; reflexivity|].
    split; [rewrite length_app; cbn [List.length] in *; lia|].
    intros fuel trailing acc Hfuel. destruct fuel as [|fuel]; [cbn in Hfuel; lia|].
    cbn [decrypt_packets]. rewrite <- app_assoc.
    rewrite (law_unpack_inverts_packb _ ML _ _ (packets ++ trailing) Hp Hb). cbn [bind].
    rewrite Hd. cbn [bind]. rewrite Hterm.
    rewrite Hdec by (cbn [List.length] in Hfuel |- *; lia).
    cbn [map List.concat chunk_bytes fst snd]. rewrite <- app_assoc. reflexivity.
Qed.

End RoundTrip.


Lemma stops_at_last_app v (l : list chunk_triple) (t : chunk_triple) :
  Forall (fun x => terminal v x = false) l -> terminal v t = true ->
  stops_at_last v (l ++ [t]).
Proof.
  intros Hl Ht. induction Hl as [|x l Hx Hl IH]; [exact Ht|].
  destruct l as [|y l]; (split; [assumption|exact IH]).
Qed.

Lemma is_empty_len {A} (s : list A) : 0 < len s -> is_empty s = false.
Proof. destruct s; [cbn; lia|reflexivity]. Qed.

Lemma ceil_div_pos a b : 0 < b -> 0 < a -> (0 < Z.to_nat (ceil_div a b))%nat.
Proof. intros Hb Ha. rewrite ceil_div_step by assumption. lia. Qed.

(** What [decrypt] relies on in the chunks that [encrypt] iterates over. *)
Lemma chunks_loop_wellformed (message : bytes) S v chunks :
  chunks_loop message S v = Ok chunks ->
  map chunk_index chunks = seq 0 (List.length chunks) /\
  stops_at_last v chunks /\
  List.concat (map chunk_bytes chunks) = message.
Proof.
  intros H.
  assert (HS : 0 < S).
  { unfold chunks_loop in H. destruct (Z.ltb_spec 0 S); [assumption|discriminate]. }
  destruct message as [|x0 message0] eqn:Em.
  { rewrite chunks_loop_empty in H by assumption. injection H as <-. cbn. auto. }
  rewrite <- Em in *.
  assert (Hne : message <> []) by (subst; discriminate).
  assert (Hlen : 0 < len message) by (subst; unfold len; cbn; lia).
  clear Em x0 message0.
  set (n := Z.to_nat (ceil_div (len message) S)) in *.
  assert (Hdata : forall f : nat -> bool,
            Forall (fun t => is_empty (chunk_bytes t) = false)
                   (map (fun i => (i, nth_chunk message S i, f i)) (seq 0 n))).
  { intros f. apply Forall_forall. intros t Ht. apply in_map_iff in Ht as (i & <- & Hi).
    apply in_seq in Hi. apply is_empty_len.
    apply (nth_chunk_len message S i HS). fold n. lia. }
  destruct (Z.eq_dec v 1) as [->|Hv].
  - rewrite chunks_loop_v1 in H by assumption. injection H as <-. fold n.
    split; [|split].
    + rewrite map_app, map_map, length_app, length_map, length_seq.
      cbn [map chunk_index fst List.length]. rewrite seq_app. cbn [seq Nat.add].
      f_equal. apply map_id.
    + apply stops_at_last_app; [|reflexivity].
      eapply Forall_impl; [|apply (Hdata (fun _ => false))].
      intros t Ht. unfold terminal. rewrite Ht. reflexivity.
    + rewrite map_app, map_map, concat_app. cbn [map List.concat chunk_bytes fst snd app].
      rewrite app_nil_r. apply (concat_spec_chunks message S HS).
  - rewrite chunks_loop_not_v1 in H by assumption. injection H as <-. fold n.
    split; [|split].
    + rewrite map_map, length_map, length_seq. apply map_id.
    + assert (Hn : (0 < n)%nat) by (apply ceil_div_pos; assumption).
      destruct n as [|n'] eqn:En; [lia|].
      rewrite seq_S, map_app. cbn [map Nat.add].
      apply stops_at_last_app.
      * apply Forall_forall. intros t Ht. apply in_map_iff in Ht as (i & <- & Hi).
        apply in_seq in Hi. unfold terminal, chunk_bytes, chunk_final. cbn [fst snd].
        rewrite is_empty_len.
        2:{ apply (nth_chunk_len message S i HS). fold n. lia. }
        destruct (Nat.eqb_spec i n'); [lia|].
        rewrite andb_false_r. reflexivity.
      * unfold terminal, chunk_final. cbn [snd]. rewrite ?Nat.eqb_refl.
        destruct (Z.eqb_spec v 1); [contradiction|]. apply orb_true_r.
    + rewrite map_map. apply (concat_spec_chunks message S HS).
Qed.


Section Pipeline.

Context {M : Umsgpack} {C : Crypto}.

Lemma recipient_pairs_loop_plain payload_key ephemeral_private visible v recipients :
  forall i0 pairs,
  recipient_pairs_loop payload_key ephemeral_private visible v i0 recipients = Ok pairs ->
  forallb plain pairs = true /\ forallb json_serialisable pairs = true.
Proof.
  induction recipients as [|R recipients IH]; intros i0 pairs H.
  - injection H as <-. split; reflexivity.
  - cbn [recipient_pairs_loop] in H. inv_bind H as nonce En. inv_bind H as box Eb.
    inv_bind H as rest Er. injection H as <-.
    destruct (IH _ _ Er) as [H1 H2]. cbn [forallb]. rewrite H1, H2.
    destruct visible; split; reflexivity.
Qed.

Lemma CURRENT_MINOR_VERSIONS_Ok v minor :
  CURRENT_MINOR_VERSIONS v = Ok minor -> (v = 1 \/ v = 2) /\ minor = 0.
Proof.
  unfold CURRENT_MINOR_VERSIONS.
  destruct (Z.eqb_spec v 1); [intros H; injection H as <-; auto|].
  destruct (Z.eqb_spec v 2); [intros H; injection H as <-; auto|discriminate].
Qed.

Hypothesis ML : UmsgpackLaws M.
Hypothesis CL : CryptoLaws C.

(** [decrypt] gives back the message that [encrypt] was given, to the
    recipient of slot [j], when the payload key boxes of the slots before [j]
    do not open with this recipient's key; bytes after the ciphertext do not
    matter. *)
Lemma decrypt_encrypt sender_private recipients message chunk_size visible major_version
    ephemeral_private payload_key ciphertext recipient_private recipient_public j trailing :
  encrypt sender_private recipients message chunk_size visible major_version
    ephemeral_private payload_key = Ok ciphertext ->
  keypair C recipient_private recipient_public ->
  nth_error recipients j = Some recipient_public ->
  (forall i R ephemeral_public k,
      (i < j)%nat -> nth_error recipients i = Some R ->
      keypair C ephemeral_private ephemeral_public ->
      crypto_box_beforenm (VBin ephemeral_public) recipient_private = Ok k ->
      slot_rejects ephemeral_private payload_key (given_version major_version) k i R) ->
  decrypt (ciphertext ++ trailing) recipient_private = Ok message.
Proof.
  intros H Hkeys Hj Hrej. unfold encrypt in H. fold (given_version major_version) in H.
  set (v := given_version major_version) in *.
  inv_bind H as sender_public Es. inv_bind H as ephemeral_public Ee.
  inv_bind H as sender_secretbox Esb. inv_bind H as pairs Ep.
  inv_bind H as minor Emin. inv_bind H as header_bytes Ehb.
  inv_bind H as header_hash Ehh. inv_bind H as double Ed.
  inv_bind H as mac_keys Emk. inv_bind H as chunks Ec.
  destruct (CURRENT_MINOR_VERSIONS_Ok _ _ Emin) as [Hv ->].
  destruct (recipient_pairs_loop_plain _ _ _ _ _ _ _ Ep) as [Hplain Hjson].
  destruct (law_beforenm _ CL _ _ _ _ Ee Hkeys) as (k & Ek).
  destruct (chunks_loop_wellformed _ _ _ _ Ec) as (Hidx & Hstop & Hcat).
  pose proof Emk as Hx. eapply recipient_mac_keys_loop_nth in Hx; [|exact Hj].
  destruct Hx as (mac_key & Hmk & Hmac). rewrite Nat.add_0_l in Hmac.
  pose proof H as Hx.
  eapply (decrypt_packets_of_encrypt_chunks ML CL) in Hx; [|exact Hmk|exact Hidx|exact Hstop].
  destruct Hx as (packets & -> & Hlen & Hdec). clear H.
  unfold decrypt, parse_header. rewrite <- app_assoc.
  rewrite (law_unpack_inverts_packb _ ML (VBin header_bytes) double _ eq_refl Ed).
  cbn [bind]. rewrite Ehh. cbn [bind unpackb].
  assert (Hhp : plain (header_of v 0 ephemeral_public sender_secretbox pairs) = true)
    by (unfold header_of; cbn [plain forallb]; rewrite Hplain; reflexivity).
  pose proof (law_unpack_inverts_packb _ ML _ header_bytes [] Hhp Ehb) as Hh.
  rewrite app_nil_r in Hh. rewrite Hh. cbn [bind].
  unfold json_repr, header_of. cbn [json_serialisable forallb]. rewrite Hjson. cbn [andb bind].
  cbn [unpack_at_least unpack_exactly py_iter bind List.length Nat.leb Nat.eqb nth].
  rewrite Ek. cbn [bind hdr_hash hdr_format_name hdr_major_version hdr_mode hdr_ephemeral_public
                      hdr_sender_secretbox hdr_recipient_pairs hdr_ephemeral_beforenm hdr_stream].
  assert (Hcheck : check_header (VStr (str "saltpack")) (VInt v) (VInt 0) = Ok tt).
  { unfold check_header. destruct Hv as [-> | ->]; reflexivity. }
  rewrite Hcheck. cbn [bind]. unfold decrypt_checked. cbn [py_iter bind].
  erewrite (find_recipient_finds CL); [|exact Ee|exact Hkeys|exact Ek|exact Ep|exact Hj|].
  2:{ intros i R Hi HR. apply (Hrej i R ephemeral_public k); assumption. }
  cbn [bind Nat.add].
  rewrite (law_secretbox_open _ CL _ _ _ _ Esb). cbn [bind].
  erewrite (decrypt_mac_key_agrees CL); [|exact Es|exact Ee|exact Hkeys|exact Hmac].
  cbn [bind]. rewrite Hdec.
  - cbn [app]. rewrite Hcat. reflexivity.
  - rewrite length_app. lia.
Qed.

End Pipeline.

(** ** The executable instance meets the laws *)


Module ToyFacts.
Import Toy.

Lemma to_N_byte_of_N (n : N) : (n < 256)%N -> Byte.to_N (byte_of_N n) = n.
Proof.
  intros H. unfold byte_of_N. destruct (Byte.of_N n) as [b|] eqn:E.
  - apply Byte.to_of_N. assumption.
  - apply Byte.of_N_None_iff in E. lia.
Qed.

Lemma byte_of_N_to_N (b : byte) : byte_of_N (Byte.to_N b) = b.
Proof. unfold byte_of_N. rewrite Byte.of_to_N. reflexivity. Qed.

Lemma to_N_lt (b : byte) : (Byte.to_N b < 256)%N.
Proof. pose proof (Byte.to_N_bounded b). lia. Qed.

Lemma sub_add_byte (x k : byte) : sub_byte (add_byte x k) k = x.
Proof.
  unfold sub_byte, add_byte.
  pose proof (to_N_lt x). pose proof (to_N_lt k).
  rewrite to_N_byte_of_N by (apply N.mod_lt; lia).
  rewrite <- (byte_of_N_to_N x) at 2. f_equal.
  destruct (N.lt_ge_cases (Byte.to_N x + Byte.to_N k) 256) as [Hlt|Hge].
  - rewrite (N.mod_small (Byte.to_N x + Byte.to_N k)) by assumption.
    replace (Byte.to_N x + Byte.to_N k + 256 - Byte.to_N k)%N with (Byte.to_N x + 1 * 256)%N by lia.
    rewrite N.Div0.mod_add. apply N.mod_small. assumption.
  - replace (Byte.to_N x + Byte.to_N k)%N with (Byte.to_N x + Byte.to_N k - 256 + 1 * 256)%N at 1 by lia.
    rewrite N.Div0.mod_add. rewrite (N.mod_small (Byte.to_N x + Byte.to_N k - 256)) by lia.
    replace (Byte.to_N x + Byte.to_N k - 256 + 256 - Byte.to_N k)%N with (Byte.to_N x) by lia.
    apply N.mod_small. assumption.
Qed.

Lemma add_byte_comm (a b : byte) : add_byte a b = add_byte b a.
Proof. unfold add_byte. rewrite N.add_comm. reflexivity. Qed.

Lemma zip_bytes_comm (a b : bytes) : zip_bytes add_byte a b = zip_bytes add_byte b a.
Proof.
  revert b. induction a as [|x a IH]; intros [|y b]; cbn; try reflexivity.
  rewrite add_byte_comm, IH. reflexivity.
Qed.

Lemma zip_bytes_length op (a b : bytes) :
  List.length (zip_bytes op a b) = Nat.min (List.length a) (List.length b).
Proof. revert b. induction a as [|x a IH]; intros [|y b]; cbn; auto. Qed.

Lemma keyed_length op key i m : List.length (keyed op key i m) = List.length m.
Proof. revert i. induction m as [|x m IH]; intros i; cbn; auto. Qed.

Lemma keyed_sub_add key m : forall i, keyed sub_byte key i (keyed add_byte key i m) = m.
Proof.
  induction m as [|x m IH]; intros i; cbn [keyed]; [reflexivity|].
  rewrite sub_add_byte, IH. reflexivity.
Qed.

Lemma tag_length nonce key :
  List.length nonce = 24%nat -> List.length key = 32%nat -> List.length (tag nonce key) = 16%nat.
Proof.
  intros Hn Hk. unfold tag.
  rewrite !zip_bytes_length, !length_firstn, !length_skipn. lia.
Qed.

Lemma toy_secretbox_open_seal m n k c :
  toy_secretbox m n k = Ok c -> toy_secretbox_open (VBin c) n k = Ok m.
Proof.
  unfold toy_secretbox, toy_secretbox_open.
  destruct ((List.length n =? 24)%nat && (List.length k =? 32)%nat) eqn:E; [|discriminate].
  apply andb_true_iff in E as [En Ek]. apply Nat.eqb_eq in En, Ek.
  intros H. injection H as <-.
  pose proof (tag_length n k En Ek) as Ht.
  rewrite length_app, Ht. cbn [Nat.leb].
  rewrite firstn_app, Ht, Nat.sub_diag, firstn_O, app_nil_r.
  rewrite (firstn_all2 (n := 16) (tag n k)) by lia.
  rewrite bytes_eqb_refl. cbn [andb].
  rewrite skipn_app, Ht, Nat.sub_diag, skipn_O.
  rewrite (skipn_all2 (n := 16) (tag n k)) by lia.
  cbn [app]. rewrite keyed_sub_add. reflexivity.
Qed.

Lemma toy_keypair sk pk :
  toy_scalarmult_base sk = Ok pk ->
  List.length sk = 32%nat /\ List.length pk = 32%nat /\ rev pk = sk.
Proof.
  unfold toy_scalarmult_base. destruct (Nat.eqb_spec (List.length sk) 32); [|discriminate].
  intros H. injection H as <-. rewrite length_rev, rev_involutive. auto.
Qed.

Lemma toy_beforenm_keys a A b B :
  toy_scalarmult_base a = Ok A -> toy_scalarmult_base b = Ok B ->
  toy_beforenm (VBin A) b = Ok (zip_bytes add_byte a b).
Proof.
  intros Ha Hb. apply toy_keypair in Ha as (La & LA & Ra), Hb as (Lb & LB & Rb).
  unfold toy_beforenm. rewrite LA, Lb, Ra. reflexivity.
Qed.

Lemma crypto_laws : CryptoLaws crypto.
Proof.
  split; cbn [crypto_secretbox crypto_secretbox_open crypto_box crypto_box_beforenm
              crypto_box_open_afternm crypto_scalarmult_base crypto keypair].
  - apply toy_secretbox_open_seal.
  - intros a A b B Ha Hb. eexists. apply (toy_beforenm_keys a A b B Ha Hb).
  - intros a A b B m n c k Ha Hb Hc Hk. unfold keypair in *. cbn in Ha, Hb.
    rewrite (toy_beforenm_keys a A b B Ha Hb) in Hk. injection Hk as <-.
    unfold toy_box in Hc. rewrite (toy_beforenm_keys b B a A Hb Ha) in Hc. cbn [bind] in Hc.
    rewrite zip_bytes_comm. apply toy_secretbox_open_seal. assumption.
  - intros a A b B m n Ha Hb. unfold keypair in *. cbn in Ha, Hb. unfold toy_box.
    rewrite (toy_beforenm_keys b B a A Hb Ha), (toy_beforenm_keys a A b B Ha Hb).
    rewrite zip_bytes_comm. reflexivity.
Qed.

Lemma len_eq {A} (s : list A) (n : nat) : len s = Z.of_nat n -> List.length s = n.
Proof. unfold len. lia. Qed.

Lemma toy_secretbox_size m n k :
  len n = 24 -> len k = 32 ->
  exists c, toy_secretbox m n k = Ok c /\ len c = 16 + len m.
Proof.
  intros Hn Hk. apply (len_eq n 24) in Hn. apply (len_eq k 32) in Hk.
  unfold toy_secretbox. rewrite Hn, Hk. cbn [Nat.eqb andb]. eexists. split; [reflexivity|].
  unfold len. rewrite length_app, tag_length, keyed_length by assumption. lia.
Qed.

Lemma crypto_sizes : CryptoSizes crypto.
Proof.
  split; cbn [crypto_secretbox crypto_box crypto_scalarmult_base crypto_hash crypto keypair].
  - intros sk Hsk. apply (len_eq sk 32) in Hsk. exists (rev sk).
    unfold keypair. cbn. unfold toy_scalarmult_base. rewrite Hsk. split; [reflexivity|].
    unfold len. rewrite length_rev. lia.
  - apply toy_secretbox_size.
  - intros m n a b B Hn Ha Hb HB. unfold keypair in HB. cbn in HB.
    apply toy_keypair in HB as (Lb & LB & RB). apply (len_eq a 32) in Ha.
    unfold toy_box, toy_beforenm. rewrite LB, Ha. cbn [Nat.eqb andb bind].
    apply toy_secretbox_size; [assumption|].
    unfold len. rewrite zip_bytes_length, length_rev. lia.
  - intros b. eexists. split; [reflexivity|].
    unfold toy_digest, len. rewrite length_map, length_seq. reflexivity.
  - intros key message. cbn [hmac_sha512 crypto].
    unfold toy_digest, len. rewrite length_map, length_seq. reflexivity.
Qed.

End ToyFacts.


Module ToyMsgpack.
Import Toy ToyFacts.

Lemma take_app_exact (a rest : bytes) :
  take (N.of_nat (List.length a)) (a ++ rest) = Ok (a, rest).
Proof.
  unfold take. rewrite length_app.
  destruct (N.leb_spec (N.of_nat (List.length a)) (N.of_nat (List.length a + List.length rest)));
    [|lia].
  rewrite Nat2N.id, firstn_app, Nat.sub_diag, firstn_O, app_nil_r, firstn_all.
  rewrite skipn_app, Nat.sub_diag, skipn_O, skipn_all. reflexivity.
Qed.

Lemma take_Ok n s b rest :
  take n s = Ok (b, rest) -> s = b ++ rest /\ n = N.of_nat (List.length b).
Proof.
  unfold take. destruct (N.leb_spec n (N.of_nat (List.length s))) as [Hn|Hn]; [|discriminate].
  intros H. injection H as <- <-. rewrite firstn_skipn, length_firstn. split; [reflexivity|lia].
Qed.

Lemma N_of_bytes_snoc l x : N_of_bytes (l ++ [x]) = (N_of_bytes l * 256 + Byte.to_N x)%N.
Proof. unfold N_of_bytes. rewrite fold_left_app. reflexivity. Qed.

Lemma N_of_bytes_be_bytes k : forall n,
  (n < 256 ^ N.of_nat k)%N -> N_of_bytes (be_bytes k n) = n.
Proof.
  induction k as [|k IH]; intros n H.
  - cbn in H. cbn. lia.
  - cbn [be_bytes]. rewrite N_of_bytes_snoc.
    rewrite Nat2N.inj_succ, N.pow_succ_r' in H.
    rewrite IH by (apply N.Div0.div_lt_upper_bound; assumption).
    rewrite to_N_byte_of_N by (apply N.mod_lt; lia).
    pose proof (N.Div0.div_mod n 256). lia.
Qed.

Lemma take_N_be_bytes k n rest :
  (n < 256 ^ N.of_nat k)%N ->
  take_N (N.of_nat k) (be_bytes k n ++ rest) = Ok (n, rest).
Proof.
  intros H. unfold take_N.
  rewrite <- (be_bytes_length k n) at 1. rewrite take_app_exact. cbn [bind].
  rewrite N_of_bytes_be_bytes by assumption. reflexivity.
Qed.

Lemma unpack_fuel_cons fuel c s :
  unpack_fuel (S fuel) (c :: s) = unpack_body (unpack_items fuel) c s.
Proof. reflexivity. Qed.

Lemma unpack_items_0 fuel s : unpack_items fuel 0 s = Ok ([], s).
Proof. destruct fuel; reflexivity. Qed.

Lemma unpack_items_succ fuel n s :
  unpack_items (S fuel) (N.succ n) s =
  ('(v, s) <- unpack_fuel fuel s ;;
   '(vs, s) <- unpack_items fuel n s ;;
   Ok (v :: vs, s)).
Proof.
  cbn [unpack_items]. destruct (N.eqb_spec (N.succ n) 0); [lia|].
  rewrite N.sub_1_r, N.pred_succ. reflexivity.
Qed.

Lemma unpack_bin_app (b rest : bytes) :
  unpack_bin (N.of_nat (List.length b)) (b ++ rest) = Ok (VBin b, rest).
Proof. unfold unpack_bin. rewrite take_app_exact. reflexivity. Qed.

(** Reading back a bin header and its payload. *)
Lemma unpack_body_bin items (b rest : bytes) :
  len b < 2 ^ 32 ->
  match bin_header (N.of_nat (List.length b)) ++ b ++ rest with
  | c :: s => unpack_body items c s = Ok (VBin b, rest)
  | [] => False
  end.
Proof.
  intros H. unfold bin_header. set (n := N.of_nat (List.length b)).
  assert (Hn : (n < 2 ^ 32)%N) by (unfold len in H; subst n; lia).
  destruct (N.ltb_spec n (2 ^ 8)); [|destruct (N.ltb_spec n (2 ^ 16))]; cbn [app].
  - change (unpack_body items xc4 (be_bytes 1 n ++ b ++ rest))
      with ('(m, s) <- take_N (N.of_nat 1) (be_bytes 1 n ++ b ++ rest) ;; unpack_bin m s).
    rewrite take_N_be_bytes by (cbn; lia). cbn [bind]. apply unpack_bin_app.
  - change (unpack_body items xc5 (be_bytes 2 n ++ b ++ rest))
      with ('(m, s) <- take_N (N.of_nat 2) (be_bytes 2 n ++ b ++ rest) ;; unpack_bin m s).
    rewrite take_N_be_bytes by (cbn; lia). cbn [bind]. apply unpack_bin_app.
  - change (unpack_body items xc6 (be_bytes 4 n ++ b ++ rest))
      with ('(m, s) <- take_N (N.of_nat 4) (be_bytes 4 n ++ b ++ rest) ;; unpack_bin m s).
    rewrite take_N_be_bytes by (cbn; lia). cbn [bind]. apply unpack_bin_app.
Qed.

(** Reading back an array header: the items follow. *)
Lemma unpack_body_array items (n : N) (s : bytes) :
  (n < 2 ^ 32)%N ->
  match array_header n ++ s with
  | c :: s' => unpack_body items c s' = ('(vs, s) <- items n s ;; Ok (VArray vs, s))
  | [] => False
  end.
Proof.
  intros Hn. unfold array_header.
  destruct (N.ltb_spec n 16); [|destruct (N.ltb_spec n (2 ^ 16))]; cbn [app].
  - unfold unpack_body. rewrite to_N_byte_of_N by lia.
    destruct (N.ltb_spec (144 + n) 128); [lia|].
    destruct (N.ltb_spec (144 + n) 144); [lia|].
    destruct (N.ltb_spec (144 + n) 160); [|lia].
    replace (144 + n - 144)%N with n by lia. reflexivity.
  - change (unpack_body items xdc (be_bytes 2 n ++ s))
      with ('(m, s) <- take_N (N.of_nat 2) (be_bytes 2 n ++ s) ;;
            '(vs, s) <- items m s ;; Ok (VArray vs, s)).
    rewrite take_N_be_bytes by (cbn; lia). reflexivity.
  - change (unpack_body items xdd (be_bytes 4 n ++ s))
      with ('(m, s) <- take_N (N.of_nat 4) (be_bytes 4 n ++ s) ;;
            '(vs, s) <- items m s ;; Ok (VArray vs, s)).
    rewrite take_N_be_bytes by (cbn; lia). reflexivity.
Qed.

Lemma bin_header_length n : (1 <= List.length (bin_header n))%nat.
Proof. unfold bin_header. destruct (n <? 2 ^ 8)%N; [|destruct (n <? 2 ^ 16)%N]; cbn; lia. Qed.

Lemma array_header_length n : (1 <= List.length (array_header n))%nat.
Proof. unfold array_header. destruct (n <? 16)%N; [|destruct (n <? 2 ^ 16)%N]; cbn; lia. Qed.

Lemma forallb_ascii_bytes (s : list N) :
  forallb (fun c => (c <? 128)%N) s = true ->
  forallb (fun x => (Byte.to_N x <? 128)%N) (map byte_of_N s) = true /\
  map Byte.to_N (map byte_of_N s) = s.
Proof.
  induction s as [|c s IH]; cbn [forallb map]; [auto|].
  intros H. apply andb_true_iff in H as [Hc Hs]. apply N.ltb_lt in Hc.
  destruct (IH Hs) as [H1 H2]. rewrite to_N_byte_of_N by lia.
  rewrite H1, H2. split; [|reflexivity]. apply andb_true_iff. split; [apply N.ltb_lt; lia|reflexivity].
Qed.

Lemma toy_packb_VInt z :
  toy_packb (VInt z) =
  if (0 <=? z) && (z <? 128) then Ok [byte_of_N (Z.to_N z)] else unsupported.
Proof. reflexivity. Qed.

Lemma toy_packb_VStr s :
  toy_packb (VStr s) =
  if (len s <? 32) && forallb (fun c => (c <? 128)%N) s
  then Ok (byte_of_N (160 + N.of_nat (List.length s)) :: map byte_of_N s)
  else unsupported.
Proof. reflexivity. Qed.

Lemma toy_packb_VBin b :
  toy_packb (VBin b) =
  if len b <? 2 ^ 32 then Ok (bin_header (N.of_nat (List.length b)) ++ b) else unsupported.
Proof. reflexivity. Qed.

Lemma toy_packb_VArray l :
  toy_packb (VArray l) =
  if len l <? 2 ^ 32
  then items <- pack_all toy_packb l ;; Ok (array_header (N.of_nat (List.length l)) ++ items)
  else unsupported.
Proof. reflexivity. Qed.

Lemma toy_packb_nonempty v b : toy_packb v = Ok b -> (1 <= List.length b)%nat.
Proof.
  destruct v as [|[|]|z|f|s|x|l|kvs|t d]; intros H; try discriminate.
  1-3: injection H as <-; cbn [List.length]; lia.
  - rewrite toy_packb_VInt in H.
    destruct ((0 <=? z) && (z <? 128)); [injection H as <-; cbn [List.length]; lia|discriminate].
  - rewrite toy_packb_VStr in H.
    destruct ((len s <? 32) && forallb (fun c => (c <? 128)%N) s);
      [injection H as <-; cbn [List.length]; lia|discriminate].
  - rewrite toy_packb_VBin in H.
    destruct (len x <? 2 ^ 32); [injection H as <-|discriminate].
    rewrite length_app. pose proof (bin_header_length (N.of_nat (List.length x))). lia.
  - rewrite toy_packb_VArray in H.
    destruct (len l <? 2 ^ 32); [|discriminate]. inv_bind H as items E. injection H as <-.
    rewrite length_app. pose proof (array_header_length (N.of_nat (List.length l))). lia.
Qed.

(** [unpack_fuel] reads back what [toy_packb] wrote, given fuel for twice the
    bytes written. *)
Lemma unpack_fuel_packb : forall v,
  plain v = true -> forall b, toy_packb v = Ok b ->
  forall fuel rest, (2 * List.length b <= S fuel)%nat ->
  unpack_fuel fuel (b ++ rest) = Ok (v, rest).
Proof.
  induction v as [|bo|z|f|s|x|l IH|kvs|t d] using value_ind_items;
    intros Hp b Hb fuel rest Hfuel; try discriminate;
    pose proof (toy_packb_nonempty _ _ Hb) as Hne;
    (destruct fuel as [|fuel]; [lia|]).
  - injection Hb as <-. reflexivity.
  - destruct bo; injection Hb as <-; reflexivity.
  - rewrite toy_packb_VInt in Hb. destruct ((0 <=? z) && (z <? 128)) eqn:E; [apply Ok_inj in Hb; subst b|discriminate].
    apply andb_true_iff in E as [E1 E2]. apply Z.leb_le in E1. apply Z.ltb_lt in E2.
    cbn [app]. rewrite unpack_fuel_cons. unfold unpack_body.
    rewrite to_N_byte_of_N by lia.
    destruct (N.ltb_spec (Z.to_N z) 128); [|lia]. rewrite Z2N.id by lia. reflexivity.
  - rewrite toy_packb_VStr in Hb.
    destruct ((len s <? 32) && forallb (fun c => (c <? 128)%N) s) eqn:E;
      [apply Ok_inj in Hb; subst b|discriminate].
    apply andb_true_iff in E as [E1 E2]. apply Z.ltb_lt in E1. unfold len in E1.
    cbn [app]. rewrite unpack_fuel_cons. unfold unpack_body.
    rewrite to_N_byte_of_N by lia.
    set (n := N.of_nat (List.length s)) in *.
    destruct (N.ltb_spec (160 + n) 128); [lia|].
    destruct (N.ltb_spec (160 + n) 144); [lia|].
    destruct (N.ltb_spec (160 + n) 160); [lia|].
    destruct (N.ltb_spec (160 + n) 192); [|lia].
    replace (160 + n - 160)%N with n by lia. unfold unpack_str. subst n.
    rewrite <- (length_map byte_of_N s). rewrite take_app_exact. cbn [bind].
    destruct (forallb_ascii_bytes s E2) as [-> ->]. reflexivity.
  - rewrite toy_packb_VBin in Hb.
    destruct (Z.ltb_spec (len x) (2 ^ 32)); [apply Ok_inj in Hb; subst b|discriminate].
    rewrite <- app_assoc.
    pose proof (unpack_body_bin (unpack_items fuel) x rest H) as Hx.
    destruct (bin_header (N.of_nat (List.length x)) ++ x ++ rest); [contradiction|].
    rewrite unpack_fuel_cons. exact Hx.
  - rewrite toy_packb_VArray in Hb.
    destruct (Z.ltb_spec (len l) (2 ^ 32)); [|discriminate].
    inv_bind Hb as items Ei. apply Ok_inj in Hb; subst b.
    rewrite <- app_assoc.
    pose proof (unpack_body_array (unpack_items fuel) (N.of_nat (List.length l)) (items ++ rest)
                  ltac:(unfold len in *; lia)) as Hx.
    pose proof (array_header_length (N.of_nat (List.length l))) as Hh.
    rewrite length_app in Hfuel.
    destruct (array_header (N.of_nat (List.length l)) ++ items ++ rest); [contradiction|].
    rewrite unpack_fuel_cons, Hx. clear Hx.
    cbn [plain] in Hp.
    assert (Hitems : forall fuel', (2 * List.length items <= fuel')%nat ->
              unpack_items fuel' (N.of_nat (List.length l)) (items ++ rest) = Ok (l, rest)).
    { clear - IH Hp Ei. revert items Ei.
      induction IH as [|v l Hv Hl IHl]; intros items Ei fuel' Hf.
      - injection Ei as <-. apply unpack_items_0.
      - cbn [pack_all] in Ei. inv_bind Ei as bv Ev. inv_bind Ei as bs Es. injection Ei as <-.
        cbn [forallb] in Hp. apply andb_true_iff in Hp as [Hpv Hpl].
        pose proof (toy_packb_nonempty _ _ Ev) as Hne.
        rewrite length_app in Hf.
        destruct fuel' as [|fuel']; [lia|].
        cbn [List.length]. rewrite Nat2N.inj_succ, unpack_items_succ.
        rewrite <- app_assoc.
        rewrite (Hv Hpv bv Ev fuel' (bs ++ rest)) by lia. cbn [bind].
        rewrite (IHl Hpl bs Es fuel') by lia. reflexivity. }
    rewrite Hitems by lia. reflexivity.
Qed.


Lemma toy_unpack_inverts_packb : unpack_inverts_packb msgpack.
Proof.
  intros v b rest Hp Hb. cbn [packb unpack msgpack] in *. unfold toy_unpack.
  apply unpack_fuel_packb; [assumption|assumption|]. rewrite length_app. lia.
Qed.

Lemma extends_ret {A : Type} (a : A) : extends (fun s => Ok (a, s)) (fun s => Ok (a, s)).
Proof. intros s a' rest H. injection H as <- <-. auto. Qed.

Lemma extends_fail {A : Type} (e : exn) (r' : bytes -> res (A * bytes)) :
  extends (fun _ => Raise e) r'.
Proof. intros s a rest H. discriminate. Qed.

Lemma extends_bind {A B : Type} (r r' : bytes -> res (A * bytes))
    (k k' : A -> bytes -> res (B * bytes)) :
  extends r r' -> (forall a, extends (k a) (k' a)) ->
  extends (fun s => '(a, s) <- r s ;; k a s) (fun s => '(a, s) <- r' s ;; k' a s).
Proof.
  intros Hr Hk s b rest H. inv_bind H as x E. destruct x as [a s1].
  destruct (Hr _ _ _ E) as [L1 E1]. destruct (Hk a _ _ _ H) as [L2 E2].
  split; [lia|]. intros t. rewrite E1. cbn [bind]. apply E2.
Qed.

Lemma extends_take n : extends (take n) (take n).
Proof.
  intros s b rest H. apply take_Ok in H as [-> ->].
  split; [rewrite length_app; lia|].
  intros t. rewrite <- app_assoc. apply take_app_exact.
Qed.

Lemma extends_take_N w : extends (take_N w) (take_N w).
Proof.
  unfold take_N. apply (extends_bind (take w) (take w)); [apply extends_take|].
  intros a. apply extends_ret.
Qed.

Lemma extends_unpack_bin n : extends (unpack_bin n) (unpack_bin n).
Proof.
  unfold unpack_bin. apply (extends_bind (take n) (take n)); [apply extends_take|].
  intros a. apply extends_ret.
Qed.

Lemma extends_unpack_str n : extends (unpack_str n) (unpack_str n).
Proof.
  unfold unpack_str. apply (extends_bind (take n) (take n)); [apply extends_take|].
  intros a. destruct (forallb _ a); [apply extends_ret|apply extends_fail].
Qed.

Lemma extends_unpack_body items items' c :
  (forall n, extends (items n) (items' n)) ->
  extends (unpack_body items c) (unpack_body items' c).
Proof.
  intros Hi. unfold unpack_body.
  assert (Ha : forall n, extends (fun s => '(vs, s) <- items n s ;; Ok (VArray vs, s))
                                 (fun s => '(vs, s) <- items' n s ;; Ok (VArray vs, s))).
  { intros n. apply (extends_bind (items n) (items' n)); [apply Hi|].
    intros a. apply (extends_ret (VArray a)). }
  cbv zeta.
  repeat match goal with
         | |- extends (fun s => if ?c then _ else _) _ => destruct c
         | |- extends (if ?c then _ else _) _ => destruct c
         end;
    first [ apply extends_ret
          | apply extends_fail
          | apply Ha
          | apply extends_unpack_str
          | apply (extends_bind (take_N _) (take_N _));
            [apply extends_take_N|intros ?; first [apply extends_unpack_bin|apply Ha]] ].
Qed.

Lemma extends_unpack_fuel fuel :
  (forall fuel', (fuel <= fuel')%nat -> extends (unpack_fuel fuel) (unpack_fuel fuel')) /\
  (forall n fuel', (fuel <= fuel')%nat -> extends (unpack_items fuel n) (unpack_items fuel' n)).
Proof.
  induction fuel as [|fuel [IHu IHi]].
  - split.
    + intros fuel' _ s a rest H. discriminate.
    + intros n fuel' _ s a rest H. cbn [unpack_items] in H.
      destruct (N.eqb_spec n 0) as [->|]; [|discriminate].
      injection H as <- <-. split; [lia|]. intros t. apply unpack_items_0.
  - split.
    + intros fuel' Hf s a rest H. destruct fuel' as [|fuel']; [lia|].
      destruct s as [|c s]; [discriminate|]. rewrite unpack_fuel_cons in H.
      destruct (extends_unpack_body (unpack_items fuel) (unpack_items fuel') c
                  (fun n => IHi n fuel' ltac:(lia)) _ _ _ H) as [L E].
      split; [cbn [List.length]; lia|]. intros t. cbn [app]. rewrite unpack_fuel_cons. apply E.
    + intros n fuel' Hf s a rest H. destruct fuel' as [|fuel']; [lia|].
      cbn [unpack_items] in H |- *. destruct (N.eqb_spec n 0) as [->|Hn].
      * injection H as <- <-. split; [lia|]. intros t. reflexivity.
      * revert s a rest H.
        change (extends (fun s => '(v, s) <- unpack_fuel fuel s ;;
                                  '(vs, s) <- unpack_items fuel (n - 1) s ;; Ok (v :: vs, s))
                        (fun s => '(v, s) <- unpack_fuel fuel' s ;;
                                  '(vs, s) <- unpack_items fuel' (n - 1) s ;; Ok (v :: vs, s))).
        apply (extends_bind (unpack_fuel fuel) (unpack_fuel fuel')); [apply IHu; lia|].
        intros v. apply (extends_bind (unpack_items fuel (n - 1)) (unpack_items fuel' (n - 1)));
          [apply IHi; lia|].
        intros vs. apply (extends_ret (v :: vs)).
Qed.

Lemma toy_unpack_reads_prefix : unpack_reads_prefix msgpack.
Proof.
  intros s v rest t H. cbn [unpack msgpack] in *. unfold toy_unpack in *.
  apply (proj1 (extends_unpack_fuel (2 * List.length s)) (2 * List.length (s ++ t))%nat);
    [rewrite length_app; lia|assumption].
Qed.

Lemma toy_unpack_consumes : unpack_consumes msgpack.
Proof.
  intros s v rest H. cbn [unpack msgpack] in *. unfold toy_unpack in *.
  destruct (2 * List.length s)%nat as [|fuel]; [discriminate|].
  destruct s as [|c s]; [discriminate|]. rewrite unpack_fuel_cons in H.
  destruct (extends_unpack_body (unpack_items fuel) (unpack_items fuel) c
              (fun n => proj2 (extends_unpack_fuel fuel) n fuel (Nat.le_refl _)) _ _ _ H) as [L _].
  cbn [List.length]. lia.
Qed.

Lemma msgpack_laws : UmsgpackLaws msgpack.
Proof. split; [apply toy_unpack_inverts_packb|apply toy_unpack_consumes]. Qed.


Lemma bin_header_size_length (b : bytes) :
  len (bin_header (N.of_nat (List.length b))) = bin_header_size (len b).
Proof.
  unfold bin_header, bin_header_size, len.
  destruct (N.ltb_spec (N.of_nat (List.length b)) (2 ^ 8));
    destruct (Z.ltb_spec (Z.of_nat (List.length b)) (2 ^ 8)); try lia; [reflexivity|].
  destruct (N.ltb_spec (N.of_nat (List.length b)) (2 ^ 16));
    destruct (Z.ltb_spec (Z.of_nat (List.length b)) (2 ^ 16)); try lia; reflexivity.
Qed.

Lemma array_header_size_length (l : list value) :
  len (array_header (N.of_nat (List.length l))) = array_header_size (len l).
Proof.
  unfold array_header, array_header_size, len.
  destruct (N.ltb_spec (N.of_nat (List.length l)) 16);
    destruct (Z.ltb_spec (Z.of_nat (List.length l)) 16); try lia; [reflexivity|].
  destruct (N.ltb_spec (N.of_nat (List.length l)) (2 ^ 16));
    destruct (Z.ltb_spec (Z.of_nat (List.length l)) (2 ^ 16)); try lia; reflexivity.
Qed.

Lemma toy_packb_wire : forall v,
  wire_value v = true -> exists b, toy_packb v = Ok b /\ len b = msgpack_size v.
Proof.
  induction v as [|bo|z|f|s|x|l IH|kvs|t d] using value_ind_items; intros Hw;
    try discriminate.
  - eexists. split; reflexivity.
  - destruct bo; eexists; split; reflexivity.
  - rewrite toy_packb_VInt. cbn [wire_value] in Hw. rewrite Hw. eexists. split; reflexivity.
  - rewrite toy_packb_VStr. cbn [wire_value] in Hw. rewrite Hw. eexists. split; [reflexivity|].
    cbn [msgpack_size]. unfold len. cbn [List.length]. rewrite length_map. lia.
  - rewrite toy_packb_VBin. cbn [wire_value] in Hw. rewrite Hw. eexists. split; [reflexivity|].
    cbn [msgpack_size]. rewrite len_app, bin_header_size_length. reflexivity.
  - rewrite toy_packb_VArray. cbn [wire_value] in Hw.
    apply andb_true_iff in Hw as [Hl Hw]. rewrite Hl.
    assert (Hitems : exists items, pack_all toy_packb l = Ok items /\
              len items = fold_right (fun x acc => msgpack_size x + acc) 0 l).
    { clear Hl. induction IH as [|v l Hv _ IHl].
      - exists []. split; reflexivity.
      - cbn [forallb] in Hw. apply andb_true_iff in Hw as [Hwv Hwl].
        destruct (Hv Hwv) as (bv & Ev & Lv). destruct (IHl Hwl) as (bs & Es & Ls).
        exists (bv ++ bs). cbn [pack_all]. rewrite Ev, Es. split; [reflexivity|].
        cbn [fold_right]. rewrite len_app. lia. }
    destruct Hitems as (items & Ei & Li). rewrite Ei. cbn [bind].
    eexists. split; [reflexivity|].
    cbn [msgpack_size]. rewrite len_app, array_header_size_length. lia.
Qed.

Lemma msgpack_format : UmsgpackFormat msgpack.
Proof.
  split.
  - intros v Hw. destruct (toy_packb_wire v Hw) as (b & Hb & _). exists b. exact Hb.
  - intros v b Hw Hb. destruct (toy_packb_wire v Hw) as (b' & Hb' & L).
    cbn [packb msgpack] in Hb. rewrite Hb in Hb'. apply Ok_inj in Hb'. subst b'. exact L.
Qed.

End ToyMsgpack.

(** The toy instance always returns or raises. *)
Module ToyReturns.
Import Toy.

Lemma toy_secretbox_returns m n k : toy_secretbox m n k <> Diverge.
Proof. unfold toy_secretbox. destruct (_ && _); discriminate. Qed.

Lemma toy_secretbox_open_returns c n k : toy_secretbox_open c n k <> Diverge.
Proof.
  unfold toy_secretbox_open. destruct c; try discriminate.
  destruct (_ && _); [|discriminate]. destruct (_ && _); discriminate.
Qed.

Lemma toy_beforenm_returns pk sk : toy_beforenm pk sk <> Diverge.
Proof.
  unfold toy_beforenm. destruct pk; try discriminate. destruct (_ && _); discriminate.
Qed.

Lemma crypto_returns : CryptoReturns crypto.
Proof.
  split; cbn.
  - apply toy_secretbox_open_returns.
  - intros m n pk sk. unfold toy_box.
    destruct (toy_beforenm pk sk) eqn:E; cbn; [apply toy_secretbox_returns|discriminate|].
    exfalso. exact (toy_beforenm_returns _ _ E).
  - apply toy_beforenm_returns.
  - apply toy_secretbox_open_returns.
  - intros v. unfold toy_hash. destruct v; discriminate.
Qed.

Lemma take_returns n s : take n s <> Diverge.
Proof. unfold take, insufficient. destruct (_ <=? _)%N; discriminate. Qed.

Lemma take_N_returns w s : take_N w s <> Diverge.
Proof.
  unfold take_N. destruct (take w s) as [[b r]| |] eqn:E; cbn; try discriminate.
  exfalso. exact (take_returns _ _ E).
Qed.

Lemma unpack_bin_returns n s : unpack_bin n s <> Diverge.
Proof.
  unfold unpack_bin. destruct (take n s) as [[b r]| |] eqn:E; cbn; try discriminate.
  exfalso. exact (take_returns _ _ E).
Qed.

Lemma unpack_str_returns n s : unpack_str n s <> Diverge.
Proof.
  unfold unpack_str, unsupported. destruct (take n s) as [[b r]| |] eqn:E; cbn; try discriminate.
  - destruct (forallb _ _); discriminate.
  - exfalso. exact (take_returns _ _ E).
Qed.

Lemma unpack_body_returns items c s :
  (forall n s, items n s <> Diverge) -> unpack_body items c s <> Diverge.
Proof.
  intros Hitems.
  assert (Harr : forall n s, ('(vs, s) <- items n s ;; Ok (VArray vs, s)) <> Diverge).
  { intros n t. destruct (items n t) as [[vs r]| |] eqn:E; cbn; try discriminate.
    exfalso. exact (Hitems _ _ E). }
  assert (Hbin : forall w s, ('(n, s) <- take_N w s ;; unpack_bin n s) <> Diverge).
  { intros w t. destruct (take_N w t) as [[n r]| |] eqn:E; cbn; try discriminate.
    - apply unpack_bin_returns.
    - exfalso. exact (take_N_returns _ _ E). }
  assert (Harr' : forall w s,
            ('(n, s) <- take_N w s ;; '(vs, s) <- items n s ;; Ok (VArray vs, s)) <> Diverge).
  { intros w t. destruct (take_N w t) as [[n r]| |] eqn:E; cbn; try discriminate.
    - apply Harr.
    - exfalso. exact (take_N_returns _ _ E). }
  unfold unpack_body, unsupported.
  repeat match goal with
         | |- (if ?c then _ else _) <> Diverge => destruct c
         end;
    try discriminate; auto using unpack_str_returns.
Qed.

Lemma unpack_fuel_returns fuel :
  (forall s, unpack_fuel fuel s <> Diverge) /\
  (forall n s, unpack_items fuel n s <> Diverge).
Proof.
  induction fuel as [|fuel [IHu IHi]].
  - split.
    + intros s. cbn. discriminate.
    + intros n s. cbn. unfold insufficient. destruct (n =? 0)%N; discriminate.
  - assert (Hi : forall n s, unpack_items (S fuel) n s <> Diverge).
    { intros n s. cbn [unpack_items]. destruct (n =? 0)%N; [discriminate|].
      destruct (unpack_fuel fuel s) as [[v r]| |] eqn:Eu; cbn [bind]; try discriminate.
      - destruct (unpack_items fuel (n - 1) r) as [[vs r']| |] eqn:Ei; cbn [bind];
          try discriminate.
        exfalso. exact (IHi _ _ Ei).
      - exfalso. exact (IHu _ Eu). }
    split; [|exact Hi].
    intros s. cbn [unpack_fuel]. destruct s as [|c s]; [discriminate|].
    apply unpack_body_returns. exact IHi.
Qed.

Lemma toy_unpack_returns : unpack_returns msgpack.
Proof. intros s. cbn. unfold toy_unpack. apply unpack_fuel_returns. Qed.

End ToyReturns.



(** ** Trailing bytes *)

Section Trailing.

Context {M : Umsgpack} {C : Crypto}.
Hypothesis HP : unpack_reads_prefix M.

Lemma decrypt_packets_trailing fuel : forall major_version header_hash mac_key payload_key
    recipient_index stream output chunknum message,
  decrypt_packets fuel major_version header_hash mac_key payload_key recipient_index
    stream output chunknum = Ok message ->
  forall fuel' trailing, (fuel <= fuel')%nat ->
  decrypt_packets fuel' major_version header_hash mac_key payload_key recipient_index
    (stream ++ trailing) output chunknum = Ok message.
Proof.
  induction fuel as [|fuel IH]; intros mv hh mk pk idx stream output n message H fuel' t Hf;
    [discriminate|].
  destruct fuel' as [|fuel']; [lia|].
  cbn [decrypt_packets] in H |- *.
  inv_bind H as x E. destruct x as [packet stream'].
  rewrite (HP _ _ _ t E). cbn [bind].
  inv_bind H as y E'. destruct y as [chunk stop]. rewrite E'. cbn [bind].
  destruct stop; [exact H|]. apply IH; [exact H|lia].
Qed.

Lemma parse_header_trailing input recipient_private h trailing :
  parse_header input recipient_private = Ok h ->
  parse_header (input ++ trailing) recipient_private =
  Ok {| hdr_hash := hdr_hash h;
        hdr_format_name := hdr_format_name h;
        hdr_major_version := hdr_major_version h;
        hdr_minor_version := hdr_minor_version h;
        hdr_mode := hdr_mode h;
        hdr_ephemeral_public := hdr_ephemeral_public h;
        hdr_sender_secretbox := hdr_sender_secretbox h;
        hdr_recipient_pairs := hdr_recipient_pairs h;
        hdr_ephemeral_beforenm := hdr_ephemeral_beforenm h;
        hdr_stream := hdr_stream h ++ trailing |}.
Proof.
  unfold parse_header. intros H.
  inv_bind H as x E. destruct x as [header_bytes stream].
  rewrite (HP _ _ _ trailing E). cbn [bind].
  inv_bind H as header_hash Eh. rewrite Eh. cbn [bind].
  inv_bind H as header Eu. rewrite Eu. cbn [bind].
  inv_bind H as u Ej. rewrite Ej. cbn [bind].
  inv_bind H as items Ei. rewrite Ei. cbn [bind].
  inv_bind H as version Ev. rewrite Ev. cbn [bind].
  inv_bind H as k Ek. rewrite Ek. cbn [bind].
  apply Ok_inj in H. subst h. reflexivity.
Qed.

End Trailing.



(** ** Errors of [decrypt] *)

Lemma find_recipient_none {C : Crypto} major_version ephemeral_beforenm pairs : forall i0,
  (forall i slot, nth_error pairs i = Some slot ->
     slot_fails major_version ephemeral_beforenm (i0 + i) slot) ->
  find_recipient major_version ephemeral_beforenm i0 pairs = Raise no_matching_recipient.
Proof.
  induction pairs as [|slot pairs IH]; intros i0 H; [reflexivity|].
  cbn [find_recipient].
  destruct (H 0%nat slot eq_refl) as (items & n & Hitems & Hn & Hopen).
  rewrite Nat.add_0_r in Hn. rewrite Hitems. cbn [bind]. rewrite Hn. cbn [bind].
  rewrite Hopen. cbn [bind except_CryptoError].
  apply IH. intros i slot' Hi. replace (S i0 + i)%nat with (i0 + S i)%nat by lia.
  apply H. exact Hi.
Qed.

Lemma decrypt_after_parse {M : Umsgpack} {C : Crypto} input recipient_private h :
  parse_header input recipient_private = Ok h ->
  decrypt input recipient_private =
  (_ <- check_header (hdr_format_name h) (hdr_major_version h) (hdr_mode h) ;;
   decrypt_checked recipient_private (hdr_hash h) (hdr_major_version h)
     (hdr_ephemeral_public h) (hdr_sender_secretbox h) (hdr_recipient_pairs h)
     (hdr_ephemeral_beforenm h) (hdr_stream h)).
Proof. intros H. unfold decrypt. rewrite H. reflexivity. Qed.



Lemma decrypt_packet_stop {M : Umsgpack} {C : Crypto} major_version header_hash mac_key
    payload_key recipient_index packet chunknum items chunk stop :
  py_eq_int major_version 1 = false ->
  unpack_at_least 3 packet = Ok items ->
  decrypt_packet major_version header_hash mac_key payload_key recipient_index
    packet chunknum = Ok (chunk, stop) ->
  stop = is_empty chunk || py_truthy (nth 0 items VNil).
Proof.
  intros Hv Hi H. unfold decrypt_packet in H. rewrite Hv, Hi in H.
  inv_bind H as u Ej. cbn [bind] in H.
  inv_bind H as ha Eh. inv_bind H as nb En. inv_bind H as th Et. inv_bind H as ph Ep.
  inv_bind H as eq Ec. destruct (negb eq); [discriminate|].
  inv_bind H as c Eo. injection H as -> <-. reflexivity.
Qed.



(** ** MAC keys *)

Lemma py_slice_to {A : Type} (s : list A) (k : Z) :
  0 <= k -> py_slice s None (Some k) = firstn (Z.to_nat k) s.
Proof.
  intros Hk. unfold py_slice, slice_bound.
  destruct (Z.ltb_spec k 0); [lia|]. rewrite Z.sub_0_r. cbn [Z.to_nat skipn].
  destruct (Z.le_gt_cases k (len s)).
  - rewrite Z.min_l by lia. reflexivity.
  - rewrite Z.min_r by lia. unfold len in *. rewrite !firstn_all2 by lia. reflexivity.
Qed.

Lemma py_slice_16_48 (b : bytes) :
  py_slice b (Some 16) (Some 48) = firstn 32 (skipn 16 b).
Proof.
  rewrite py_slice_nonneg by lia. unfold len.
  destruct (Nat.le_gt_cases 48 (List.length b)).
  - rewrite !Z.min_l by lia. reflexivity.
  - destruct (Nat.le_gt_cases 16 (List.length b)).
    + rewrite Z.min_r, Z.min_l by lia. change (Z.to_nat 16) with 16%nat.
      rewrite !firstn_all2 by (rewrite length_skipn; lia). reflexivity.
    + rewrite !Z.min_r by lia. rewrite Z.sub_diag. cbn [Z.to_nat firstn].
      rewrite (skipn_all2 (n := 16)) by lia. reflexivity.
Qed.

Lemma py_slice_last (n : nat) (b : bytes) :
  (0 < n)%nat -> py_slice b (Some (- Z.of_nat n)) None = last_bytes n b.
Proof.
  intros Hn. unfold py_slice, slice_bound, last_bytes, len.
  destruct (Z.ltb_spec (- Z.of_nat n) 0); [|lia].
  replace (Z.to_nat (Z.max (- Z.of_nat n + Z.of_nat (List.length b)) 0))
    with (List.length b - n)%nat by lia.
  apply firstn_all2. rewrite length_skipn. lia.
Qed.

Lemma byte_and_254 (x : byte) : byte_and 254 x = byte_of_N (N.clearbit (Byte.to_N x) 0).
Proof. destruct x; reflexivity. Qed.

Lemma byte_or_1 (x : byte) : byte_or 1 x = byte_of_N (N.setbit (Byte.to_N x) 0).
Proof. destruct x; reflexivity. Qed.

Lemma update_byte15_16 (f : byte -> byte) (h : bytes) :
  List.length h = 16%nat ->
  update_byte15 f h = Ok (firstn 15 h ++ [f (nth 15 h x00)]).
Proof.
  intros L. unfold update_byte15.
  destruct (nth_error h 15) as [x|] eqn:E.
  - rewrite (nth_error_nth _ _ x00 E). rewrite (skipn_all2 (n := 16)) by lia. reflexivity.
  - apply nth_error_None in E. lia.
Qed.

Lemma to_bytes_u64be (i : nat) : (N.of_nat i < 2 ^ 64)%N -> to_bytes i 8 = Ok (u64be i).
Proof.
  intros H. unfold to_bytes, u64be.
  destruct (N.ltb_spec (N.of_nat i) (256 ^ N.of_nat 8)) as [_|H']; [reflexivity|].
  change (256 ^ N.of_nat 8)%N with (2 ^ 64)%N in H'. lia.
Qed.

Section MacKeys.

Context {C : Crypto}.
Hypothesis CL : CryptoLaws C.
Variables (sender_private sender_public ephemeral_private ephemeral_public : bytes).
Variables (recipient_private recipient_public header_hash : bytes).
Hypothesis sender_keys : keypair C sender_private sender_public.
Hypothesis ephemeral_keys : keypair C ephemeral_private ephemeral_public.
Hypothesis recipient_keys : keypair C recipient_private recipient_public.

(** [decrypt] derives the MAC key as [encrypt] does, failures included. *)
Lemma decrypt_mac_key_eq (major_version : Z) (i : nat) :
  decrypt_mac_key recipient_private header_hash (VInt major_version) i sender_public
    (VBin ephemeral_public)
  = recipient_mac_key sender_private ephemeral_private header_hash major_version i
      recipient_public.
Proof.
  unfold recipient_mac_key, decrypt_mac_key. cbn [py_eq_int].
  assert (Hs : forall a A b B n, keypair C a A -> keypair C b B ->
            crypto_box zero32 n (VBin B) a = crypto_box zero32 n (VBin A) b)
    by (intros; apply (law_box_symmetric _ CL); assumption).
  destruct (major_version =? 1).
  { rewrite (Hs recipient_private recipient_public _ _ _ recipient_keys sender_keys).
    reflexivity. }
  destruct (update_byte15 (byte_and 254) (py_slice header_hash None (Some 16)))
    as [base| |] eqn:Eb; cbn [bind]; [|reflexivity|reflexivity].
  destruct (to_bytes i 8) as [ib| |]; cbn [bind]; [|reflexivity|reflexivity].
  rewrite (Hs recipient_private recipient_public _ _ _ recipient_keys sender_keys).
  destruct (crypto_box zero32 (base ++ ib) (VBin recipient_public) sender_private);
    cbn [bind]; [|reflexivity|reflexivity].
  rewrite (update_byte15_twice _ _ _ _ Eb).
  rewrite (update_byte15_ext (fun x => byte_or 1 (byte_and 254 x)) (byte_or 1))
    by apply byte_or_and.
  destruct (update_byte15 (byte_or 1) (py_slice header_hash None (Some 16)));
    cbn [bind]; [|reflexivity|reflexivity].
  rewrite (Hs recipient_private recipient_public _ _ _ recipient_keys ephemeral_keys).
  reflexivity.
Qed.

End MacKeys.

Lemma recipient_mac_key_v1 {C : Crypto} sender_private ephemeral_private header_hash i R :
  recipient_mac_key sender_private ephemeral_private header_hash 1 i R
  = spec_mac_key_v1 header_hash R sender_private.
Proof.
  unfold recipient_mac_key, spec_mac_key_v1. cbn [Z.eqb Pos.eqb bind].
  rewrite py_slice_to by lia. change (Z.to_nat 24) with 24%nat.
  destruct (crypto_box zero32 (firstn 24 header_hash) (VBin R) sender_private);
    cbn [bind]; [|reflexivity|reflexivity].
  rewrite py_slice_16_48. reflexivity.
Qed.

Lemma recipient_mac_key_v2 {C : Crypto} sender_private ephemeral_private header_hash i R :
  16 <= len header_hash -> (N.of_nat i < 2 ^ 64)%N ->
  recipient_mac_key sender_private ephemeral_private header_hash 2 i R
  = spec_mac_key_v2 header_hash i R sender_private ephemeral_private.
Proof.
  intros Hh Hi. unfold recipient_mac_key, spec_mac_key_v2. cbn [Z.eqb Pos.eqb].
  rewrite py_slice_to by lia. change (Z.to_nat 16) with 16%nat.
  assert (L : List.length (firstn 16 header_hash) = 16%nat)
    by (rewrite length_firstn; unfold len in Hh; lia).
  rewrite !update_byte15_16 by assumption. rewrite to_bytes_u64be by assumption.
  cbn [bind]. unfold with_bit0_of_byte15. rewrite byte_and_254, byte_or_1.
  destruct (crypto_box zero32 _ (VBin R) sender_private); cbn [bind]; [|reflexivity|reflexivity].
  destruct (crypto_box zero32 _ (VBin R) ephemeral_private); cbn [bind]; [|reflexivity|reflexivity].
  rewrite !(py_slice_last 32) by lia.
  destruct (crypto_hash _); cbn [bind]; [|reflexivity|reflexivity].
  rewrite py_slice_to by lia. reflexivity.
Qed.



(** ** The shape of what [encrypt] returns *)

Section WireFormat.

Context {M : Umsgpack} {C : Crypto}.

Lemma encrypt_chunks_iff payload_key header_hash mac_keys major_version chunks :
  forall output0 output,
  encrypt_chunks payload_key header_hash mac_keys major_version chunks output0 = Ok output <->
  exists packets packet_bytes,
    Forall2 (fun chunk packet =>
               chunk_packet payload_key header_hash mac_keys major_version chunk = Ok packet)
            chunks packets /\
    Forall2 (fun packet b => packb packet = Ok b) packets packet_bytes /\
    output = output0 ++ List.concat packet_bytes.
Proof.
  induction chunks as [|chunk chunks IH]; intros output0 output; cbn [encrypt_chunks].
  - split.
    + intros H. apply Ok_inj in H. subst output. exists [], [].
      repeat split; [constructor|constructor|]. cbn. rewrite app_nil_r. reflexivity.
    + intros (packets & packet_bytes & H1 & H2 & ->).
      inversion H1; subst. inversion H2; subst. cbn. rewrite app_nil_r. reflexivity.
  - unfold encrypt_chunk. split.
    + intros H. inv_bind H as b Eb. inv_bind Eb as packet Ep.
      apply IH in H as (packets & packet_bytes & H1 & H2 & ->).
      exists (packet :: packets), (b :: packet_bytes).
      repeat split; [constructor; assumption|constructor; assumption|].
      cbn [List.concat]. rewrite app_assoc. reflexivity.
    + intros (packets & packet_bytes & H1 & H2 & ->).
      inversion H1 as [|? packet ? packets' Hp H1']; subst.
      inversion H2 as [|? b ? packet_bytes' Hb H2']; subst.
      rewrite Hp. cbn [bind]. rewrite Hb. cbn [bind].
      apply IH. exists packets', packet_bytes'.
      repeat split; [assumption|assumption|].
      cbn [List.concat]. rewrite app_assoc. reflexivity.
Qed.

(** [encrypt] returns exactly: the packed bytes object that holds the packed
    header array, followed by the packed packets of the chunks. *)
Lemma encrypt_iff sender_private recipients message chunk_size visible major_version
    ephemeral_private payload_key ciphertext :
  encrypt sender_private recipients message chunk_size visible major_version
    ephemeral_private payload_key = Ok ciphertext <->
  exists sender_public ephemeral_public sender_secretbox recipient_pairs minor_version
         header_bytes header_hash double_encoded_header_bytes mac_keys chunks
         packets packet_bytes,
    let major := given_version major_version in
    keypair C sender_private sender_public /\
    keypair C ephemeral_private ephemeral_public /\
    crypto_secretbox sender_public SENDER_KEY_SECRETBOX_NONCE payload_key
      = Ok sender_secretbox /\
    recipient_pairs_loop payload_key ephemeral_private visible major 0 recipients
      = Ok recipient_pairs /\
    CURRENT_MINOR_VERSIONS major = Ok minor_version /\
    packb (VArray [VStr (str "saltpack"); VArray [VInt major; VInt minor_version]; VInt 0;
                   VBin ephemeral_public; VBin sender_secretbox; VArray recipient_pairs])
      = Ok header_bytes /\
    crypto_hash (VBin header_bytes) = Ok header_hash /\
    packb (VBin header_bytes) = Ok double_encoded_header_bytes /\
    recipient_mac_keys_loop sender_private ephemeral_private header_hash major 0 recipients
      = Ok mac_keys /\
    chunks_loop message chunk_size major = Ok chunks /\
    Forall2 (fun chunk packet =>
               chunk_packet payload_key header_hash mac_keys major chunk = Ok packet)
            chunks packets /\
    Forall2 (fun packet b => packb packet = Ok b) packets packet_bytes /\
    ciphertext = double_encoded_header_bytes ++ List.concat packet_bytes.
Proof.
  unfold encrypt. fold (given_version major_version). unfold header_of, keypair. split.
  - intros H.
    inv_bind H as sender_public Es. inv_bind H as ephemeral_public Ee.
    inv_bind H as sender_secretbox Esb. inv_bind H as pairs Ep.
    inv_bind H as minor Emin. inv_bind H as header_bytes Ehb.
    inv_bind H as header_hash Ehh. inv_bind H as double Ed.
    inv_bind H as mac_keys Emk. inv_bind H as chunks Ec.
    apply encrypt_chunks_iff in H as (packets & packet_bytes & H1 & H2 & ->).
    exists sender_public, ephemeral_public, sender_secretbox, pairs, minor, header_bytes,
      header_hash, double, mac_keys, chunks, packets, packet_bytes.
    cbv zeta. repeat split; assumption.
  - intros (sender_public & ephemeral_public & sender_secretbox & pairs & minor & header_bytes
            & header_hash & double & mac_keys & chunks & packets & packet_bytes & H).
    cbv zeta in H.
    destruct H as (Es & Ee & Esb & Ep & Emin & Ehb & Ehh & Ed & Emk & Ec & H1 & H2 & ->).
    rewrite Es. cbn [bind]. rewrite Ee. cbn [bind]. rewrite Esb. cbn [bind].
    rewrite Ep. cbn [bind]. rewrite Emin. cbn [bind]. rewrite Ehb. cbn [bind].
    rewrite Ehh. cbn [bind]. rewrite Ed. cbn [bind]. rewrite Emk. cbn [bind].
    rewrite Ec. cbn [bind]. apply encrypt_chunks_iff.
    exists packets, packet_bytes. repeat split; assumption.
Qed.

End WireFormat.


(** ** [encrypt] succeeds, and how many bytes it writes *)

Lemma len_firstn_le {A : Type} (n : nat) (s : list A) :
  Z.of_nat n <= len s -> len (firstn n s) = Z.of_nat n.
Proof. unfold len. intros H. rewrite length_firstn. lia. Qed.

Lemma len_u64be i : len (u64be i) = 8.
Proof. unfold len, u64be. rewrite be_bytes_length. reflexivity. Qed.

Lemma wire_VArray l : wire_value (VArray l) = (len l <? 2 ^ 32) && forallb wire_value l.
Proof. reflexivity. Qed.

Lemma wire_VBin b : len b < 2 ^ 32 -> wire_value (VBin b) = true.
Proof. intros H. apply Z.ltb_lt. exact H. Qed.

Lemma size_VArray l :
  msgpack_size (VArray l)
  = array_header_size (len l) + fold_right (fun x acc => msgpack_size x + acc) 0 l.
Proof. reflexivity. Qed.

Lemma size_VBin b : msgpack_size (VBin b) = bin_header_size (len b) + len b.
Proof. reflexivity. Qed.

Lemma size_VBin_small b : len b < 2 ^ 8 -> msgpack_size (VBin b) = 2 + len b.
Proof.
  intros H. rewrite size_VBin. unfold bin_header_size.
  destruct (Z.ltb_spec (len b) (2 ^ 8)); [reflexivity|lia].
Qed.

Lemma chunks_loop_bounds (message : bytes) S v chunks :
  chunks_loop message S v = Ok chunks ->
  Forall (fun t => Z.of_nat (chunk_index t) <= len message /\
                   len (chunk_bytes t) <= Z.min S (len message)) chunks.
Proof.
  intros H.
  assert (HS : 0 < S).
  { unfold chunks_loop in H. destruct (Z.ltb_spec 0 S); [assumption|discriminate]. }
  rewrite chunks_loop_closed in H by assumption. apply Ok_inj in H. subst chunks.
  pose proof (len_nonneg message) as Hm.
  destruct message as [|x message0] eqn:Em.
  { cbn [is_empty]. constructor; [|constructor]. cbn. lia. }
  rewrite <- Em in *. replace (is_empty message) with false by (subst; reflexivity).
  clear Em x message0. unfold loop_triples. rewrite Z.sub_0_r.
  pose proof (ceil_div_bounds (len message) S HS) as [Hlo Hhi].
  set (n := Z.to_nat (ceil_div (len message) S)) in *.
  assert (Hn : Z.of_nat n <= len message) by (subst n; nia).
  apply Forall_app. split.
  - apply Forall_forall. intros t Ht. apply in_map_iff in Ht as (i & <- & Hi).
    apply in_seq in Hi. cbn [chunk_index chunk_bytes fst snd Nat.add].
    rewrite py_slice_len by nia. lia.
  - destruct (v =? 1); [|constructor]. constructor; [|constructor].
    cbn [chunk_index chunk_bytes fst snd Nat.add]. cbn [len List.length]. unfold len at 2. cbn. lia.
Qed.

Lemma header_size_bound visible n :
  0 <= n < 2 ^ 24 -> 0 < header_size visible n < 2 ^ 32.
Proof.
  intros Hn. unfold header_size, pair_size, array_header_size.
  destruct visible; destruct (n <? 16); try destruct (n <? 2 ^ 16); lia.
Qed.

Section Sizes.

Context {M : Umsgpack} {C : Crypto}.
Hypothesis MF : UmsgpackFormat M.
Hypothesis CS : CryptoSizes C.

Lemma packb_wire v :
  wire_value v = true -> exists b, packb v = Ok b /\ len b = msgpack_size v.
Proof.
  intros Hw. destruct (law_packb_succeeds _ MF v Hw) as (b & Hb).
  exists b. split; [exact Hb|]. apply (law_packb_msgpack_size _ MF); assumption.
Qed.

Lemma public_key_len R : is_public_key R -> len R = 32.
Proof.
  intros (r & Hr & Hk). destruct (law_scalarmult_base _ CS r Hr) as (pk & Hpk & L).
  unfold keypair in *. rewrite Hk in Hpk. apply Ok_inj in Hpk. subst pk. exact L.
Qed.

Lemma box_to_public_key m n a R :
  len n = 24 -> len a = 32 -> is_public_key R ->
  exists c, crypto_box m n (VBin R) a = Ok c /\ len c = 16 + len m.
Proof.
  intros Hn Ha (r & Hr & Hk). apply (law_box _ CS m n a r R); assumption.
Qed.

Lemma payload_key_nonce_len major_version i :
  (N.of_nat i < 2 ^ 64)%N ->
  exists n, payload_key_nonce (VInt major_version) i = Ok n /\ len n = 24.
Proof.
  intros Hi. unfold payload_key_nonce. cbn [py_eq_int].
  destruct (major_version =? 1).
  - eexists. split; reflexivity.
  - rewrite to_bytes_u64be by assumption. cbn [bind]. eexists. split; [reflexivity|].
    rewrite len_app, len_u64be. reflexivity.
Qed.

Lemma recipient_pairs_loop_size payload_key ephemeral_private visible major_version recipients :
  len payload_key = 32 ->
  len ephemeral_private = 32 ->
  Forall is_public_key recipients ->
  forall i0, (N.of_nat (i0 + List.length recipients) < 2 ^ 64)%N ->
  exists pairs,
    recipient_pairs_loop payload_key ephemeral_private visible major_version i0 recipients
      = Ok pairs /\
    len pairs = len recipients /\
    forallb wire_value pairs = true /\
    fold_right (fun x acc => msgpack_size x + acc) 0 pairs = len recipients * pair_size visible.
Proof.
  intros Hp He HR. induction HR as [|R recipients HRk HR IH]; intros i0 Hi.
  - exists []. repeat split.
  - cbn [List.length] in Hi. cbn [recipient_pairs_loop].
    destruct (payload_key_nonce_len major_version i0 ltac:(lia)) as (n & -> & Ln). cbn [bind].
    destruct (box_to_public_key payload_key n ephemeral_private R Ln He HRk) as (box & -> & Lb).
    cbn [bind].
    destruct (IH (S i0) ltac:(lia)) as (pairs & -> & L & W & Sz). cbn [bind].
    eexists. split; [reflexivity|].
    pose proof (public_key_len R HRk) as LR. rewrite Hp in Lb.
    repeat split.
    + unfold len in *. cbn [List.length]. lia.
    + cbn [forallb]. rewrite W, andb_true_r.
      destruct visible; rewrite wire_VArray; cbn [forallb];
        rewrite ?wire_VBin by lia; reflexivity.
    + cbn [fold_right]. rewrite Sz. unfold pair_size.
      replace (len (R :: recipients)) with (1 + len recipients)
        by (unfold len; cbn [List.length]; lia).
      destruct visible; rewrite size_VArray; cbn [fold_right];
        rewrite ?size_VBin_small by lia; rewrite ?LR, ?Lb; cbn [msgpack_size];
        change (array_header_size (len [_; _])) with 1; lia.
Qed.


Lemma recipient_mac_key_succeeds sender_private ephemeral_private header_hash major_version i R :
  len sender_private = 32 -> len ephemeral_private = 32 -> len header_hash = 64 ->
  (N.of_nat i < 2 ^ 64)%N -> is_public_key R ->
  exists mac_key,
    recipient_mac_key sender_private ephemeral_private header_hash major_version i R
    = Ok mac_key.
Proof.
  intros Hs He Hh Hi HR. unfold recipient_mac_key.
  destruct (major_version =? 1).
  - cbn [bind]. rewrite py_slice_to by lia.
    destruct (box_to_public_key zero32 (firstn (Z.to_nat 24) header_hash) sender_private R)
      as (box & -> & _); [apply len_firstn_le; lia|assumption|assumption|].
    cbn [bind]. eexists. reflexivity.
  - rewrite py_slice_to by lia. change (Z.to_nat 16) with 16%nat.
    assert (L : List.length (firstn 16 header_hash) = 16%nat)
      by (rewrite length_firstn; unfold len in Hh; lia).
    rewrite !update_byte15_16 by assumption. rewrite to_bytes_u64be by assumption.
    cbn [bind].
    assert (Ln : forall x : byte, len ((firstn 15 (firstn 16 header_hash) ++ [x]) ++ u64be i) = 24).
    { intros x. rewrite !len_app, len_u64be. unfold len.
      rewrite length_firstn, L. reflexivity. }
    match goal with
    | |- context [crypto_box zero32 ?n (VBin R) sender_private] =>
        destruct (box_to_public_key zero32 n sender_private R (Ln _) Hs HR) as (box1 & -> & _)
    end.
    cbn [bind].
    match goal with
    | |- context [crypto_box zero32 ?n (VBin R) ephemeral_private] =>
        destruct (box_to_public_key zero32 n ephemeral_private R (Ln _) He HR) as (box2 & -> & _)
    end.
    cbn [bind].
    destruct (law_hash _ CS (py_slice box1 (Some (-32)) None ++ py_slice box2 (Some (-32)) None))
      as (digest & -> & _).
    cbn [bind]. eexists. reflexivity.
Qed.

Lemma recipient_mac_keys_loop_succeeds sender_private ephemeral_private header_hash
    major_version recipients :
  len sender_private = 32 -> len ephemeral_private = 32 -> len header_hash = 64 ->
  Forall is_public_key recipients ->
  forall i0, (N.of_nat (i0 + List.length recipients) < 2 ^ 64)%N ->
  exists mac_keys,
    recipient_mac_keys_loop sender_private ephemeral_private header_hash major_version i0
      recipients = Ok mac_keys /\
    len mac_keys = len recipients.
Proof.
  intros Hs He Hh HR. induction HR as [|R recipients HRk HR IH]; intros i0 Hi.
  - exists []. split; reflexivity.
  - cbn [List.length] in Hi. cbn [recipient_mac_keys_loop].
    destruct (recipient_mac_key_succeeds sender_private ephemeral_private header_hash
                major_version i0 R Hs He Hh ltac:(lia) HRk) as (mac_key & ->).
    cbn [bind]. destruct (IH (S i0) ltac:(lia)) as (mac_keys & -> & L). cbn [bind].
    eexists. split; [reflexivity|]. unfold len in *. cbn [List.length]. lia.
Qed.

Lemma len_authenticator mac_key payload_hash : len (authenticator mac_key payload_hash) = 32.
Proof.
  unfold authenticator. rewrite py_slice_to by lia.
  apply len_firstn_le. rewrite (law_hmac _ CS). lia.
Qed.

Lemma authenticators_wire payload_hash mac_keys :
  forallb wire_value (map (fun mac_key => VBin (authenticator mac_key payload_hash)) mac_keys)
    = true /\
  fold_right (fun x acc => msgpack_size x + acc) 0
    (map (fun mac_key => VBin (authenticator mac_key payload_hash)) mac_keys)
    = len mac_keys * (2 + 32).
Proof.
  induction mac_keys as [|k mac_keys [IH1 IH2]]; [split; reflexivity|].
  cbn [map forallb fold_right]. rewrite IH1, IH2.
  pose proof (len_authenticator k payload_hash) as L.
  rewrite wire_VBin, size_VBin_small by lia. rewrite L. split; [reflexivity|].
  unfold len. cbn [List.length]. lia.
Qed.

Lemma chunk_packet_size payload_key header_hash mac_keys major_version chunknum chunk final_flag :
  len payload_key = 32 -> (N.of_nat chunknum < 2 ^ 64)%N ->
  16 + len chunk < 2 ^ 32 -> len mac_keys < 2 ^ 32 ->
  exists packet,
    chunk_packet payload_key header_hash mac_keys major_version (chunknum, chunk, final_flag)
      = Ok packet /\
    wire_value packet = true /\
    msgpack_size packet = packet_size major_version (len mac_keys) (len chunk).
Proof.
  intros Hp Hn Hc Hk. unfold chunk_packet.
  rewrite to_bytes_u64be by assumption. cbn [bind].
  destruct (law_secretbox _ CS chunk (PAYLOAD_NONCE_PREFIX ++ u64be chunknum) payload_key)
    as (sbox & -> & Ls); [rewrite len_app, len_u64be; reflexivity|assumption|].
  cbn [bind].
  match goal with
  | |- context [crypto_hash (VBin ?b)] => destruct (law_hash _ CS b) as (ph & -> & _)
  end.
  cbn [bind].
  destruct (authenticators_wire ph mac_keys) as [W Sz].
  assert (Lm : len (map (fun mac_key => VBin (authenticator mac_key ph)) mac_keys) = len mac_keys)
    by (unfold len; rewrite length_map; reflexivity).
  eexists. split; [reflexivity|]. unfold packet_size.
  destruct (major_version =? 1).
  - split.
    + rewrite wire_VArray. cbn [forallb]. rewrite wire_VArray, W, Lm, wire_VBin by lia.
      apply Z.ltb_lt in Hk. rewrite Hk. reflexivity.
    + rewrite size_VArray. cbn [fold_right]. rewrite size_VArray, Sz, Lm, size_VBin, Ls.
      change (array_header_size (len [_; _])) with 1. lia.
  - split.
    + rewrite wire_VArray. cbn [forallb]. rewrite wire_VArray, W, Lm, wire_VBin by lia.
      apply Z.ltb_lt in Hk. rewrite Hk. reflexivity.
    + rewrite size_VArray. cbn [fold_right]. rewrite size_VArray, Sz, Lm, size_VBin, Ls.
      change (array_header_size (len [_; _; _])) with 1. cbn [msgpack_size]. lia.
Qed.

Lemma chunk_packets_size payload_key header_hash mac_keys major_version chunks :
  len payload_key = 32 -> len mac_keys < 2 ^ 32 ->
  Forall (fun t => (N.of_nat (chunk_index t) < 2 ^ 64)%N /\ 16 + len (chunk_bytes t) < 2 ^ 32)
         chunks ->
  exists packets packet_bytes,
    Forall2 (fun chunk packet =>
               chunk_packet payload_key header_hash mac_keys major_version chunk = Ok packet)
            chunks packets /\
    Forall2 (fun packet b => packb packet = Ok b) packets packet_bytes /\
    len (List.concat packet_bytes)
    = fold_right (fun l acc => packet_size major_version (len mac_keys) l + acc) 0
        (map (fun t => len (chunk_bytes t)) chunks).
Proof.
  intros Hp Hk Hc. induction Hc as [|[[n chunk] f] chunks [Hn Hl] Hc IH].
  - exists [], []. repeat split; constructor.
  - destruct IH as (packets & packet_bytes & H1 & H2 & L).
    cbn [chunk_index chunk_bytes fst snd] in Hn, Hl.
    destruct (chunk_packet_size payload_key header_hash mac_keys major_version n chunk f
                Hp Hn Hl Hk) as (packet & Hpkt & W & Sz).
    destruct (packb_wire packet W) as (b & Hb & Lb).
    exists (packet :: packets), (b :: packet_bytes).
    repeat split; [constructor; assumption|constructor; assumption|].
    cbn [List.concat map fold_right chunk_bytes fst snd]. rewrite len_app, L, Lb, Sz. reflexivity.
Qed.


Lemma encrypt_succeeds_size sender_private recipients message chunk_size visible major_version
    ephemeral_private payload_key :
  len sender_private = 32 -> len ephemeral_private = 32 -> len payload_key = 32 ->
  Forall is_public_key recipients -> len recipients < 2 ^ 24 ->
  given_version major_version = 1 \/ given_version major_version = 2 ->
  0 < chunk_size -> 16 + Z.min chunk_size (len message) < 2 ^ 32 -> len message < 2 ^ 64 ->
  exists ciphertext chunks,
    chunks_loop message chunk_size (given_version major_version) = Ok chunks /\
    encrypt sender_private recipients message chunk_size visible major_version
      ephemeral_private payload_key = Ok ciphertext /\
    len ciphertext =
      ciphertext_size (given_version major_version) visible (len recipients)
        (map (fun t => len (chunk_bytes t)) chunks).
Proof.
  intros Hs He Hp HR Hn Hv HS Hc Hm.
  set (v := given_version major_version) in *.
  pose proof (len_nonneg recipients) as Hn0.
  assert (Hidx : (N.of_nat (0 + List.length recipients) < 2 ^ 64)%N)
    by (unfold len in Hn; cbn [Nat.add]; lia).
  destruct (law_scalarmult_base _ CS sender_private Hs) as (sender_public & Hsp & Lsp).
  destruct (law_scalarmult_base _ CS ephemeral_private He) as (ephemeral_public & Hep & Lep).
  destruct (law_secretbox _ CS sender_public SENDER_KEY_SECRETBOX_NONCE payload_key
              eq_refl Hp) as (ssb & Hssb & Lssb).
  rewrite Lsp in Lssb.
  destruct (recipient_pairs_loop_size payload_key ephemeral_private visible v recipients
              Hp He HR 0%nat Hidx) as (pairs & Hpairs & Lpairs & Wpairs & Spairs).
  assert (Hminor : CURRENT_MINOR_VERSIONS v = Ok 0) by (destruct Hv as [-> | ->]; reflexivity).
  set (header := VArray [VStr (str "saltpack"); VArray [VInt v; VInt 0]; VInt 0;
                         VBin ephemeral_public; VBin ssb; VArray pairs]).
  assert (Wh : wire_value header = true).
  { subst header. rewrite wire_VArray. cbn [forallb].
    rewrite !wire_VBin by lia. rewrite (wire_VArray pairs), Wpairs.
    replace (len pairs <? 2 ^ 32) with true by (symmetry; apply Z.ltb_lt; lia).
    destruct Hv as [-> | ->]; reflexivity. }
  assert (Sh : msgpack_size header = header_size visible (len recipients)).
  { subst header. rewrite size_VArray. cbn [fold_right].
    rewrite !size_VBin_small by lia. rewrite (size_VArray pairs), Spairs, Lpairs, Lep, Lssb.
    unfold header_size.
    change (array_header_size (len [_; _; _; _; _; _])) with 1.
    change (msgpack_size (VStr (str "saltpack"))) with 9.
    change (msgpack_size (VArray [VInt v; VInt 0])) with 3.
    change (msgpack_size (VInt 0)) with 1. lia. }
  destruct (packb_wire header Wh) as (header_bytes & Hhb & Lhb). rewrite Sh in Lhb.
  pose proof (header_size_bound visible (len recipients) ltac:(lia)) as Hhs.
  destruct (law_hash _ CS header_bytes) as (header_hash & Hhh & Lhh).
  destruct (packb_wire (VBin header_bytes) ltac:(apply wire_VBin; lia)) as (double & Hd & Ld).
  rewrite size_VBin, Lhb in Ld.
  destruct (recipient_mac_keys_loop_succeeds sender_private ephemeral_private header_hash v
              recipients Hs He Lhh HR 0%nat Hidx) as (mac_keys & Hmk & Lmk).
  destruct (chunks_loop message chunk_size v) as [chunks| |] eqn:Echunks.
  2,3: rewrite chunks_loop_closed in Echunks by assumption; discriminate.
  pose proof (chunks_loop_bounds _ _ _ _ Echunks) as Hb.
  destruct (chunk_packets_size payload_key header_hash mac_keys v chunks Hp ltac:(lia))
    as (packets & packet_bytes & H1 & H2 & L).
  { eapply Forall_impl; [|exact Hb]. intros t [Hi Hl]. cbv beta. split; lia. }
  exists (double ++ List.concat packet_bytes), chunks.
  split; [reflexivity|]. split.
  - apply encrypt_iff.
    exists sender_public, ephemeral_public, ssb, pairs, 0, header_bytes, header_hash, double,
      mac_keys, chunks, packets, packet_bytes.
    cbv zeta. fold v. repeat split; assumption.
  - rewrite len_app, Ld, L, Lmk. unfold ciphertext_size. reflexivity.
Qed.

End Sizes.


Lemma empty_message_ciphertext {M : Umsgpack} {C : Crypto}
    (ML : UmsgpackLaws M) (MF : UmsgpackFormat M) (CL : CryptoLaws C) (CS : CryptoSizes C)
    sender_private recipient_private R chunk_size visible major_version
    ephemeral_private payload_key :
  len sender_private = 32 -> len recipient_private = 32 -> keypair C recipient_private R ->
  len ephemeral_private = 32 -> len payload_key = 32 -> 0 < chunk_size ->
  major_version = 1 \/ major_version = 2 ->
  exists ciphertext,
    encrypt sender_private [R] [] chunk_size visible (Some major_version)
      ephemeral_private payload_key = Ok ciphertext /\
    decrypt ciphertext recipient_private = Ok [] /\
    len ciphertext = ciphertext_size major_version visible 1 [0].
Proof.
  intros Hs Hr Hk He Hp HS Hv.
  destruct (encrypt_succeeds_size MF CS sender_private [R] [] chunk_size visible
              (Some major_version) ephemeral_private payload_key Hs He Hp)
    as (ciphertext & chunks & Hc & Henc & L).
  - constructor; [|constructor]. exists recipient_private. split; assumption.
  - cbn. lia.
  - exact Hv.
  - exact HS.
  - cbn [len List.length Z.of_nat]. lia.
  - cbn. lia.
  - exists ciphertext. split; [exact Henc|]. split.
    + rewrite <- (app_nil_r ciphertext).
      apply (decrypt_encrypt ML CL _ _ _ _ _ _ _ _ _ _ _ 0%nat [] Henc Hk eq_refl).
      intros i R' E k Hi. lia.
    + cbn [given_version] in Hc, L. rewrite chunks_loop_empty in Hc by assumption.
      apply Ok_inj in Hc. subst chunks. exact L.
Qed.

(** ** [decrypt] returns or raises

    The fuel that [decrypt] gives to its packet loop is enough: every turn of
    the loop takes at least one byte off the stream. *)

Lemma bind_returns {A B : Type} (c : res A) (k : A -> res B) :
  c <> Diverge -> (forall a, k a <> Diverge) -> bind c k <> Diverge.
Proof. intros Hc Hk. destruct c; cbn; [apply Hk|discriminate|contradiction]. Qed.

Create HintDb returns.

Ltac returns :=
  repeat match goal with
         | |- bind _ _ <> Diverge => apply bind_returns
         | |- forall _, _ => intro
         | |- Ok _ <> Diverge => discriminate
         | |- Raise _ <> Diverge => discriminate
         | |- (if ?c then _ else _) <> Diverge => destruct c
         | |- (match ?x with _ => _ end) <> Diverge => destruct x
         | |- _ => solve [auto with returns]
         end.

Lemma json_repr_returns obj : json_repr obj <> Diverge.
Proof. unfold json_repr. returns. Qed.

Lemma py_iter_returns v : py_iter v <> Diverge.
Proof. unfold py_iter. returns. Qed.

#[local] Hint Resolve json_repr_returns py_iter_returns : returns.

Lemma unpack_at_least_returns n v : unpack_at_least n v <> Diverge.
Proof. unfold unpack_at_least. returns. Qed.

Lemma unpack_exactly_returns n v : unpack_exactly n v <> Diverge.
Proof. unfold unpack_exactly. returns. Qed.

Lemma dict_get_returns kvs i : dict_get kvs i <> Diverge.
Proof. induction kvs as [|[k v] kvs IH]; cbn [dict_get]; returns. Qed.

Lemma nth_or_IndexError_returns {A : Type} (l : list A) i : nth_or_IndexError l i <> Diverge.
Proof. unfold nth_or_IndexError. returns. Qed.

#[local] Hint Resolve unpack_at_least_returns unpack_exactly_returns dict_get_returns
  nth_or_IndexError_returns : returns.

Lemma py_getitem_returns v i : py_getitem v i <> Diverge.
Proof. unfold py_getitem. returns. Qed.

Lemma to_bytes_returns n width : to_bytes n width <> Diverge.
Proof. unfold to_bytes. returns. Qed.

Lemma bytes_add_returns b v : bytes_add b v <> Diverge.
Proof. unfold bytes_add. returns. Qed.

Lemma compare_digest_returns a b : compare_digest a b <> Diverge.
Proof. unfold compare_digest. returns. Qed.

Lemma update_byte15_returns f b : update_byte15 f b <> Diverge.
Proof. unfold update_byte15. returns. Qed.

#[local] Hint Resolve py_getitem_returns to_bytes_returns bytes_add_returns
  compare_digest_returns update_byte15_returns : returns.

Lemma payload_key_nonce_returns version i : payload_key_nonce version i <> Diverge.
Proof. unfold payload_key_nonce. returns. Qed.

Lemma check_header_returns f v m : check_header f v m <> Diverge.
Proof. unfold check_header. returns. Qed.

#[local] Hint Resolve payload_key_nonce_returns check_header_returns : returns.

Section Returns.

Context {M : Umsgpack} {C : Crypto}.
Hypothesis MC : unpack_consumes M.
Hypothesis MR : unpack_returns M.
Hypothesis CR : CryptoReturns C.

Let Hopen := ret_secretbox_open _ CR.
Let Hbox := ret_box _ CR.
Let Hbefore := ret_beforenm _ CR.
Let Hboxopen := ret_box_open _ CR.
Let Hhash := ret_hash _ CR.

#[local] Hint Resolve Hopen Hbox Hbefore Hboxopen Hhash MR : returns.

Lemma decrypt_packet_returns major_version header_hash mac_key payload_key recipient_index
    packet chunknum :
  decrypt_packet major_version header_hash mac_key payload_key recipient_index packet chunknum
  <> Diverge.
Proof. unfold decrypt_packet. returns. Qed.

Lemma decrypt_packets_returns fuel : forall major_version header_hash mac_key payload_key
    recipient_index stream output chunknum,
  (List.length stream < fuel)%nat ->
  decrypt_packets fuel major_version header_hash mac_key payload_key recipient_index
    stream output chunknum <> Diverge.
Proof.
  induction fuel as [|fuel IH]; intros mv hh mk pk idx stream output n Hf; [lia|].
  cbn [decrypt_packets].
  destruct (unpack stream) as [[packet stream']| |] eqn:Eu; cbn [bind];
    [|discriminate|exfalso; exact (MR stream Eu)].
  apply MC in Eu.
  apply bind_returns; [apply decrypt_packet_returns|].
  intros [chunk stop]. destruct stop; [discriminate|]. apply IH. lia.
Qed.

Lemma find_recipient_returns major_version k pairs : forall i,
  find_recipient major_version k i pairs <> Diverge.
Proof.
  induction pairs as [|slot pairs IH]; intros i; cbn [find_recipient]; [discriminate|].
  apply bind_returns; [auto with returns|]. intros items.
  destruct (payload_key_nonce major_version i) as [n| |] eqn:En; cbn [bind except_CryptoError].
  - destruct (crypto_box_open_afternm (nth 1 items VNil) n k) as [pk|e|] eqn:Eo;
      cbn [bind except_CryptoError].
    + discriminate.
    + destruct e; try discriminate. apply IH.
    + exfalso; exact (Hboxopen _ _ _ Eo).
  - destruct e; try discriminate. apply IH.
  - exfalso; exact (payload_key_nonce_returns _ _ En).
Qed.

Lemma decrypt_mac_key_returns recipient_private header_hash major_version i sender_public
    ephemeral_public :
  decrypt_mac_key recipient_private header_hash major_version i sender_public ephemeral_public
  <> Diverge.
Proof. unfold decrypt_mac_key. returns. Qed.

Lemma parse_header_returns input recipient_private :
  parse_header input recipient_private <> Diverge.
Proof.
  unfold parse_header, unpackb. returns.
Qed.

End Returns.


(** ** More about the chunkers and the nonces *)

Lemma be_bytes_inj k n m :
  (n < 256 ^ N.of_nat k)%N -> (m < 256 ^ N.of_nat k)%N ->
  be_bytes k n = be_bytes k m -> n = m.
Proof.
  intros Hn Hm H. apply (f_equal Toy.N_of_bytes) in H.
  rewrite !ToyMsgpack.N_of_bytes_be_bytes in H by assumption. exact H.
Qed.

Lemma to_bytes_Ok n width b :
  to_bytes n width = Ok b ->
  (N.of_nat n < 256 ^ N.of_nat width)%N /\ b = be_bytes width (N.of_nat n).
Proof.
  unfold to_bytes. destruct (N.ltb_spec (N.of_nat n) (256 ^ N.of_nat width)); [|discriminate].
  intros E. apply Ok_inj in E. auto.
Qed.

Lemma to_bytes_overflow n width :
  (256 ^ N.of_nat width <= N.of_nat n)%N -> to_bytes n width = Raise OverflowError.
Proof.
  intros H. unfold to_bytes.
  destruct (N.ltb_spec (N.of_nat n) (256 ^ N.of_nat width)); [lia|reflexivity].
Qed.

Lemma chunks_with_empty_while_loops fuel : forall message chunk_size chunk_start chunks,
  chunk_size <= 0 -> chunk_start < len message ->
  chunks_with_empty_while fuel message chunk_size chunk_start chunks = Diverge.
Proof.
  induction fuel as [|fuel IH]; intros message chunk_size chunk_start chunks HS Hlt;
    cbn [chunks_with_empty_while];
    destruct (Z.ltb_spec chunk_start (len message)); try lia; [reflexivity|].
  apply IH; lia.
Qed.

Lemma len_concat (l : list bytes) :
  len (List.concat l) = fold_right Z.add 0 (map len l).
Proof.
  induction l as [|x l IH]; [reflexivity|].
  cbn [List.concat map fold_right]. rewrite len_app, IH. reflexivity.
Qed.

Lemma spec_chunks_bounds (message : bytes) (S : Z) :
  0 < S -> Forall (fun c => 0 < len c <= S) (spec_chunks message S).
Proof.
  intros HS. unfold spec_chunks. apply Forall_forall. intros c Hc.
  apply in_map_iff in Hc. destruct Hc as (i & <- & Hi). apply in_seq in Hi.
  apply (nth_chunk_len message S i HS). lia.
Qed.

(** ** What [encrypt] does with its arguments *)

Section EncryptSteps.

Context {M : Umsgpack} {C : Crypto}.
Hypothesis MF : UmsgpackFormat M.
Hypothesis CS : CryptoSizes C.

Variables (sender_private : bytes) (recipients : list bytes) (visible : bool).
Variables (major_version : option Z) (ephemeral_private payload_key : bytes).

Hypothesis Hs : len sender_private = 32.
Hypothesis He : len ephemeral_private = 32.
Hypothesis Hp : len payload_key = 32.
Hypothesis HR : Forall is_public_key recipients.
Hypothesis Hn : len recipients < 2 ^ 24.

(** The steps of [encrypt] up to the recipient pairs succeed, whatever the
    major version. *)
Lemma encrypt_to_version :
  exists sender_public ephemeral_public sender_secretbox recipient_pairs,
    keypair C sender_private sender_public /\ len sender_public = 32 /\
    keypair C ephemeral_private ephemeral_public /\ len ephemeral_public = 32 /\
    crypto_secretbox sender_public SENDER_KEY_SECRETBOX_NONCE payload_key
      = Ok sender_secretbox /\ len sender_secretbox = 16 + 32 /\
    recipient_pairs_loop payload_key ephemeral_private visible (given_version major_version)
      0 recipients = Ok recipient_pairs /\
    len recipient_pairs = len recipients /\
    forallb wire_value recipient_pairs = true /\
    fold_right (fun x acc => msgpack_size x + acc) 0 recipient_pairs
      = len recipients * pair_size visible.
Proof.
  pose proof (len_nonneg recipients) as Hn0.
  assert (Hidx : (N.of_nat (0 + List.length recipients) < 2 ^ 64)%N)
    by (unfold len in Hn; cbn [Nat.add]; lia).
  destruct (law_scalarmult_base _ CS sender_private Hs) as (sender_public & Hsp & Lsp).
  destruct (law_scalarmult_base _ CS ephemeral_private He) as (ephemeral_public & Hep & Lep).
  destruct (law_secretbox _ CS sender_public SENDER_KEY_SECRETBOX_NONCE payload_key
              eq_refl Hp) as (ssb & Hssb & Lssb).
  rewrite Lsp in Lssb.
  destruct (recipient_pairs_loop_size CS payload_key ephemeral_private visible
              (given_version major_version) recipients Hp He HR 0%nat Hidx)
    as (pairs & Hpairs & Lpairs & Wpairs & Spairs).
  exists sender_public, ephemeral_public, ssb, pairs. repeat split; assumption.
Qed.

Lemma encrypt_bad_version message chunk_size :
  given_version major_version <> 1 -> given_version major_version <> 2 ->
  encrypt sender_private recipients message chunk_size visible major_version
    ephemeral_private payload_key = Raise KeyError.
Proof.
  intros H1 H2.
  destruct encrypt_to_version
    as (sender_public & ephemeral_public & ssb & pairs & Hsp & _ & Hep & _ & Hssb & _ & Hpairs & _).
  unfold encrypt. fold (given_version major_version).
  unfold keypair in Hsp, Hep. rewrite Hsp. cbn [bind]. rewrite Hep. cbn [bind].
  rewrite Hssb. cbn [bind]. rewrite Hpairs. cbn [bind].
  unfold CURRENT_MINOR_VERSIONS.
  destruct (Z.eqb_spec (given_version major_version) 1); [contradiction|].
  destruct (Z.eqb_spec (given_version major_version) 2); [contradiction|]. reflexivity.
Qed.

(** For major version 1 or 2, the steps of [encrypt] up to the MAC keys
    succeed: what is left is the loop over the chunks. *)
Lemma encrypt_to_chunks :
  given_version major_version = 1 \/ given_version major_version = 2 ->
  exists header_hash recipient_mac_keys output,
    len recipient_mac_keys = len recipients /\
    len output = bin_header_size (header_size visible (len recipients))
                 + header_size visible (len recipients) /\
    forall message chunk_size,
      encrypt sender_private recipients message chunk_size visible major_version
        ephemeral_private payload_key =
      (chunks <- chunks_loop message chunk_size (given_version major_version) ;;
       encrypt_chunks payload_key header_hash recipient_mac_keys (given_version major_version)
         chunks output).
Proof.
  intros Hv.
  destruct encrypt_to_version
    as (sender_public & ephemeral_public & ssb & pairs & Hsp & Lsp & Hep & Lep & Hssb & Lssb
        & Hpairs & Lpairs & Wpairs & Spairs).
  set (v := given_version major_version) in *.
  pose proof (len_nonneg recipients) as Hn0.
  assert (Hidx : (N.of_nat (0 + List.length recipients) < 2 ^ 64)%N)
    by (unfold len in Hn; cbn [Nat.add]; lia).
  assert (Hminor : CURRENT_MINOR_VERSIONS v = Ok 0) by (destruct Hv as [-> | ->]; reflexivity).
  set (header := header_of v 0 ephemeral_public ssb pairs).
  assert (Wh : wire_value header = true).
  { subst header. unfold header_of. rewrite wire_VArray. cbn [forallb].
    rewrite !wire_VBin by lia. rewrite (wire_VArray pairs), Wpairs.
    replace (len pairs <? 2 ^ 32) with true by (symmetry; apply Z.ltb_lt; lia).
    destruct Hv as [-> | ->]; reflexivity. }
  assert (Sh : msgpack_size header = header_size visible (len recipients)).
  { subst header. unfold header_of. rewrite size_VArray. cbn [fold_right].
    rewrite !size_VBin_small by lia. rewrite (size_VArray pairs), Spairs, Lpairs, Lep, Lssb.
    unfold header_size.
    change (array_header_size (len [_; _; _; _; _; _])) with 1.
    change (msgpack_size (VStr (str "saltpack"))) with 9.
    change (msgpack_size (VArray [VInt v; VInt 0])) with 3.
    change (msgpack_size (VInt 0)) with 1. lia. }
  destruct (packb_wire MF header Wh) as (header_bytes & Hhb & Lhb). rewrite Sh in Lhb.
  pose proof (header_size_bound visible (len recipients) ltac:(lia)) as Hhs.
  destruct (law_hash _ CS header_bytes) as (header_hash & Hhh & Lhh).
  destruct (packb_wire MF (VBin header_bytes) ltac:(apply wire_VBin; lia)) as (double & Hd & Ld).
  rewrite size_VBin, Lhb in Ld.
  destruct (recipient_mac_keys_loop_succeeds CS sender_private ephemeral_private header_hash v
              recipients Hs He Lhh HR 0%nat Hidx) as (mac_keys & Hmk & Lmk).
  exists header_hash, mac_keys, double. split; [exact Lmk|]. split; [exact Ld|].
  intros message chunk_size. unfold encrypt. fold (given_version major_version). fold v.
  unfold keypair in Hsp, Hep. rewrite Hsp. cbn [bind]. rewrite Hep. cbn [bind].
  rewrite Hssb. cbn [bind]. rewrite Hpairs. cbn [bind]. rewrite Hminor. cbn [bind].
  fold header. rewrite Hhb. cbn [bind]. rewrite Hhh. cbn [bind]. rewrite Hd. cbn [bind].
  rewrite Hmk. cbn [bind]. reflexivity.
Qed.

End EncryptSteps.

Lemma packet_size_lower v n l : 0 <= n -> 0 <= l -> l < packet_size v n l.
Proof.
  intros Hn0 Hl. unfold packet_size, array_header_size, bin_header_size.
  destruct (v =? 1), (n <? 16), (n <? 2 ^ 16), (16 + l <? 2 ^ 8), (16 + l <? 2 ^ 16); nia.
Qed.

Lemma packets_size_lower v n (lens : list Z) :
  0 <= n -> Forall (fun l => 0 <= l) lens ->
  fold_right Z.add 0 lens <= fold_right (fun l acc => packet_size v n l + acc) 0 lens.
Proof.
  intros Hn0 H. induction H as [|l lens Hl _ IH]; cbn [fold_right]; [lia|].
  pose proof (packet_size_lower v n l Hn0 Hl). lia.
Qed.

(** ** What [decrypt] finds in a ciphertext of [encrypt] *)

Lemma ciphertext_size_lower v visible n (lens : list Z) :
  0 <= n -> Forall (fun l => 0 <= l) lens ->
  fold_right Z.add 0 lens + header_size visible n < ciphertext_size v visible n lens.
Proof.
  intros Hn0 H. unfold ciphertext_size.
  pose proof (packets_size_lower v n lens Hn0 H).
  assert (0 < bin_header_size (header_size visible n))
    by (unfold bin_header_size; repeat destruct (_ <? _); lia).
  lia.
Qed.

Section HeaderOfEncrypt.

Context {M : Umsgpack} {C : Crypto}.
Hypothesis ML : UmsgpackLaws M.

(** The header that [decrypt] parses from a ciphertext of [encrypt]. *)
Lemma parse_header_of_encrypt sender_private recipients message chunk_size visible major_version
    ephemeral_private payload_key ciphertext recipient_private ephemeral_public k :
  encrypt sender_private recipients message chunk_size visible major_version
    ephemeral_private payload_key = Ok ciphertext ->
  keypair C ephemeral_private ephemeral_public ->
  crypto_box_beforenm (VBin ephemeral_public) recipient_private = Ok k ->
  exists header_hash sender_secretbox pairs stream,
    (given_version major_version = 1 \/ given_version major_version = 2) /\
    recipient_pairs_loop payload_key ephemeral_private visible (given_version major_version)
      0 recipients = Ok pairs /\
    parse_header ciphertext recipient_private =
    Ok {| hdr_hash := header_hash;
          hdr_format_name := VStr (str "saltpack");
          hdr_major_version := VInt (given_version major_version);
          hdr_minor_version := VInt 0;
          hdr_mode := VInt 0;
          hdr_ephemeral_public := VBin ephemeral_public;
          hdr_sender_secretbox := VBin sender_secretbox;
          hdr_recipient_pairs := VArray pairs;
          hdr_ephemeral_beforenm := k;
          hdr_stream := stream |}.
Proof.
  intros H He Hk. unfold encrypt in H. fold (given_version major_version) in H.
  set (v := given_version major_version) in *.
  inv_bind H as sender_public Es. inv_bind H as ephemeral_public' Ee.
  unfold keypair in He. rewrite He in Ee. apply Ok_inj in Ee. subst ephemeral_public'.
  inv_bind H as sender_secretbox Esb. inv_bind H as pairs Ep.
  inv_bind H as minor Emin. inv_bind H as header_bytes Ehb.
  inv_bind H as header_hash Ehh. inv_bind H as double Ed.
  inv_bind H as mac_keys Emk. inv_bind H as chunks Ec.
  destruct (CURRENT_MINOR_VERSIONS_Ok _ _ Emin) as [Hv ->].
  destruct (recipient_pairs_loop_plain _ _ _ _ _ _ _ Ep) as [Hplain Hjson].
  apply encrypt_chunks_iff in H. destruct H as (packets & packet_bytes & _ & _ & ->).
  exists header_hash, sender_secretbox, pairs, (List.concat packet_bytes).
  split; [exact Hv|]. split; [exact Ep|].
  unfold parse_header.
  rewrite (law_unpack_inverts_packb _ ML (VBin header_bytes) double _ eq_refl Ed).
  cbn [bind]. rewrite Ehh. cbn [bind unpackb].
  assert (Hhp : plain (header_of v 0 ephemeral_public sender_secretbox pairs) = true)
    by (unfold header_of; cbn [plain forallb]; rewrite Hplain; reflexivity).
  pose proof (law_unpack_inverts_packb _ ML _ header_bytes [] Hhp Ehb) as Hh.
  rewrite app_nil_r in Hh. rewrite Hh. cbn [bind].
  unfold json_repr, header_of. cbn [json_serialisable forallb]. rewrite Hjson. cbn [andb bind].
  cbn [unpack_at_least unpack_exactly py_iter bind List.length Nat.leb Nat.eqb nth].
  rewrite Hk. reflexivity.
Qed.

End HeaderOfEncrypt.

(** The recipient pairs, slot by slot. *)
Lemma recipient_pairs_loop_nth {C : Crypto} payload_key ephemeral_private visible major_version
    recipients : forall i0 pairs,
  recipient_pairs_loop payload_key ephemeral_private visible major_version i0 recipients
    = Ok pairs ->
  List.length pairs = List.length recipients /\
  forall i R, nth_error recipients i = Some R ->
    exists nonce box,
      payload_key_nonce (VInt major_version) (i0 + i) = Ok nonce /\
      crypto_box payload_key nonce (VBin R) ephemeral_private = Ok box /\
      nth_error pairs i = Some (VArray [if visible then VBin R else VNil; VBin box]).
Proof.
  induction recipients as [|R0 recipients IH]; intros i0 pairs H.
  - apply Ok_inj in H. subst pairs. split; [reflexivity|]. intros [|i] R E; discriminate.
  - cbn [recipient_pairs_loop] in H. inv_bind H as nonce En. inv_bind H as box Eb.
    inv_bind H as rest Er. apply Ok_inj in H. subst pairs.
    destruct (IH _ _ Er) as [L Hnth]. split; [cbn [List.length]; rewrite L; reflexivity|].
    intros [|i] R E.
    + injection E as ->. exists nonce, box. rewrite Nat.add_0_r.
      repeat split; try assumption. destruct visible; reflexivity.
    + cbn [nth_error] in E |- *. destruct (Hnth i R E) as (n & b & H1 & H2 & H3).
      exists n, b. rewrite <- Nat.add_succ_comm. auto.
Qed.

(** When every payload key box is rejected, no recipient is found. *)
Lemma find_recipient_rejects {C : Crypto} payload_key ephemeral_private visible major_version
    ephemeral_beforenm recipients : forall i0 pairs,
  recipient_pairs_loop payload_key ephemeral_private visible major_version i0 recipients
    = Ok pairs ->
  (forall i R, nth_error recipients i = Some R ->
     slot_rejects ephemeral_private payload_key major_version ephemeral_beforenm (i0 + i) R) ->
  find_recipient (VInt major_version) ephemeral_beforenm i0 pairs = Raise no_matching_recipient.
Proof.
  intros i0 pairs Hp Hrej.
  destruct (recipient_pairs_loop_nth _ _ _ _ _ _ _ Hp) as [L Hnth].
  apply find_recipient_none. intros i slot Hslot.
  destruct (nth_error recipients i) as [R|] eqn:ER.
  - destruct (Hnth i R ER) as (nonce & box & Hn & Hb & Hs).
    rewrite Hs in Hslot. injection Hslot as <-.
    exists [if visible then VBin R else VNil; VBin box], nonce.
    split; [reflexivity|]. split; [exact Hn|]. apply (Hrej i R ER nonce box Hn Hb).
  - apply nth_error_None in ER. assert (nth_error pairs i <> None) by congruence.
    apply nth_error_Some in H. lia.
Qed.

(** [decrypt] with a key under which every payload key box is rejected. *)
Lemma decrypt_by_stranger {M : Umsgpack} {C : Crypto}
    (ML : UmsgpackLaws M) (CL : CryptoLaws C)
    (sender_private : bytes) (recipients : list bytes) (message : bytes) (chunk_size : Z)
    (visible_recipients : bool) (major_version : option Z)
    (ephemeral_private payload_key ciphertext : bytes)
    (other_private other_public : bytes) :
  encrypt sender_private recipients message chunk_size visible_recipients major_version
    ephemeral_private payload_key = Ok ciphertext ->
  keypair C other_private other_public ->
  (forall i R ephemeral_public k,
      nth_error recipients i = Some R ->
      keypair C ephemeral_private ephemeral_public ->
      crypto_box_beforenm (VBin ephemeral_public) other_private = Ok k ->
      slot_rejects ephemeral_private payload_key (given_version major_version) k i R) ->
  decrypt ciphertext other_private = Raise no_matching_recipient.
Proof.
  intros Henc Hk Hrej.
  assert (He : exists ephemeral_public, keypair C ephemeral_private ephemeral_public).
  { apply encrypt_iff in Henc.
    destruct Henc as (sp & ep & ssb & pairs & minor & hb & hh & double & mk & chunks & ps & pbs & H).
    cbv zeta in H. exists ep. apply H. }
  destruct He as (ephemeral_public & He).
  destruct (law_beforenm _ CL _ _ _ _ He Hk) as (k & Ek).
  destruct (parse_header_of_encrypt ML _ _ _ _ _ _ _ _ _ _ _ _ Henc He Ek)
    as (header_hash & ssb & pairs & stream & Hv & Hp & Hh).
  rewrite (decrypt_after_parse _ _ _ Hh).
  cbn [hdr_hash hdr_format_name hdr_major_version hdr_mode hdr_ephemeral_public
       hdr_sender_secretbox hdr_recipient_pairs hdr_ephemeral_beforenm hdr_stream].
  assert (Hcheck : check_header (VStr (str "saltpack")) (VInt (given_version major_version))
                     (VInt 0) = Ok tt).
  { unfold check_header. destruct Hv as [-> | ->]; reflexivity. }
  rewrite Hcheck. cbn [bind]. unfold decrypt_checked. cbn [py_iter bind].
  rewrite (find_recipient_rejects _ _ _ _ _ _ _ _ Hp); [reflexivity|].
  intros i R HR. apply (Hrej i R ephemeral_public k HR He Ek).
Qed.

(** ** The packet loop of [decrypt], packet by packet *)

Lemma to_bytes_Ok8 n b :
  to_bytes n 8 = Ok b -> (N.of_nat n < 2 ^ 64)%N /\ b = u64be n.
Proof.
  unfold to_bytes, u64be. destruct (N.ltb_spec (N.of_nat n) (256 ^ N.of_nat 8)); [|discriminate].
  intros E. apply Ok_inj in E. split; [exact H|auto].
Qed.

Lemma bytes_eqb_true_iff (a b : bytes) : bytes_eqb a b = true <-> a = b.
Proof. split; [apply bytes_eqb_eq|intros ->; apply bytes_eqb_refl]. Qed.

Lemma unpack_at_least_Ok n v items :
  unpack_at_least n v = Ok items <-> py_iter v = Ok items /\ (n <= List.length items)%nat.
Proof.
  unfold unpack_at_least. split.
  - intros H. inv_bind H as items' E. destruct (Nat.leb_spec n (List.length items')); [|discriminate].
    apply Ok_inj in H. subst items'. auto.
  - intros [-> H]. cbn [bind]. destruct (Nat.leb_spec n (List.length items)); [reflexivity|lia].
Qed.

Lemma bytes_add_Ok b v r : bytes_add b v = Ok r <-> exists b', v = VBin b' /\ r = b ++ b'.
Proof.
  unfold bytes_add. split.
  - destruct v; try discriminate. intros H. apply Ok_inj in H. eauto.
  - intros (b' & -> & ->). reflexivity.
Qed.

Lemma compare_digest_Ok a b r :
  compare_digest a b = Ok r <-> exists a', a = VBin a' /\ r = bytes_eqb a' b.
Proof.
  unfold compare_digest. split.
  - destruct a; try discriminate. intros H. apply Ok_inj in H. eauto.
  - intros (a' & -> & ->). reflexivity.
Qed.

(** The items that [decrypt_packet] takes from a packet. *)
Lemma decrypt_packet_items {C : Crypto} major_version header_hash mac_key payload_key
    recipient_index packet chunknum :
  decrypt_packet major_version header_hash mac_key payload_key recipient_index packet chunknum =
  (_ <- json_repr packet ;;
   items <- unpack_at_least (authenticators_position major_version + 2) packet ;;
   let k := authenticators_position major_version in
   hash_authenticator <- py_getitem (nth k items VNil) recipient_index ;;
   chunknum_bytes <- to_bytes chunknum 8 ;;
   let payload_nonce := PAYLOAD_NONCE_PREFIX ++ chunknum_bytes in
   to_hash <- bytes_add (header_hash ++ payload_nonce ++ packet_final_flag_byte major_version items)
                (nth (k + 1) items VNil) ;;
   payload_hash <- crypto_hash (VBin to_hash) ;;
   equal <- compare_digest hash_authenticator (authenticator mac_key payload_hash) ;;
   if negb equal then Raise HMACError
   else
     chunk <- crypto_secretbox_open (nth (k + 1) items VNil) payload_nonce payload_key ;;
     Ok (chunk, is_empty chunk || py_truthy (packet_final_flag major_version items))).
Proof.
  unfold decrypt_packet, authenticators_position, packet_final_flag_byte, packet_final_flag.
  destruct (json_repr packet); try reflexivity. cbn [bind].
  destruct (py_eq_int major_version 1); cbn [Nat.add];
    destruct (unpack_at_least _ packet); reflexivity.
Qed.

Lemma decrypt_packet_stop_flag {C : Crypto} major_version header_hash mac_key payload_key
    recipient_index packet chunknum chunk stop :
  decrypt_packet major_version header_hash mac_key payload_key recipient_index packet chunknum
    = Ok (chunk, stop) ->
  exists items,
    py_iter packet = Ok items /\
    stop = is_empty chunk || py_truthy (packet_final_flag major_version items).
Proof.
  rewrite decrypt_packet_items. cbv zeta. intros H.
  inv_bind H as u Ej. inv_bind H as items Ei. inv_bind H as auth Ea.
  inv_bind H as nb En. inv_bind H as to_hash Eh. inv_bind H as ph Ep. inv_bind H as eq Ec.
  destruct (negb eq); [discriminate|]. inv_bind H as chunk' Eo. apply Ok_inj in H.
  injection H as <- <-. apply unpack_at_least_Ok in Ei. exists items. split; [apply Ei|reflexivity].
Qed.

(** ** The packet loop ends *)

Lemma decrypt_packets_fuel {M : Umsgpack} {C : Crypto} (MC : unpack_consumes M) fuel :
  forall fuel' major_version header_hash mac_key payload_key recipient_index stream output
         chunknum,
  (List.length stream < fuel)%nat -> (List.length stream < fuel')%nat ->
  decrypt_packets fuel major_version header_hash mac_key payload_key recipient_index
    stream output chunknum
  = decrypt_packets fuel' major_version header_hash mac_key payload_key recipient_index
      stream output chunknum.
Proof.
  induction fuel as [|fuel IH]; intros fuel' v hh mk pk idx stream output n Hf Hf'; [lia|].
  destruct fuel' as [|fuel']; [lia|]. cbn [decrypt_packets].
  destruct (unpack stream) as [[packet stream']| |] eqn:Eu; cbn [bind]; try reflexivity.
  apply MC in Eu.
  destruct (decrypt_packet v hh mk pk idx packet n) as [[chunk stop]| |]; cbn [bind];
    try reflexivity.
  destruct stop; [reflexivity|]. apply IH; lia.
Qed.

(** ** The command line *)

Lemma hex_digit_char upper d : (d < 16)%N -> hex_digit (hex_char upper d) = Some d.
Proof.
  intros H. unfold hex_char, hex_digit.
  destruct (N.ltb_spec d 10).
  - replace ((48 <=? 48 + d) && (48 + d <=? 57))%N with true
      by (symmetry; apply andb_true_iff; split; apply N.leb_le; lia).
    f_equal. lia.
  - destruct upper.
    + replace ((48 <=? 55 + d) && (55 + d <=? 57))%N with false
        by (symmetry; apply andb_false_iff; right; apply N.leb_gt; lia).
      replace ((97 <=? 55 + d) && (55 + d <=? 102))%N with false
        by (symmetry; apply andb_false_iff; left; apply N.leb_gt; lia).
      replace ((65 <=? 55 + d) && (55 + d <=? 70))%N with true
        by (symmetry; apply andb_true_iff; split; apply N.leb_le; lia).
      f_equal. lia.
    + replace ((48 <=? 87 + d) && (87 + d <=? 57))%N with false
        by (symmetry; apply andb_false_iff; right; apply N.leb_gt; lia).
      replace ((97 <=? 87 + d) && (87 + d <=? 102))%N with true
        by (symmetry; apply andb_true_iff; split; apply N.leb_le; lia).
      f_equal. lia.
Qed.

Lemma unhexlify_hexlify upper (b : bytes) : unhexlify (hexlify upper b) = Ok b.
Proof.
  induction b as [|x b IH]; [reflexivity|].
  unfold hexlify in *. cbn [flat_map app unhexlify].
  pose proof (ToyFacts.to_N_lt x) as Hx.
  rewrite !hex_digit_char.
  - rewrite IH. cbn [bind]. f_equal. f_equal.
    rewrite <- (N.div_mod' (Byte.to_N x) 16). apply ToyFacts.byte_of_N_to_N.
  - apply N.mod_lt. lia.
  - apply N.Div0.div_lt_upper_bound. lia.
Qed.

(** Induction on a str two characters at a time. *)
Lemma pairs_ind (P : pystr -> Prop) :
  P [] -> (forall c, P [c]) -> (forall high low rest, P rest -> P (high :: low :: rest)) ->
  forall s, P s.
Proof.
  intros H0 H1 H2.
  refine (fix F (s : pystr) : P s :=
            match s with
            | [] => H0
            | [c] => H1 c
            | high :: low :: rest => H2 high low rest (F rest)
            end).
Qed.

Lemma unhexlify_length s : forall b,
  unhexlify s = Ok b -> List.length s = (2 * List.length b)%nat.
Proof.
  induction s as [|c|h l rest IH] using pairs_ind; intros b H.
  - apply Ok_inj in H. subst b. reflexivity.
  - discriminate.
  - cbn [unhexlify] in H. destruct (hex_digit h); [|discriminate].
    destruct (hex_digit l); [|discriminate]. inv_bind H as b' E. apply Ok_inj in H. subst b.
    apply IH in E. cbn [List.length]. lia.
Qed.

Lemma get_private_given args hex :
  arg_private args = Some hex -> hex <> [] ->
  get_private args =
  (private <- unhexlify hex ;; if len private =? 32 then Ok private else Raise AssertionError).
Proof. unfold get_private. intros -> H. destruct hex; [contradiction|reflexivity]. Qed.

Lemma get_private_len args private : get_private args = Ok private -> len private = 32.
Proof.
  unfold get_private, if_given. destruct (arg_private args) as [[|c s]|].
  - intros H. apply Ok_inj in H. subst private. reflexivity.
  - intros H. inv_bind H as k E. destruct (Z.eqb_spec (len k) 32); [|discriminate].
    apply Ok_inj in H. subst k. assumption.
  - intros H. apply Ok_inj in H. subst private. reflexivity.
Qed.

Lemma unhexlify_raises s : forall e, unhexlify s = Raise e -> e = ValueError.
Proof.
  induction s as [|c|h l rest IH] using pairs_ind; intros e; cbn [unhexlify].
  - discriminate.
  - intros H. injection H as <-. reflexivity.
  - destruct (hex_digit h); [|intros H; injection H as <-; reflexivity].
    destruct (hex_digit l); [|intros H; injection H as <-; reflexivity].
    destruct (unhexlify rest) as [b| |] eqn:E; cbn [bind]; try discriminate.
    intros H. injection H as <-. apply IH. reflexivity.
Qed.

Lemma hexlify_nonempty upper (b : bytes) : b <> [] -> hexlify upper b <> [].
Proof. destruct b; [contradiction|discriminate]. Qed.

Lemma recipients_loop_hexlify upper (keys : list bytes) :
  Forall (fun key => len key = 32) keys ->
  recipients_loop (map (hexlify upper) keys) = Ok keys.
Proof.
  induction 1 as [|key keys Hk _ IH]; [reflexivity|].
  cbn [map recipients_loop]. rewrite unhexlify_hexlify. cbn [bind]. rewrite Hk.
  cbn [Z.eqb Pos.eqb]. rewrite IH. reflexivity.
Qed.

Lemma recipients_loop_Ok hexes : forall recipients,
  recipients_loop hexes = Ok recipients ->
  List.length recipients = List.length hexes /\
  Forall (fun key => len key = 32) recipients /\
  Forall2 (fun hex key => unhexlify hex = Ok key) hexes recipients.
Proof.
  induction hexes as [|hex hexes IH]; intros recipients H.
  - apply Ok_inj in H. subst recipients. repeat constructor.
  - cbn [recipients_loop] in H. inv_bind H as key Ek.
    destruct (Z.eqb_spec (len key) 32) as [Hk|]; [|discriminate].
    inv_bind H as rest Er. apply Ok_inj in H. subst recipients.
    destruct (IH _ Er) as (L & F & F2). cbn [List.length]. rewrite L.
    repeat split; constructor; assumption.
Qed.

Section CommandLineRoundTrip.
Context {M : Umsgpack} {C : Crypto} {R : Runtime}.
Hypothesis ML : UmsgpackLaws M.
Hypothesis MF : UmsgpackFormat M.
Hypothesis CL : CryptoLaws C.
Hypothesis CS : CryptoSizes C.
Hypothesis RL : dearmor_inverts_armor R.

(** What [do_encrypt] writes for a private key, recipients and parsed
    options that [encrypt] accepts. *)
Lemma do_encrypt_output args stdin ephemeral_private payload_key
    encoded_message sender chunk_size major_version recipients :
  encoded_message_of args stdin = Ok encoded_message ->
  get_private args = Ok sender ->
  chunk_size_of args = Ok chunk_size ->
  major_version_of args = Ok major_version ->
  get_recipients args = Ok recipients ->
  do_encrypt args stdin ephemeral_private payload_key =
  (output <- encrypt sender recipients encoded_message chunk_size (arg_visible args)
               major_version ephemeral_private payload_key ;;
   if negb (arg_binary args) then armor_output output else Ok output).
Proof.
  intros H1 H2 H3 H4 H5. unfold do_encrypt. rewrite H1. cbn [bind]. rewrite H2. cbn [bind].
  rewrite H3. cbn [bind]. rewrite H4. cbn [bind]. rewrite H5. reflexivity.
Qed.

(** [do_decrypt] undoes [do_encrypt] for the holder of the private key of
    recipient [j], when the payload key boxes before [j] are rejected. *)
Lemma do_decrypt_do_encrypt args args' stdin ephemeral_private payload_key
    encoded_message sender chunk_size major_version recipients recipient_private j :
  encoded_message_of args stdin = Ok encoded_message ->
  get_private args = Ok sender ->
  chunk_size_of args = Ok chunk_size ->
  major_version_of args = Ok major_version ->
  get_recipients args = Ok recipients ->
  arg_binary args' = arg_binary args ->
  get_private args' = Ok recipient_private ->
  (exists recipient_public,
     keypair C recipient_private recipient_public /\
     nth_error recipients j = Some recipient_public) ->
  (forall i R' ephemeral_public k,
      (i < j)%nat -> nth_error recipients i = Some R' ->
      keypair C ephemeral_private ephemeral_public ->
      crypto_box_beforenm (VBin ephemeral_public) recipient_private = Ok k ->
      slot_rejects ephemeral_private payload_key (given_version major_version) k i R') ->
  len ephemeral_private = 32 -> len payload_key = 32 ->
  Forall is_public_key recipients -> len recipients < 2 ^ 24 ->
  given_version major_version = 1 \/ given_version major_version = 2 ->
  0 < chunk_size -> 16 + Z.min chunk_size (len encoded_message) < 2 ^ 32 ->
  len encoded_message < 2 ^ 64 ->
  exists output,
    do_encrypt args stdin ephemeral_private payload_key = Ok output /\
    do_decrypt args' output = Ok encoded_message.
Proof.
  intros H1 H2 H3 H4 H5 Hb Hp' (recipient_public & Hk & Hj) Hrej He Hpk HR Hn Hv HS Hc Hm.
  pose proof (get_private_len _ _ H2) as Hs.
  destruct (encrypt_succeeds_size MF CS sender recipients encoded_message chunk_size
              (arg_visible args) major_version ephemeral_private payload_key
              Hs He Hpk HR Hn Hv HS Hc Hm) as (ciphertext & chunks & _ & Henc & _).
  pose proof (decrypt_encrypt ML CL _ _ _ _ _ _ _ _ _ _ _ _ [] Henc Hk Hj Hrej) as Hdec.
  rewrite app_nil_r in Hdec.
  rewrite (do_encrypt_output _ _ _ _ _ _ _ _ _ H1 H2 H3 H4 H5). rewrite Henc. cbn [bind].
  unfold do_decrypt. rewrite Hb. destruct (arg_binary args); cbn [negb].
  - exists ciphertext. split; [reflexivity|]. cbn [bind]. rewrite Hp'. cbn [bind]. exact Hdec.
  - destruct (RL ciphertext) as (a & Ha & Hd). exists a. split; [exact Ha|].
    rewrite Hd. cbn [bind]. rewrite Hp'. cbn [bind]. exact Hdec.
Qed.

End CommandLineRoundTrip.

(** ** The test suite *)

Lemma len_long_message : len long_message = 120000.
Proof. vm_compute. reflexivity. Qed.

Section TestPasses.

Context {M : Umsgpack} {C : Crypto}.
Hypothesis ML : UmsgpackLaws M.
Hypothesis MF : UmsgpackFormat M.
Hypothesis CL : CryptoLaws C.
Hypothesis CS : CryptoSizes C.
Variable urandom : nat -> bytes.

Lemma assertNotEqual_len (a b : bytes) : len a <> len b -> assertNotEqual a b = Ok tt.
Proof.
  intros H. unfold assertNotEqual. destruct (bytes_eqb a b) eqn:E; [|reflexivity].
  apply bytes_eqb_eq in E. subst a. contradiction.
Qed.

Lemma check_version_passes message chunk_size R1 R2 major_version calls :
  keypair C (repeat x01 32) R1 -> len R1 = 32 ->
  keypair C (repeat x01 31 ++ [x00]) R2 -> len R2 = 32 ->
  major_version = 1 \/ major_version = 2 ->
  0 < chunk_size -> 16 + Z.min chunk_size (len message) < 2 ^ 32 -> len message < 2 ^ 64 ->
  len (urandom calls) = 32 -> len (urandom (S calls)) = 32 ->
  test_keys_rejected (urandom calls) (urandom (S calls)) ->
  check_version urandom message chunk_size (repeat x00 32)
    [repeat x01 32; repeat x01 31 ++ [x00]] [R1; R2] major_version calls
  = Ok (S (S calls)).
Proof.
  intros H1 L1 H2 L2 Hv HS Hc Hm He Hp Hrej.
  destruct (Hrej major_version R1 R2 Hv H1 H2) as (Hr21 & Hrs1 & Hrs2).
  assert (HR : Forall is_public_key [R1; R2]).
  { repeat constructor.
    - exists (repeat x01 32). split; [reflexivity|exact H1].
    - exists (repeat x01 31 ++ [x00]). split; [reflexivity|exact H2]. }
  destruct (encrypt_succeeds_size MF CS (repeat x00 32) [R1; R2] message chunk_size false
              (Some major_version) (urandom calls) (urandom (S calls))
              eq_refl He Hp HR ltac:(cbn; lia) Hv HS Hc Hm)
    as (encrypted & chunks & Hchunks & Henc & L).
  assert (Hlonger : len encrypted <> len message).
  { destruct (chunks_loop_wellformed _ _ _ _ Hchunks) as (_ & _ & Hcat).
    pose proof (ciphertext_size_lower (given_version (Some major_version)) false
                  (len [R1; R2]) (map (fun t => len (chunk_bytes t)) chunks)
                  ltac:(cbn; lia)) as Hlow.

    assert (Hsum : fold_right Z.add 0 (map (fun t => len (chunk_bytes t)) chunks) = len message).
    { rewrite <- Hcat. rewrite len_concat, map_map. reflexivity. }
    rewrite Hsum in Hlow.
    pose proof (header_size_bound false (len [R1; R2]) ltac:(cbn; lia)).
    enough (Forall (fun l => 0 <= l) (map (fun t => len (chunk_bytes t)) chunks))
      by (specialize (Hlow H0); lia).
    apply Forall_forall. intros l Hl. apply in_map_iff in Hl. destruct Hl as (t & <- & _).
    apply len_nonneg. }
  unfold check_version. rewrite Henc. cbn [bind for_each]. unfold check_recipient.
  pose proof (decrypt_encrypt ML CL _ _ _ _ _ _ _ _ _ _ _ 0%nat [] Henc H1 eq_refl) as D1.
  rewrite app_nil_r in D1. rewrite D1 by (intros; lia). cbn [bind].
  unfold assertEqual. rewrite bytes_eqb_refl. cbn [bind].
  rewrite (assertNotEqual_len _ _ Hlonger). cbn [bind].
  pose proof (decrypt_encrypt ML CL _ _ _ _ _ _ _ _ _ _ _ 1%nat [] Henc H2 eq_refl) as D2.
  rewrite app_nil_r in D2. rewrite D2.
  2:{ intros i R' ep k Hi HR' Hk Hb. assert (i = 0%nat) by lia. subst i.
      injection HR' as <-. apply (Hr21 ep k Hk Hb). }
  cbn [bind]. rewrite bytes_eqb_refl. cbn [bind].
  assert (Hz : exists Z0, keypair C (repeat x00 32) Z0)
    by (destruct (law_scalarmult_base _ CS (repeat x00 32) eq_refl) as (Z0 & HZ & _); eauto).
  destruct Hz as (Z0 & HZ).
  rewrite (decrypt_by_stranger ML CL _ _ _ _ _ _ _ _ _ _ _ Henc HZ).
  - reflexivity.
  - intros i R' ep k HR' Hk Hb. destruct i as [|[|i]]; cbn [nth_error] in HR'.
    + injection HR' as <-. apply (Hrs1 ep k Hk Hb).
    + injection HR' as <-. apply (Hrs2 ep k Hk Hb).
    + destruct i; discriminate.
Qed.

Lemma check_chunk_size_passes message chunk_size calls :
  0 < chunk_size -> 16 + Z.min chunk_size (len message) < 2 ^ 32 -> len message < 2 ^ 64 ->
  (forall k, (k < 4)%nat -> len (urandom (calls + k)) = 32) ->
  test_keys_rejected (urandom calls) (urandom (S calls)) ->
  test_keys_rejected (urandom (S (S calls))) (urandom (S (S (S calls)))) ->
  check_chunk_size urandom message chunk_size calls = Ok (4 + calls)%nat.
Proof.
  intros HS Hc Hm Hlen Hr1 Hr2. unfold check_chunk_size. cbn [public_keys].
  destruct (law_scalarmult_base _ CS (repeat x01 32) eq_refl) as (R1 & H1 & L1).
  destruct (law_scalarmult_base _ CS (repeat x01 31 ++ [x00]) eq_refl) as (R2 & H2 & L2).
  unfold keypair in H1, H2. rewrite H1. cbn [bind]. rewrite H2. cbn [bind for_each].
  pose proof (Hlen 0%nat ltac:(lia)) as E0. pose proof (Hlen 1%nat ltac:(lia)) as E1.
  pose proof (Hlen 2%nat ltac:(lia)) as E2. pose proof (Hlen 3%nat ltac:(lia)) as E3.
  rewrite Nat.add_0_r in E0. rewrite Nat.add_1_r in E1.
  replace (calls + 2)%nat with (S (S calls)) in E2 by lia.
  replace (calls + 3)%nat with (S (S (S calls))) in E3 by lia.
  rewrite (check_version_passes message chunk_size R1 R2 1 calls); auto.
  cbn [bind].
  rewrite (check_version_passes message chunk_size R1 R2 2 (S (S calls))); auto.
Qed.

End TestPasses.

(** * Further properties of the code *)

(** X1.  The nonce of a payload key box.  For major version 1 it is the
    constant "saltpack_payload_key_box" whatever the recipient index; for any
    other version it is "saltpack_recipsb" followed by the 8-byte big-endian
    recipient index, and an index of 2^64 or more raises [OverflowError].
    Every nonce returned has 24 bytes, and outside version 1 two recipient
    indices never share a nonce. *)
Theorem payload_key_nonce_contract (version : value) (i : nat) :
  (py_eq_int version 1 = true -> payload_key_nonce version i = Ok PAYLOAD_KEY_BOX_NONCE_V1) /\
  (py_eq_int version 1 = false -> (N.of_nat i < 2 ^ 64)%N ->
   payload_key_nonce version i = Ok (PAYLOAD_KEY_BOX_NONCE_PREFIX_V2 ++ u64be i)) /\
  (py_eq_int version 1 = false -> (2 ^ 64 <= N.of_nat i)%N ->
   payload_key_nonce version i = Raise OverflowError) /\
  (forall nonce, payload_key_nonce version i = Ok nonce -> len nonce = 24) /\
  (forall j nonce, py_eq_int version 1 = false ->
     payload_key_nonce version i = Ok nonce -> payload_key_nonce version j = Ok nonce ->
     i = j).
Proof.
  unfold payload_key_nonce. repeat split.
  - intros ->. reflexivity.
  - intros -> H. rewrite to_bytes_u64be by assumption. reflexivity.
  - intros -> H. rewrite to_bytes_overflow by exact H. reflexivity.
  - intros nonce. destruct (py_eq_int version 1).
    + intros E. apply Ok_inj in E. subst nonce. reflexivity.
    + intros E. inv_bind E as b Eb. apply Ok_inj in E. subst nonce.
      apply to_bytes_Ok in Eb. destruct Eb as [_ ->].
      rewrite len_app. unfold len at 2. rewrite be_bytes_length. reflexivity.
  - intros j nonce ->. intros Ei Ej.
    inv_bind Ei as bi Ebi. inv_bind Ej as bj Ebj.
    apply Ok_inj in Ei, Ej. subst nonce. apply app_inv_head in Ej.
    apply to_bytes_Ok in Ebi, Ebj. destruct Ebi as [Hi ->], Ebj as [Hj ->].
    apply be_bytes_inj in Ej; [lia|assumption|assumption].
Qed.

(** X2.  [chunks_with_empty], for a chunk size greater than zero, returns
    [ceil(len/chunk_size)] chunks followed by one empty chunk: the chunks put
    end to end are the message, each has between 1 and [chunk_size] bytes,
    and every chunk but the last of them has exactly [chunk_size]. *)
Theorem chunks_with_empty_contract (message : bytes) (chunk_size : Z) :
  0 < chunk_size ->
  exists chunks,
    chunks_with_empty message chunk_size = Ok (chunks ++ [[]]) /\
    List.concat chunks = message /\
    List.length chunks = Z.to_nat (ceil_div (len message) chunk_size) /\
    Forall (fun chunk => 0 < len chunk <= chunk_size) chunks /\
    (forall i, (i + 1 < List.length chunks)%nat -> len (nth i chunks []) = chunk_size).
Proof.
  intros HS. exists (spec_chunks message chunk_size).
  split; [apply chunks_with_empty_closed; assumption|].
  split; [apply concat_spec_chunks; assumption|].
  assert (L : List.length (spec_chunks message chunk_size)
              = Z.to_nat (ceil_div (len message) chunk_size))
    by (unfold spec_chunks; rewrite length_map, length_seq; reflexivity).
  split; [exact L|]. split; [apply spec_chunks_bounds; assumption|].
  intros i Hi.
  assert (Hi' : (i + 1 < Z.to_nat (ceil_div (len message) chunk_size))%nat)
    by (rewrite <- L; exact Hi).
  unfold spec_chunks.
  rewrite (nth_indep _ [] (nth_chunk message chunk_size 0))
    by (rewrite length_map, length_seq; lia).
  rewrite map_nth, seq_nth by lia. cbn [Nat.add].
  apply (nth_chunk_len message chunk_size i HS); lia.
Qed.

Lemma chunks_with_empty_contract_witness :
  exists chunks,
    chunks_with_empty Example.message 3 = Ok (chunks ++ [[]]) /\
    List.concat chunks = Example.message /\
    List.length chunks = Z.to_nat (ceil_div (len Example.message) 3) /\
    Forall (fun chunk => 0 < len chunk <= 3) chunks /\
    (forall i, (i + 1 < List.length chunks)%nat -> len (nth i chunks []) = 3).
Proof. apply (chunks_with_empty_contract Example.message 3). lia. Defined.

(** X3.  A chunk size of zero or less.  [chunks_loop] raises
    [AssertionError], for every message and major version.
    [chunks_with_empty] has no such check: it returns the single empty chunk
    for the empty message, and for any other message its loop never ends
    (no amount of fuel lets it return). *)
Theorem nonpositive_chunk_size (message : bytes) (chunk_size : Z) :
  chunk_size <= 0 ->
  (forall major_version, chunks_loop message chunk_size major_version = Raise AssertionError) /\
  chunks_with_empty [] chunk_size = Ok [[]] /\
  (message <> [] ->
   chunks_with_empty message chunk_size = Diverge /\
   forall fuel, chunks_with_empty_while fuel message chunk_size 0 [] = Diverge).
Proof.
  intros HS. split; [|split].
  - intros v. unfold chunks_loop. destruct (Z.ltb_spec 0 chunk_size); [lia|reflexivity].
  - reflexivity.
  - intros Hm.
    assert (0 < len message) by (destruct message; [contradiction|unfold len; cbn; lia]).
    split; [unfold chunks_with_empty|intros fuel];
      apply chunks_with_empty_while_loops; assumption.
Qed.

Lemma nonpositive_chunk_size_witness :
  chunks_loop Example.message 0 2 = Raise AssertionError /\
  chunks_with_empty Example.message 0 = Diverge.
Proof.
  destruct (nonpositive_chunk_size Example.message 0 ltac:(lia)) as (H1 & _ & H3).
  split; [apply H1|]. apply H3. discriminate.
Defined.

(** X4.  [encrypt] returns a ciphertext only for major version 1 or 2 and a
    chunk size greater than zero.  With 32-byte keys and draws and recipients
    that are public keys, a major version other than 1 and 2 raises
    [KeyError] (the lookup in [CURRENT_MINOR_VERSIONS]), and for version 1 or
    2 a chunk size of zero or less raises [AssertionError] (the check of
    [chunks_loop]). *)
Theorem encrypt_argument_errors {M : Umsgpack} {C : Crypto}
    (sender_private : bytes) (recipients : list bytes) (message : bytes) (chunk_size : Z)
    (visible_recipients : bool) (major_version : option Z)
    (ephemeral_private payload_key : bytes) :
  (forall ciphertext,
     encrypt sender_private recipients message chunk_size visible_recipients major_version
       ephemeral_private payload_key = Ok ciphertext ->
     (given_version major_version = 1 \/ given_version major_version = 2) /\ 0 < chunk_size) /\
  (UmsgpackFormat M -> CryptoSizes C ->
   len sender_private = 32 -> len ephemeral_private = 32 -> len payload_key = 32 ->
   Forall is_public_key recipients -> len recipients < 2 ^ 24 ->
   (given_version major_version <> 1 -> given_version major_version <> 2 ->
    encrypt sender_private recipients message chunk_size visible_recipients major_version
      ephemeral_private payload_key = Raise KeyError) /\
   (given_version major_version = 1 \/ given_version major_version = 2 -> chunk_size <= 0 ->
    encrypt sender_private recipients message chunk_size visible_recipients major_version
      ephemeral_private payload_key = Raise AssertionError)).
Proof.
  split.
  - intros ciphertext H. apply encrypt_iff in H.
    destruct H as (sp & ep & ssb & pairs & minor & hb & hh & double & mk & chunks & ps & pbs & H).
    cbv zeta in H. destruct H as (_ & _ & _ & _ & Hminor & _ & _ & _ & _ & Hchunks & _).
    split; [apply (CURRENT_MINOR_VERSIONS_Ok _ _ Hminor)|].
    unfold chunks_loop in Hchunks. destruct (Z.ltb_spec 0 chunk_size); [assumption|discriminate].
  - intros MF CS Hs He Hp HR Hn. split.
    + intros H1 H2. apply (encrypt_bad_version CS); assumption.
    + intros Hv HS.
      destruct (encrypt_to_chunks MF CS sender_private recipients visible_recipients
                  major_version ephemeral_private payload_key Hs He Hp HR Hn Hv)
        as (hh & mk & out & _ & _ & E).
      rewrite E. unfold chunks_loop. destruct (Z.ltb_spec 0 chunk_size); [lia|reflexivity].
Qed.

Lemma encrypt_argument_errors_witness :
  encrypt (M := Toy.msgpack) (C := Toy.crypto) Example.sender_private Example.recipients
    Example.message 3 false (Some 3) Example.ephemeral_private Example.payload_key
  = Raise KeyError.
Proof.
  refine (proj1 (proj2 (encrypt_argument_errors (M := Toy.msgpack) (C := Toy.crypto)
                          Example.sender_private Example.recipients Example.message 3 false
                          (Some 3) Example.ephemeral_private Example.payload_key)
                   ToyMsgpack.msgpack_format ToyFacts.crypto_sizes _ _ _ _ _) _ _).
  - vm_compute. reflexivity.
  - vm_compute. reflexivity.
  - vm_compute. reflexivity.
  - constructor; [|constructor; [|constructor]].
    + exists Example.recipient1_private. split; vm_compute; reflexivity.
    + exists Example.recipient2_private. split; vm_compute; reflexivity.
  - vm_compute. reflexivity.
  - vm_compute. discriminate.
  - vm_compute. discriminate.
Defined.

(** X5.  The size of a ciphertext.  With 32-byte keys and draws, recipients
    that are public keys, major version 1 or 2 and a chunk size greater than
    zero, [encrypt] returns a ciphertext whose length is the length of the
    packed header plus, for each chunk, the length of its packet; the chunk
    lengths add up to the length of the message.  So the ciphertext is longer
    than the message and the header together, and is never the message
    itself. *)
Theorem ciphertext_longer_than_message {M : Umsgpack} {C : Crypto}
    (MF : UmsgpackFormat M) (CS : CryptoSizes C)
    (sender_private : bytes) (recipients : list bytes) (message : bytes) (chunk_size : Z)
    (visible_recipients : bool) (major_version : option Z)
    (ephemeral_private payload_key : bytes) :
  len sender_private = 32 -> len ephemeral_private = 32 -> len payload_key = 32 ->
  Forall is_public_key recipients -> len recipients < 2 ^ 24 ->
  given_version major_version = 1 \/ given_version major_version = 2 ->
  0 < chunk_size -> 16 + Z.min chunk_size (len message) < 2 ^ 32 -> len message < 2 ^ 64 ->
  exists ciphertext chunk_lens,
    encrypt sender_private recipients message chunk_size visible_recipients major_version
      ephemeral_private payload_key = Ok ciphertext /\
    fold_right Z.add 0 chunk_lens = len message /\
    len ciphertext =
      ciphertext_size (given_version major_version) visible_recipients (len recipients)
        chunk_lens /\
    len message + header_size visible_recipients (len recipients) < len ciphertext /\
    ciphertext <> message.
Proof.
  intros Hs He Hp HR Hn Hv HS Hc Hm.
  destruct (encrypt_succeeds_size MF CS sender_private recipients message chunk_size
              visible_recipients major_version ephemeral_private payload_key
              Hs He Hp HR Hn Hv HS Hc Hm) as (ciphertext & chunks & Hchunks & Henc & L).
  destruct (chunks_loop_wellformed _ _ _ _ Hchunks) as (_ & _ & Hcat).
  exists ciphertext, (map (fun t => len (chunk_bytes t)) chunks).
  assert (Hsum : fold_right Z.add 0 (map (fun t => len (chunk_bytes t)) chunks) = len message).
  { rewrite <- Hcat. rewrite len_concat, map_map. reflexivity. }
  assert (Hlt : len message + header_size visible_recipients (len recipients) < len ciphertext).
  { rewrite L. unfold ciphertext_size.
    pose proof (packets_size_lower (given_version major_version) (len recipients)
                  (map (fun t => len (chunk_bytes t)) chunks) (len_nonneg _)) as Hlow.
    rewrite Hsum in Hlow.
    assert (0 < bin_header_size (header_size visible_recipients (len recipients)))
      by (unfold bin_header_size; repeat destruct (_ <? _); lia).
    enough (Forall (fun l => 0 <= l) (map (fun t => len (chunk_bytes t)) chunks))
      by (specialize (Hlow H0); lia).
    apply Forall_forall. intros l Hl. apply in_map_iff in Hl. destruct Hl as (t & <- & _).
    apply len_nonneg. }
  repeat split; try assumption.
  intros ->. pose proof (header_size_bound visible_recipients (len recipients)
                           ltac:(pose proof (len_nonneg recipients); lia)). lia.
Qed.

Lemma ciphertext_longer_than_message_witness :
  exists ciphertext chunk_lens,
    encrypt (M := Toy.msgpack) (C := Toy.crypto) Example.sender_private Example.recipients
      Example.message 3 true (Some 1) Example.ephemeral_private Example.payload_key
    = Ok ciphertext /\
    fold_right Z.add 0 chunk_lens = len Example.message /\
    len ciphertext = ciphertext_size (given_version (Some 1)) true (len Example.recipients)
                       chunk_lens /\
    len Example.message + header_size true (len Example.recipients) < len ciphertext /\
    ciphertext <> Example.message.
Proof.
  apply (ciphertext_longer_than_message ToyMsgpack.msgpack_format ToyFacts.crypto_sizes
           Example.sender_private Example.recipients Example.message 3 true (Some 1)
           Example.ephemeral_private Example.payload_key).
  - vm_compute. reflexivity.
  - vm_compute. reflexivity.
  - vm_compute. reflexivity.
  - constructor; [|constructor; [|constructor]].
    + exists Example.recipient1_private. split; vm_compute; reflexivity.
    + exists Example.recipient2_private. split; vm_compute; reflexivity.
  - vm_compute. reflexivity.
  - left. reflexivity.
  - vm_compute. reflexivity.
  - vm_compute. reflexivity.
  - vm_compute. reflexivity.
Defined.

(** X6.  A key that is not a recipient's.  When the payload key boxes of all
    the recipients are rejected under a private key, [decrypt] of a
    ciphertext of [encrypt] with that key raises the error "Failed to find
    matching recipient."; with no recipients at all, every key gets this
    error. *)
Theorem non_recipient_is_rejected {M : Umsgpack} {C : Crypto}
    (ML : UmsgpackLaws M) (CL : CryptoLaws C)
    (sender_private : bytes) (recipients : list bytes) (message : bytes) (chunk_size : Z)
    (visible_recipients : bool) (major_version : option Z)
    (ephemeral_private payload_key ciphertext : bytes)
    (other_private other_public : bytes) :
  encrypt sender_private recipients message chunk_size visible_recipients major_version
    ephemeral_private payload_key = Ok ciphertext ->
  keypair C other_private other_public ->
  (forall i R ephemeral_public k,
      nth_error recipients i = Some R ->
      keypair C ephemeral_private ephemeral_public ->
      crypto_box_beforenm (VBin ephemeral_public) other_private = Ok k ->
      slot_rejects ephemeral_private payload_key (given_version major_version) k i R) ->
  decrypt ciphertext other_private = Raise no_matching_recipient.
Proof.
  intros Henc Hk Hrej.
  exact (decrypt_by_stranger ML CL _ _ _ _ _ _ _ _ _ _ _ Henc Hk Hrej).
Qed.

Lemma non_recipient_is_rejected_witness :
  decrypt (M := Toy.msgpack) (C := Toy.crypto) Example.ciphertext_v1 Example.sender_private
  = Raise no_matching_recipient.
Proof.
  apply (non_recipient_is_rejected ToyMsgpack.msgpack_laws ToyFacts.crypto_laws
           Example.sender_private Example.recipients Example.message 3 false (Some 1)
           Example.ephemeral_private Example.payload_key Example.ciphertext_v1
           Example.sender_private (Example.public Example.sender_private)).
  - vm_compute. reflexivity.
  - vm_compute. reflexivity.
  - intros i R ephemeral_public k HR HE Hk n box Hn Hbox.
    vm_compute in HE. apply Ok_inj in HE. subst ephemeral_public.
    vm_compute in Hk. apply Ok_inj in Hk. subst k.
    destruct i as [|[|i]]; cbn [nth_error] in HR.
    + vm_compute in HR. injection HR as <-.
      vm_compute in Hn. apply Ok_inj in Hn. subst n.
      vm_compute in Hbox. apply Ok_inj in Hbox. subst box.
      vm_compute. reflexivity.
    + vm_compute in HR. injection HR as <-.
      vm_compute in Hn. apply Ok_inj in Hn. subst n.
      vm_compute in Hbox. apply Ok_inj in Hbox. subst box.
      vm_compute. reflexivity.
    + destruct i; discriminate.
Defined.

(** X7.  The recipient pairs of the header.  The loop of [encrypt] makes one
    pair per recipient, in order: the payload key sealed for the recipient
    with the ephemeral private key under the nonce of the recipient's index,
    preceded by the recipient's public key when [visible_recipients] is set
    and by [None] when it is not. *)
Theorem recipient_pairs_contract {C : Crypto}
    (payload_key ephemeral_private : bytes) (visible_recipients : bool) (major_version : Z)
    (recipient_public_keys : list bytes) (recipient_pairs : list value) :
  recipient_pairs_loop payload_key ephemeral_private visible_recipients major_version 0
    recipient_public_keys = Ok recipient_pairs ->
  List.length recipient_pairs = List.length recipient_public_keys /\
  forall i recipient_public, nth_error recipient_public_keys i = Some recipient_public ->
    exists nonce payload_key_box,
      payload_key_nonce (VInt major_version) i = Ok nonce /\
      crypto_box payload_key nonce (VBin recipient_public) ephemeral_private
        = Ok payload_key_box /\
      nth_error recipient_pairs i =
        Some (VArray [if visible_recipients then VBin recipient_public else VNil;
                      VBin payload_key_box]).
Proof. intros H. exact (recipient_pairs_loop_nth _ _ _ _ _ _ _ H). Qed.

Lemma recipient_pairs_contract_witness :
  exists recipient_pairs,
    recipient_pairs_loop (C := Toy.crypto) Example.payload_key Example.ephemeral_private false 2
      0 Example.recipients = Ok recipient_pairs /\
    List.length recipient_pairs = List.length Example.recipients.
Proof.
  eassert (H : recipient_pairs_loop (C := Toy.crypto) Example.payload_key
                 Example.ephemeral_private false 2 0 Example.recipients = Ok _)
    by (vm_compute; reflexivity).
  eexists. split; [exact H|].
  exact (proj1 (recipient_pairs_contract (C := Toy.crypto) Example.payload_key
                  Example.ephemeral_private false 2 Example.recipients _ H)).
Defined.

(** X8.  [decrypt] accepts a packet, returning its chunk, exactly when: the
    packet serialises for the debug output; it has the payload secretbox, a
    bytes object, after the authenticators (and, outside version 1, after the
    final flag); the chunk number fits 8 bytes; the authenticator at the
    recipient's index is the first 32 bytes of the HMAC-SHA512, under the MAC
    key, of the hash of header hash, payload nonce, final-flag byte and
    secretbox; and the secretbox opens to the chunk under the payload nonce
    and the payload key.  The loop ends with the packet when the chunk is
    empty or the final flag is true. *)
Theorem accepted_packet_is_authenticated {C : Crypto} major_version header_hash mac_key payload_key
    recipient_index packet chunknum chunk stop :
  decrypt_packet major_version header_hash mac_key payload_key recipient_index packet chunknum
    = Ok (chunk, stop) <->
  exists items payload_secretbox payload_hash,
    let k := authenticators_position major_version in
    let payload_nonce := PAYLOAD_NONCE_PREFIX ++ u64be chunknum in
    json_serialisable packet = true /\
    py_iter packet = Ok items /\ (k + 2 <= List.length items)%nat /\
    (N.of_nat chunknum < 2 ^ 64)%N /\
    nth (k + 1) items VNil = VBin payload_secretbox /\
    crypto_hash (VBin (header_hash ++ payload_nonce ++
                       packet_final_flag_byte major_version items ++ payload_secretbox))
      = Ok payload_hash /\
    py_getitem (nth k items VNil) recipient_index
      = Ok (VBin (authenticator mac_key payload_hash)) /\
    crypto_secretbox_open (VBin payload_secretbox) payload_nonce payload_key = Ok chunk /\
    stop = is_empty chunk || py_truthy (packet_final_flag major_version items).
Proof.
  rewrite decrypt_packet_items. cbv zeta. split.
  - intros H. inv_bind H as u Ej. inv_bind H as items Ei. inv_bind H as auth Ea.
    inv_bind H as nb En. inv_bind H as to_hash Eh. inv_bind H as ph Ep. inv_bind H as eq Ec.
    apply unpack_at_least_Ok in Ei. destruct Ei as [Ei Hlen].
    apply to_bytes_Ok8 in En. destruct En as [Hn ->].
    apply bytes_add_Ok in Eh. destruct Eh as (box & Ebox & ->).
    apply compare_digest_Ok in Ec. destruct Ec as (a & -> & ->).
    destruct (bytes_eqb a (authenticator mac_key ph)) eqn:Eeq; [|discriminate].
    apply bytes_eqb_eq in Eeq. subst a. cbn [negb] in H.
    inv_bind H as chunk' Eo. apply Ok_inj in H. injection H as <- <-.
    exists items, box, ph. rewrite Ebox in Eo.
    unfold json_repr in Ej. destruct (json_serialisable packet); [|discriminate].
    rewrite <- !app_assoc in Ep.
    repeat split; assumption.
  - intros (items & box & ph & Hj & Hi & Hlen & Hn & Hbox & Hh & Ha & Ho & ->).
    unfold json_repr. rewrite Hj. cbn [bind].
    rewrite (proj2 (unpack_at_least_Ok _ _ _) (conj Hi Hlen)). cbn [bind].
    rewrite Ha. cbn [bind]. rewrite to_bytes_u64be by assumption. cbn [bind].
    rewrite Hbox. cbn [bytes_add bind].
    match goal with
    | |- context [crypto_hash (VBin ?x)] =>
        match type of Hh with
        | crypto_hash (VBin ?y) = _ =>
            replace x with y by (rewrite <- !app_assoc; reflexivity)
        end
    end.
    rewrite Hh. cbn [bind].
    cbn [compare_digest bind]. rewrite bytes_eqb_refl. cbn [negb]. rewrite Ho. reflexivity.
Qed.

(** X9.  In version 1 decryption the packet loop ends with a packet exactly
    when its decrypted chunk is empty, and goes on to the next packet
    otherwise: a version 1 packet has no final flag. *)
Theorem v1_loop_termination {M : Umsgpack} {C : Crypto}
    (fuel : nat) (major_version : value) (header_hash mac_key payload_key : bytes)
    (recipient_index : nat) (stream : bytes) (packet : value) (stream' : bytes)
    (chunk : bytes) (stop : bool) (output : bytes) (chunknum : nat) :
  py_eq_int major_version 1 = true ->
  unpack stream = Ok (packet, stream') ->
  decrypt_packet major_version header_hash mac_key payload_key recipient_index
    packet chunknum = Ok (chunk, stop) ->
  decrypt_packets (S fuel) major_version header_hash mac_key payload_key recipient_index
    stream output chunknum =
  if is_empty chunk then Ok (output ++ chunk)
  else decrypt_packets fuel major_version header_hash mac_key payload_key recipient_index
         stream' (output ++ chunk) (S chunknum).
Proof.
  intros Hv Hu Hd. cbn [decrypt_packets]. rewrite Hu. cbn [bind]. rewrite Hd. cbn [bind].
  destruct (decrypt_packet_stop_flag _ _ _ _ _ _ _ _ _ Hd) as (items & _ & ->).
  unfold packet_final_flag. rewrite Hv. cbn [py_truthy]. rewrite orb_false_r. reflexivity.
Qed.

Lemma v1_loop_termination_witness :
  exists header_stream,
    decrypt_packets (M := Toy.msgpack) (C := Toy.crypto) 1 (VInt 1) Example.zero_hash zero32
      Example.payload_key 0 header_stream [] 0 = Ok [].
Proof.
  eassert (Hp : encrypt_chunks (M := Toy.msgpack) (C := Toy.crypto) Example.payload_key
                  Example.zero_hash [zero32] 1 [(0%nat, [], true)] [] = Ok _)
    by (vm_compute; reflexivity).
  match type of Hp with
  | _ = Ok ?s =>
      exists s;
      eassert (Hu : unpack (Umsgpack := Toy.msgpack) s = Ok (_, _)) by (vm_compute; reflexivity)
  end.
  match type of Hu with
  | _ = Ok (?p, _) =>
      eassert (Hd : decrypt_packet (C := Toy.crypto) (VInt 1)
                      Example.zero_hash zero32 Example.payload_key 0 p 0 = Ok (_, _))
        by (vm_compute; reflexivity)
  end.
  rewrite (v1_loop_termination (M := Toy.msgpack) (C := Toy.crypto) 0 (VInt 1)
             Example.zero_hash zero32 Example.payload_key 0 _ _ _ _ _ [] 0 eq_refl Hu Hd).
  reflexivity.
Defined.

(** X10.  Headers that [decrypt] cannot take apart, once the header bytes
    have been read, hashed and unpacked.  A header that [json_repr] cannot
    serialise raises [TypeError]; a header that is not iterable raises
    [TypeError]; one with fewer than six elements raises [ValueError]; one
    whose second element is not a pair raises the error of that unpacking;
    and an error of [crypto_box_beforenm] on the ephemeral public key is
    raised before the format name, the version and the mode are looked
    at. *)
Theorem malformed_header_errors {M : Umsgpack} {C : Crypto}
    (input recipient_private : bytes) (header_bytes : value) (stream header_hash : bytes)
    (header : value) :
  unpack input = Ok (header_bytes, stream) ->
  crypto_hash header_bytes = Ok header_hash ->
  unpackb header_bytes = Ok header ->
  (json_serialisable header = false -> decrypt input recipient_private = Raise TypeError) /\
  (json_serialisable header = true ->
   (py_iter header = Raise TypeError -> decrypt input recipient_private = Raise TypeError) /\
   (forall items, py_iter header = Ok items ->
      ((List.length items < 6)%nat -> decrypt input recipient_private = Raise ValueError) /\
      ((6 <= List.length items)%nat ->
       (forall e, unpack_exactly 2 (nth 1 items VNil) = Raise e ->
                  decrypt input recipient_private = Raise e) /\
       (forall version e,
          unpack_exactly 2 (nth 1 items VNil) = Ok version ->
          crypto_box_beforenm (nth 3 items VNil) recipient_private = Raise e ->
          decrypt input recipient_private = Raise e)))).
Proof.
  intros Hu Hh Hb. unfold decrypt, parse_header. rewrite Hu. cbn [bind]. rewrite Hh. cbn [bind].
  rewrite Hb. cbn [bind]. unfold json_repr. split.
  - intros ->. reflexivity.
  - intros ->. cbn [bind]. unfold unpack_at_least. split.
    + intros ->. reflexivity.
    + intros items ->. cbn [bind]. split.
      * intros Hlt. destruct (Nat.leb_spec 6 (List.length items)); [lia|reflexivity].
      * intros Hle. destruct (Nat.leb_spec 6 (List.length items)); [|lia]. cbn [bind]. split.
        -- intros e ->. reflexivity.
        -- intros version e -> ->. reflexivity.
Qed.

Lemma malformed_header_errors_witness :
  decrypt (M := Toy.msgpack) (C := Toy.crypto) Cases.short_header_input
    Example.recipient1_private = Raise ValueError.
Proof.
  eassert (Hu : unpack (Umsgpack := Toy.msgpack) Cases.short_header_input = Ok (_, _))
    by (vm_compute; reflexivity).
  match type of Hu with
  | _ = Ok (?hb, _) =>
      eassert (Hh : crypto_hash (Crypto := Toy.crypto) hb = Ok _) by (vm_compute; reflexivity);
      eassert (Hb : unpackb (M := Toy.msgpack) hb = Ok _) by (vm_compute; reflexivity)
  end.
  destruct (malformed_header_errors (M := Toy.msgpack) (C := Toy.crypto)
              Cases.short_header_input Example.recipient1_private _ _ _ _ Hu Hh Hb)
    as [_ H].
  destruct (H eq_refl) as [_ H']. refine (proj1 (H' _ eq_refl) _). vm_compute. lia.
Defined.

(** X11.  Elements that [decrypt] does not look at.  Elements of a packet
    after the payload secretbox do not change what [decrypt] does with it, as
    long as they serialise for the debug output; and in a recipient pair
    neither the first element (the recipient's public key or [None]) nor any
    element after the payload key box matters to the search for the
    recipient. *)
Theorem additional_elements_ignored {C : Crypto}
    (major_version : value) (header_hash mac_key payload_key : bytes) (recipient_index : nat)
    (chunknum : nat) (ephemeral_beforenm : bytes) :
  (forall hash_authenticators payload_secretbox more,
     py_eq_int major_version 1 = true -> forallb json_serialisable more = true ->
     decrypt_packet major_version header_hash mac_key payload_key recipient_index
       (VArray (hash_authenticators :: payload_secretbox :: more)) chunknum
     = decrypt_packet major_version header_hash mac_key payload_key recipient_index
         (VArray [hash_authenticators; payload_secretbox]) chunknum) /\
  (forall final_flag hash_authenticators payload_secretbox more,
     py_eq_int major_version 1 = false -> forallb json_serialisable more = true ->
     decrypt_packet major_version header_hash mac_key payload_key recipient_index
       (VArray (final_flag :: hash_authenticators :: payload_secretbox :: more)) chunknum
     = decrypt_packet major_version header_hash mac_key payload_key recipient_index
         (VArray [final_flag; hash_authenticators; payload_secretbox]) chunknum) /\
  (forall recipient_public other payload_key_box more rest rest',
     find_recipient major_version ephemeral_beforenm (S recipient_index) rest
     = find_recipient major_version ephemeral_beforenm (S recipient_index) rest' ->
     find_recipient major_version ephemeral_beforenm recipient_index
       (VArray (recipient_public :: payload_key_box :: more) :: rest)
     = find_recipient major_version ephemeral_beforenm recipient_index
         (VArray [other; payload_key_box] :: rest')).
Proof.
  split; [|split].
  - intros a b more Hv Hj. rewrite !decrypt_packet_items.
    unfold json_repr, authenticators_position, packet_final_flag_byte, packet_final_flag.
    rewrite Hv. cbn [json_serialisable forallb]. rewrite Hj.
    destruct (json_serialisable a), (json_serialisable b); reflexivity.
  - intros f a b more Hv Hj. rewrite !decrypt_packet_items.
    unfold json_repr, authenticators_position, packet_final_flag_byte, packet_final_flag.
    rewrite Hv. cbn [json_serialisable forallb]. rewrite Hj.
    destruct (json_serialisable f), (json_serialisable a), (json_serialisable b); reflexivity.
  - intros R other box more rest rest' H. cbn [find_recipient].
    cbn [unpack_at_least py_iter bind List.length Nat.leb nth]. rewrite H. reflexivity.
Qed.

(** X12.  [decrypt] returns a plaintext or raises an error: its packet loop
    ends.  Every turn of the loop reads one object and so takes at least one
    byte off the stream; past the length of the stream, more turns allowed
    change nothing.  Assumed: [umsgpack.unpack] and the [nacl] bindings
    return or raise. *)
Theorem decrypt_always_returns {M : Umsgpack} {C : Crypto}
    (MC : unpack_consumes M) (MR : unpack_returns M) (CR : CryptoReturns C)
    (input recipient_private : bytes) :
  decrypt input recipient_private <> Diverge /\
  (forall fuel major_version header_hash mac_key payload_key recipient_index stream output
          chunknum,
     (List.length stream < fuel)%nat ->
     decrypt_packets fuel major_version header_hash mac_key payload_key recipient_index
       stream output chunknum
     = decrypt_packets (S (List.length stream)) major_version header_hash mac_key payload_key
         recipient_index stream output chunknum).
Proof.
  split.
  - unfold decrypt, decrypt_checked.
    apply bind_returns; [apply (parse_header_returns MR CR)|]. intros h.
    apply bind_returns; [apply check_header_returns|]. intros _.
    apply bind_returns; [apply py_iter_returns|]. intros pairs.
    apply bind_returns; [apply (find_recipient_returns CR)|]. intros [i pk].
    apply bind_returns; [apply (ret_secretbox_open _ CR)|]. intros sender_public.
    apply bind_returns; [apply (decrypt_mac_key_returns CR)|]. intros mac_key.
    apply (decrypt_packets_returns MC MR CR). lia.
  - intros fuel v hh mk pk idx stream output n Hf. apply (decrypt_packets_fuel MC); lia.
Qed.

Lemma decrypt_always_returns_witness :
  decrypt (M := Toy.msgpack) (C := Toy.crypto)
    (firstn 100 Example.ciphertext_v2) Example.recipient1_private <> Diverge.
Proof.
  exact (proj1 (decrypt_always_returns ToyMsgpack.toy_unpack_consumes
                  ToyReturns.toy_unpack_returns ToyReturns.crypto_returns
                  (firstn 100 Example.ciphertext_v2) Example.recipient1_private)).
Defined.

(** X13.  [get_private] returns a key of 32 bytes or raises.  Without the
    argument [<private>], or with the empty str, the key is 32 zero bytes;
    with the hexadecimal digits of a 32-byte key, in upper or in lower case,
    it is that key; with the digits of a key of another length it raises
    [AssertionError]; and it raises nothing but [ValueError] (of which
    [binascii.Error] is a kind) and [AssertionError]. *)
Theorem get_private_contract (args : arguments) :
  (forall private, get_private args = Ok private -> len private = 32) /\
  (arg_private args = None \/ arg_private args = Some [] ->
   get_private args = Ok (repeat x00 32)) /\
  (forall upper key, arg_private args = Some (hexlify upper key) ->
     (len key = 32 -> get_private args = Ok key) /\
     (key <> [] -> len key <> 32 -> get_private args = Raise AssertionError)) /\
  (forall e, get_private args = Raise e -> e = ValueError \/ e = AssertionError).
Proof.
  split; [apply get_private_len|]. split; [|split].
  - unfold get_private. intros [-> | ->]; reflexivity.
  - intros upper key Ha. split.
    + intros Hk. rewrite (get_private_given _ _ Ha).
      * rewrite unhexlify_hexlify. cbn [bind]. rewrite Hk. reflexivity.
      * apply hexlify_nonempty. intros ->. discriminate.
    + intros Hne Hk. rewrite (get_private_given _ _ Ha) by (apply hexlify_nonempty; exact Hne).
      rewrite unhexlify_hexlify. cbn [bind].
      destruct (Z.eqb_spec (len key) 32); [contradiction|reflexivity].
  - intros e. unfold get_private, if_given. destruct (arg_private args) as [[|c s]|];
      try discriminate.
    destruct (unhexlify (c :: s)) as [k| |] eqn:E; cbn [bind]; try discriminate.
    + destruct (len k =? 32); [discriminate|]. intros H. injection H as <-. auto.
    + intros H. injection H as <-. left. apply (unhexlify_raises _ _ E).
Qed.

(** X14.  [get_recipients].  Without explicit recipients the only recipient
    is the public key of the private key of [get_private]: the message goes
    to the sender.  With the hexadecimal digits of 32-byte keys it returns
    these keys in order.  Whenever it returns, the list is not empty, and
    for explicit recipients it has one 32-byte key per argument, the bytes
    that the argument spells. *)
Theorem get_recipients_contract {C : Crypto} (args : arguments) :
  (arg_recipients args = [] ->
   forall private public, get_private args = Ok private -> keypair C private public ->
   get_recipients args = Ok [public]) /\
  (forall upper keys, keys <> [] -> Forall (fun key => len key = 32) keys ->
     arg_recipients args = map (hexlify upper) keys -> get_recipients args = Ok keys) /\
  (forall recipients, get_recipients args = Ok recipients ->
     recipients <> [] /\
     (arg_recipients args <> [] ->
      List.length recipients = List.length (arg_recipients args) /\
      Forall (fun key => len key = 32) recipients /\
      Forall2 (fun hex key => unhexlify hex = Ok key) (arg_recipients args) recipients)).
Proof.
  unfold get_recipients. split; [|split].
  - intros -> private public Hp Hk. rewrite Hp. cbn [bind]. unfold keypair in Hk. rewrite Hk.
    reflexivity.
  - intros upper keys Hne HF ->. destruct keys as [|key keys]; [contradiction|].
    exact (recipients_loop_hexlify upper (key :: keys) HF).
  - intros recipients H. destruct (arg_recipients args) as [|hex hexes] eqn:E.
    + inv_bind H as private Ep. inv_bind H as public Ek. apply Ok_inj in H. subst recipients.
      split; [discriminate|]. intros Hne. contradiction.
    + destruct (recipients_loop_Ok _ _ H) as (L & F & F2). split.
      * destruct recipients; [discriminate|discriminate].
      * intros _. auto.
Qed.

(** X15.  Without explicit recipients, what [do_encrypt] writes is read back
    by [do_decrypt] with the same arguments: [do_encrypt] writes an output
    and [do_decrypt] on that output writes the message (the standard input,
    or the UTF-8 bytes of [--message]), in binary and in armored form, for
    the default chunk size and major version or for given ones that
    [encrypt] accepts.  Assumed: the laws of [umsgpack] and [nacl], and that
    [armor.dearmor] gives back what [armor.armor] was given. *)
Theorem send_to_yourself {M : Umsgpack} {C : Crypto} {R : Runtime}
    (ML : UmsgpackLaws M) (MF : UmsgpackFormat M) (CL : CryptoLaws C) (CS : CryptoSizes C)
    (RL : dearmor_inverts_armor R)
    (args : arguments) (stdin ephemeral_private payload_key : bytes)
    (encoded_message private : bytes) (chunk_size : Z) (major_version : option Z) :
  arg_recipients args = [] ->
  encoded_message_of args stdin = Ok encoded_message ->
  get_private args = Ok private ->
  chunk_size_of args = Ok chunk_size ->
  major_version_of args = Ok major_version ->
  len ephemeral_private = 32 -> len payload_key = 32 ->
  given_version major_version = 1 \/ given_version major_version = 2 ->
  0 < chunk_size -> 16 + Z.min chunk_size (len encoded_message) < 2 ^ 32 ->
  len encoded_message < 2 ^ 64 ->
  exists output,
    do_encrypt args stdin ephemeral_private payload_key = Ok output /\
    do_decrypt args output = Ok encoded_message.
Proof.
  intros Hr H1 H2 H3 H4 He Hpk Hv HS Hc Hm.
  pose proof (get_private_len _ _ H2) as Hs.
  destruct (law_scalarmult_base _ CS private Hs) as (public & Hk & Lp).
  assert (H5 : get_recipients args = Ok [public]).
  { unfold get_recipients. rewrite Hr, H2. cbn [bind]. unfold keypair in Hk. rewrite Hk.
    reflexivity. }
  apply (do_decrypt_do_encrypt ML MF CL CS RL args args stdin ephemeral_private payload_key
           encoded_message private chunk_size major_version [public] private 0%nat);
    try assumption; try reflexivity.
  - exists public. split; [exact Hk|reflexivity].
  - intros i R' ep k Hi. lia.
  - constructor; [|constructor]. exists private. split; assumption.
Qed.

Lemma send_to_yourself_witness :
  exists output,
    do_encrypt (M := Toy.msgpack) (C := Toy.crypto) (R := ToyRuntime.runtime)
      (CliExample.to_yourself false) [] Example.ephemeral_private Example.payload_key
    = Ok output /\
    do_decrypt (M := Toy.msgpack) (C := Toy.crypto) (R := ToyRuntime.runtime)
      (CliExample.to_yourself false) output
    = Ok Example.message.
Proof.
  assert (RL : dearmor_inverts_armor ToyRuntime.runtime)
    by (intros b; exists (x3a :: b); split; reflexivity).
  apply (send_to_yourself ToyMsgpack.msgpack_laws ToyMsgpack.msgpack_format
           ToyFacts.crypto_laws ToyFacts.crypto_sizes RL
           (CliExample.to_yourself false) [] Example.ephemeral_private Example.payload_key
           Example.message (repeat x00 32) 3 None).
  - reflexivity.
  - vm_compute. reflexivity.
  - vm_compute. reflexivity.
  - vm_compute. reflexivity.
  - vm_compute. reflexivity.
  - vm_compute. reflexivity.
  - vm_compute. reflexivity.
  - right. reflexivity.
  - vm_compute. reflexivity.
  - vm_compute. reflexivity.
  - vm_compute. reflexivity.
Defined.

(** X16.  The test [Test.test_encrypt] passes, making 24 draws, with every
    [umsgpack] and [nacl] that meet their laws, when the draws have 32 bytes
    and the boxes made with them are rejected under foreign keys (the first
    recipient's box under the second recipient's key, both boxes under the
    sender's key): for the three messages, the two chunk sizes and the two
    major versions, each recipient decrypts the ciphertext to the message,
    the ciphertext differs from the message, and decrypting with the
    sender's key raises [RuntimeError]. *)
Theorem test_encrypt_passes {M : Umsgpack} {C : Crypto}
    (ML : UmsgpackLaws M) (MF : UmsgpackFormat M) (CL : CryptoLaws C) (CS : CryptoSizes C)
    (urandom : nat -> bytes) :
  (forall k, (k < 24)%nat -> len (urandom k) = 32) ->
  (forall c, (c < 12)%nat -> test_keys_rejected (urandom (2 * c)%nat) (urandom (2 * c + 1)%nat)) ->
  test_encrypt urandom = Ok 24%nat.
Proof.
  intros Hlen Hrej. unfold test_encrypt. cbn [for_each].
  assert (Hstep : forall message chunk_size c,
             0 < chunk_size -> 16 + Z.min chunk_size (len message) < 2 ^ 32 ->
             len message < 2 ^ 64 -> (c < 6)%nat ->
             check_chunk_size urandom message chunk_size (4 * c)%nat = Ok (4 + 4 * c)%nat).
  { intros message chunk_size c HS Hc Hm Hlt.
    apply (check_chunk_size_passes ML MF CL CS); try assumption.
    - intros k Hk. apply Hlen. lia.
    - pose proof (Hrej (2 * c)%nat ltac:(lia)) as H.
      replace (2 * (2 * c))%nat with (4 * c)%nat in H by lia.
      replace (4 * c + 1)%nat with (S (4 * c)) in H by lia. exact H.
    - pose proof (Hrej (2 * c + 1)%nat ltac:(lia)) as H.
      replace (2 * (2 * c + 1))%nat with (S (S (4 * c))) in H by lia.
      replace (S (S (4 * c)) + 1)%nat with (S (S (S (4 * c)))) in H by lia. exact H. }
  pose proof (Hstep [] (10 ^ 6) 0%nat ltac:(lia) ltac:(cbn; lia) ltac:(cbn; lia) ltac:(lia))
    as E0.
  pose proof (Hstep [] (10 ^ 3) 1%nat ltac:(lia) ltac:(cbn; lia) ltac:(cbn; lia) ltac:(lia))
    as E1.
  pose proof (Hstep (bytes_of_string "foo bar") (10 ^ 6) 2%nat
                ltac:(lia) ltac:(cbn; lia) ltac:(cbn; lia) ltac:(lia)) as E2.
  pose proof (Hstep (bytes_of_string "foo bar") (10 ^ 3) 3%nat
                ltac:(lia) ltac:(cbn; lia) ltac:(cbn; lia) ltac:(lia)) as E3.
  pose proof (Hstep long_message (10 ^ 6) 4%nat ltac:(lia)
                ltac:(rewrite len_long_message; lia) ltac:(rewrite len_long_message; lia)
                ltac:(lia)) as E4.
  pose proof (Hstep long_message (10 ^ 3) 5%nat ltac:(lia)
                ltac:(rewrite len_long_message; lia) ltac:(rewrite len_long_message; lia)
                ltac:(lia)) as E5.
  cbn [Nat.mul Nat.add] in E0, E1, E2, E3, E4, E5.
  rewrite E0. cbn [bind]. rewrite E1. cbn [bind]. rewrite E2. cbn [bind].
  rewrite E3. cbn [bind]. rewrite E4. cbn [bind]. rewrite E5. cbn [bind].
  reflexivity.
Qed.

Lemma test_encrypt_passes_witness :
  test_encrypt (M := Toy.msgpack) (C := Toy.crypto) TestExample.urandom = Ok 24%nat.
Proof.
  apply (test_encrypt_passes ToyMsgpack.msgpack_laws ToyMsgpack.msgpack_format
           ToyFacts.crypto_laws ToyFacts.crypto_sizes TestExample.urandom).
  - intros k _. unfold TestExample.urandom. destruct (Nat.even k); vm_compute; reflexivity.
  - assert (H : test_keys_rejected (C := Toy.crypto) Example.ephemeral_private
                  Example.payload_key).
    { intros v R1 R2 Hv H1 H2.
      vm_compute in H1. apply Ok_inj in H1. subst R1.
      vm_compute in H2. apply Ok_inj in H2. subst R2.
      destruct Hv as [-> | ->]; repeat split; intros ep k Hk Hb n box Hn Hbox;
        vm_compute in Hk; apply Ok_inj in Hk; subst ep;
        vm_compute in Hb; apply Ok_inj in Hb; subst k;
        vm_compute in Hn; apply Ok_inj in Hn; subst n;
        vm_compute in Hbox; apply Ok_inj in Hbox; subst box;
        vm_compute; reflexivity. }
    intros c Hc. do 12 (destruct c as [|c]; [exact H|]). lia.
Defined.

(** * The claims *)

(** C10.  For every message and every chunk size greater than zero, the list
    of chunks that [chunks_with_empty] returns is the sequence of chunk bytes
    that [chunks_loop] yields for major version 1, in order, including the
    single empty chunk of the empty message. *)
Theorem chunks_with_empty_agrees_with_chunks_loop (message : bytes) (chunk_size : Z) :
  0 < chunk_size ->
  exists triples,
    chunks_loop message chunk_size 1 = Ok triples /\
    chunks_with_empty message chunk_size = Ok (map chunk_bytes triples).
Proof.
  intros HS. eexists. split; [apply chunks_loop_v1; assumption|].
  rewrite chunks_with_empty_closed by assumption.
  rewrite map_app, map_map. reflexivity.
Qed.

Lemma chunks_with_empty_agrees_witness :
  exists triples,
    chunks_loop Example.message 3 1 = Ok triples /\
    chunks_with_empty Example.message 3 = Ok (map chunk_bytes triples).
Proof. apply (chunks_with_empty_agrees_with_chunks_loop Example.message 3). lia. Defined.

(** C5.  The chunker contract.  For a chunk size [S > 0], with
    [n = ceil(len/S)]: the [n] chunks [message[i*S : i*S+S]] put end to end
    are the message, each has between 1 and [S] bytes and all but the last
    have [S]; for major version 1 [chunks_loop] yields these [n] chunks
    followed by one empty chunk; for major version 2 and a non-empty message
    it yields these [n] chunks with [is_final] true exactly on the last; for
    the empty message it yields the single triple [(0, empty, true)]; the
    chunk indices are 0, 1, 2, ... *)
Theorem chunks_loop_contract (message : bytes) (S : Z) :
  0 < S ->
  let n := Z.to_nat (ceil_div (len message) S) in
  List.length (spec_chunks message S) = n /\
  List.concat (spec_chunks message S) = message /\
  (forall i, (i < n)%nat ->
     0 < len (nth_chunk message S i) <= S /\
     ((i + 1 < n)%nat -> len (nth_chunk message S i) = S)) /\
  chunks_loop message S 1 =
    Ok (map (fun i => (i, nth_chunk message S i, false)) (seq 0 n) ++ [(n, [], true)]) /\
  (message <> [] ->
   chunks_loop message S 2 =
     Ok (map (fun i => (i, nth_chunk message S i, (i + 1 =? n)%nat)) (seq 0 n))) /\
  (message = [] -> forall major_version, chunks_loop message S major_version = Ok [(O, [], true)]).
Proof.
  intros HS n. repeat split.
  - unfold spec_chunks. rewrite length_map, length_seq. reflexivity.
  - apply concat_spec_chunks. assumption.
  - apply (nth_chunk_len message S i HS). assumption.
  - apply (nth_chunk_len message S i HS). assumption.
  - intros Hi. apply (nth_chunk_len message S i HS); fold n; lia.
  - apply chunks_loop_v1. assumption.
  - intros Hm. rewrite chunks_loop_not_v1 by (assumption || lia).
    apply f_equal, map_ext. intros i. rewrite Nat.add_1_r. reflexivity.
  - intros -> v. apply chunks_loop_empty. assumption.
Qed.

Lemma chunks_loop_contract_witness :
  chunks_loop Example.message 3 2 =
  Ok [(0%nat, bytes_of_string "foo", false); (1%nat, bytes_of_string " ba", false);
      (2%nat, bytes_of_string "r", true)].
Proof.
  destruct (chunks_loop_contract Example.message 3 ltac:(lia)) as (_ & _ & _ & _ & H & _).
  rewrite H by discriminate. reflexivity.
Defined.



(** C9.  Trailing bytes are ignored: when [decrypt] succeeds on a ciphertext,
    it returns the same plaintext on the ciphertext followed by any bytes.
    Assumed of [umsgpack.unpack]: it reads only the bytes of the object it
    returns. *)
Theorem trailing_bytes_ignored {M : Umsgpack} {C : Crypto} (HP : unpack_reads_prefix M)
    (ciphertext trailing recipient_private message : bytes) :
  decrypt ciphertext recipient_private = Ok message ->
  decrypt (ciphertext ++ trailing) recipient_private = Ok message.
Proof.
  unfold decrypt. intros H. inv_bind H as h Eh.
  rewrite (parse_header_trailing HP _ _ _ trailing Eh).
  cbn [bind hdr_hash hdr_format_name hdr_major_version hdr_mode hdr_ephemeral_public
       hdr_sender_secretbox hdr_recipient_pairs hdr_ephemeral_beforenm hdr_stream].
  inv_bind H as u Ec. rewrite Ec. cbn [bind].
  unfold decrypt_checked in H |- *.
  inv_bind H as pairs Ep. rewrite Ep. cbn [bind].
  inv_bind H as found Ef. rewrite Ef. cbn [bind]. destruct found as [recipient_index payload_key].
  inv_bind H as sender_public Es. rewrite Es. cbn [bind].
  inv_bind H as mac_key Em. rewrite Em. cbn [bind].
  apply (decrypt_packets_trailing HP _ _ _ _ _ _ _ _ _ _ H). rewrite length_app. lia.
Qed.

Lemma trailing_bytes_ignored_witness :
  decrypt (M := Toy.msgpack) (C := Toy.crypto)
    (Example.ciphertext_v1 ++ bytes_of_string "trailing") Example.recipient1_private
  = Ok Example.message.
Proof.
  apply (trailing_bytes_ignored ToyMsgpack.toy_unpack_reads_prefix
           Example.ciphertext_v1 (bytes_of_string "trailing")
           Example.recipient1_private Example.message).
  vm_compute. reflexivity.
Defined.
(** C2.  When the header has passed the checks and no slot of its recipient
    list gives the payload key (each payload key box fails to open with a
    [CryptoError], which the loop skips; the list may be empty), [decrypt]
    raises the error "Failed to find matching recipient.", which is none of
    the other error kinds. *)
Theorem no_matching_recipient_error {M : Umsgpack} {C : Crypto}
    (input recipient_private : bytes) (h : parsed_header) (pairs : list value) :
  parse_header input recipient_private = Ok h ->
  check_header (hdr_format_name h) (hdr_major_version h) (hdr_mode h) = Ok tt ->
  py_iter (hdr_recipient_pairs h) = Ok pairs ->
  (forall i slot, nth_error pairs i = Some slot ->
     slot_fails (hdr_major_version h) (hdr_ephemeral_beforenm h) i slot) ->
  decrypt input recipient_private = Raise no_matching_recipient /\
  no_matching_recipient <> BadFormatError /\
  no_matching_recipient <> BadVersionError /\
  no_matching_recipient <> BadModeError /\
  no_matching_recipient <> HMACError /\
  no_matching_recipient <> CryptoError.
Proof.
  intros Hh Hc Hp Hs. split; [|repeat split; discriminate].
  rewrite (decrypt_after_parse _ _ _ Hh), Hc. cbn [bind].
  unfold decrypt_checked. rewrite Hp. cbn [bind].
  rewrite find_recipient_none; [reflexivity|]. exact Hs.
Qed.

Lemma no_matching_recipient_error_witness :
  decrypt (M := Toy.msgpack) (C := Toy.crypto) Example.ciphertext_v2 Example.sender_private
  = Raise no_matching_recipient.
Proof.
  refine (proj1 (no_matching_recipient_error (M := Toy.msgpack) (C := Toy.crypto)
                   Example.ciphertext_v2 Example.sender_private _ _ _ _ _ _)).
  - vm_compute. reflexivity.
  - vm_compute. reflexivity.
  - vm_compute. reflexivity.
  - intros i slot H.
    destruct i as [|[|i]]; cbn [nth_error] in H.
    + injection H as <-. eexists. eexists. repeat split; vm_compute; reflexivity.
    + injection H as <-. eexists. eexists. repeat split; vm_compute; reflexivity.
    + destruct i; discriminate.
Defined.

(** C8 (amended).  Header validation.  Once the header array is taken apart,
    [decrypt] first computes the shared key with [crypto_box_beforenm] on the
    ephemeral public key (line 237) and raises its error if it fails,
    whatever the format name, the major version and the mode are.  Once the
    shared key is there, it raises [BadFormatError] when the format name is
    not "saltpack"; otherwise [BadVersionError] when the major version is
    neither 1 nor 2; otherwise [BadModeError] when the mode is not 0;
    otherwise it goes on to find the recipient and decrypt the packets.  The
    three errors are distinct. *)
Theorem header_validation {M : Umsgpack} {C : Crypto}
    (input recipient_private : bytes) (header_bytes : value) (stream header_hash : bytes)
    (header : value) (items version : list value) :
  unpack input = Ok (header_bytes, stream) ->
  crypto_hash header_bytes = Ok header_hash ->
  unpackb header_bytes = Ok header ->
  json_repr header = Ok tt ->
  unpack_at_least 6 header = Ok items ->
  unpack_exactly 2 (nth 1 items VNil) = Ok version ->
  let format_name := nth 0 items VNil in
  let major_version := nth 0 version VNil in
  let mode := nth 2 items VNil in
  let ephemeral_public := nth 3 items VNil in
  let format_ok := py_eq_str format_name (str "saltpack") in
  let version_ok := py_eq_int major_version 1 || py_eq_int major_version 2 in
  let mode_ok := py_eq_int mode 0 in
  (forall e, crypto_box_beforenm ephemeral_public recipient_private = Raise e ->
     decrypt input recipient_private = Raise e) /\
  (forall ephemeral_beforenm,
     crypto_box_beforenm ephemeral_public recipient_private = Ok ephemeral_beforenm ->
     (format_ok = false -> decrypt input recipient_private = Raise BadFormatError) /\
     (format_ok = true -> version_ok = false ->
      decrypt input recipient_private = Raise BadVersionError) /\
     (format_ok = true -> version_ok = true -> mode_ok = false ->
      decrypt input recipient_private = Raise BadModeError) /\
     (format_ok = true -> version_ok = true -> mode_ok = true ->
      decrypt input recipient_private =
      decrypt_checked recipient_private header_hash major_version ephemeral_public
        (nth 4 items VNil) (nth 5 items VNil) ephemeral_beforenm stream)) /\
  BadFormatError <> BadVersionError /\ BadFormatError <> BadModeError /\
  BadVersionError <> BadModeError.
Proof.
  intros Hu Hh Hb Hj Hi Hv format_name major_version mode ephemeral_public
    format_ok version_ok mode_ok.
  assert (Hd : decrypt input recipient_private =
               (ephemeral_beforenm <- crypto_box_beforenm ephemeral_public recipient_private ;;
                _ <- check_header format_name major_version mode ;;
                decrypt_checked recipient_private header_hash major_version ephemeral_public
                  (nth 4 items VNil) (nth 5 items VNil) ephemeral_beforenm stream)).
  { unfold decrypt, parse_header. rewrite Hu. cbn [bind]. rewrite Hh. cbn [bind].
    rewrite Hb. cbn [bind]. rewrite Hj. cbn [bind]. rewrite Hi. cbn [bind].
    rewrite Hv. cbn [bind]. fold ephemeral_public.
    destruct (crypto_box_beforenm ephemeral_public recipient_private); reflexivity. }
  rewrite Hd. split; [|split].
  - intros e ->. reflexivity.
  - intros ephemeral_beforenm ->. cbn [bind]. unfold check_header.
    fold format_ok. fold version_ok. fold mode_ok.
    repeat split.
    + intros ->. reflexivity.
    + intros -> ->. reflexivity.
    + intros -> -> ->. reflexivity.
    + intros -> -> ->. reflexivity.
  - repeat split; discriminate.
Qed.

Lemma header_validation_witness :
  decrypt (M := Toy.msgpack) (C := Toy.crypto) Example.bad_version_input
    Example.recipient1_private
  = Raise BadVersionError.
Proof.
  eassert (Hu : unpack (Umsgpack := Toy.msgpack) Example.bad_version_input = Ok (_, _))
    by (vm_compute; reflexivity).
  match type of Hu with
  | _ = Ok (?hb, _) =>
      eassert (Hh : crypto_hash (Crypto := Toy.crypto) hb = Ok _) by (vm_compute; reflexivity);
      eassert (Hb : unpackb (M := Toy.msgpack) hb = Ok _) by (vm_compute; reflexivity)
  end.
  match type of Hb with
  | _ = Ok ?h =>
      assert (Hj : json_repr h = Ok tt) by (vm_compute; reflexivity);
      eassert (Hi : unpack_at_least 6 h = Ok _) by (vm_compute; reflexivity)
  end.
  match type of Hi with
  | _ = Ok ?its =>
      eassert (Hv : unpack_exactly 2 (nth 1 its VNil) = Ok _) by (vm_compute; reflexivity)
  end.
  destruct (header_validation (M := Toy.msgpack) (C := Toy.crypto)
              Example.bad_version_input Example.recipient1_private _ _ _ _ _ _
              Hu Hh Hb Hj Hi Hv) as (_ & H & _).
  match type of H with
  | forall k, crypto_box_beforenm ?pk ?sk = Ok k -> _ =>
      eassert (Hk : crypto_box_beforenm (Crypto := Toy.crypto) pk sk = Ok _)
        by (vm_compute; reflexivity)
  end.
  destruct (H _ Hk) as (_ & H2 & _).
  apply H2; vm_compute; reflexivity.
Defined.

(** C8, as stated, fails.  [HeaderCases.wrong_name_short_key_input] holds a
    header array that parses, with the format name "notsaltpack" and an
    ephemeral public key of 31 bytes.  If the checks came straight after the
    parsing of the header array, [decrypt] would raise [BadFormatError]; it
    raises the [ValueError] of [crypto_box_beforenm], which line 237 calls
    before the checks of lines 241-249. *)
Lemma header_checks_come_after_beforenm :
  ~ checks_follow_header_array Toy.msgpack Toy.crypto /\
  decrypt (M := Toy.msgpack) (C := Toy.crypto) HeaderCases.wrong_name_short_key_input
    Example.recipient1_private
  = Raise ValueError.
Proof.
  split; [|vm_compute; reflexivity].
  intros H.
  eassert (Hu : unpack (Umsgpack := Toy.msgpack) HeaderCases.wrong_name_short_key_input
                = Ok (_, _)) by (vm_compute; reflexivity).
  match type of Hu with
  | _ = Ok (?hb, _) =>
      eassert (Hh : crypto_hash (Crypto := Toy.crypto) hb = Ok _) by (vm_compute; reflexivity);
      eassert (Hb : unpackb (M := Toy.msgpack) hb = Ok _) by (vm_compute; reflexivity)
  end.
  match type of Hb with
  | _ = Ok ?h =>
      assert (Hj : json_repr h = Ok tt) by (vm_compute; reflexivity);
      eassert (Hi : unpack_at_least 6 h = Ok _) by (vm_compute; reflexivity)
  end.
  match type of Hi with
  | _ = Ok ?its =>
      eassert (Hv : unpack_exactly 2 (nth 1 its VNil) = Ok _) by (vm_compute; reflexivity)
  end.
  destruct (H HeaderCases.wrong_name_short_key_input Example.recipient1_private
              _ _ _ _ _ _ Hu Hh Hb Hj Hi Hv) as (T & _).
  specialize (T ltac:(vm_compute; reflexivity)).
  vm_compute in T. discriminate T.
Qed.

(** C3 (amended).  In version 2 decryption the packet loop ends with a packet
    when its final flag is true or its decrypted chunk is empty, and goes on
    to the next packet otherwise. *)
Theorem v2_loop_termination {M : Umsgpack} {C : Crypto}
    (fuel : nat) (major_version : value) (header_hash mac_key payload_key : bytes)
    (recipient_index : nat) (stream : bytes) (packet : value) (stream' : bytes)
    (items : list value) (chunk : bytes) (stop : bool) (output : bytes) (chunknum : nat) :
  py_eq_int major_version 1 = false ->
  unpack stream = Ok (packet, stream') ->
  unpack_at_least 3 packet = Ok items ->
  decrypt_packet major_version header_hash mac_key payload_key recipient_index
    packet chunknum = Ok (chunk, stop) ->
  decrypt_packets (S fuel) major_version header_hash mac_key payload_key recipient_index
    stream output chunknum =
  if py_truthy (nth 0 items VNil) || is_empty chunk then Ok (output ++ chunk)
  else decrypt_packets fuel major_version header_hash mac_key payload_key recipient_index
         stream' (output ++ chunk) (S chunknum).
Proof.
  intros Hv Hu Hi Hd. cbn [decrypt_packets]. rewrite Hu. cbn [bind]. rewrite Hd. cbn [bind].
  rewrite (decrypt_packet_stop _ _ _ _ _ _ _ _ _ _ Hv Hi Hd), orb_comm. reflexivity.
Qed.

Lemma v2_loop_termination_witness :
  decrypt_packets (M := Toy.msgpack) (C := Toy.crypto) 2 (VInt 2) Example.zero_hash zero32
    Example.payload_key 0 Example.two_packets [] 0 = Ok [].
Proof.
  eassert (Hu : unpack (Umsgpack := Toy.msgpack) Example.two_packets = Ok (_, _))
    by (vm_compute; reflexivity).
  match type of Hu with
  | _ = Ok (?p, _) =>
      eassert (Hi : unpack_at_least 3 p = Ok _) by (vm_compute; reflexivity);
      eassert (Hd : decrypt_packet (C := Toy.crypto) (VInt 2)
                      Example.zero_hash zero32 Example.payload_key 0 p 0 = Ok (_, _))
        by (vm_compute; reflexivity)
  end.
  rewrite (v2_loop_termination (M := Toy.msgpack) (C := Toy.crypto) 1 (VInt 2)
             Example.zero_hash zero32 Example.payload_key 0 Example.two_packets
             _ _ _ _ _ [] 0 eq_refl Hu Hi Hd).
  vm_compute. reflexivity.
Defined.

(** C3, as stated, fails.  In the stream [Example.two_packets] the first
    packet carries an empty chunk with the final flag false and the second
    the chunk "x" with the final flag true.  If only the flag ended the loop,
    the loop would go on to the second packet and return "x"; it returns the
    empty plaintext after the first.  The same two packets behind a genuine
    header, [Example.crafted_v2], make [decrypt] return the empty plaintext. *)
Lemma v2_empty_chunk_ends_loop :
  ~ only_final_flag_terminates Toy.msgpack Toy.crypto /\
  decrypt (M := Toy.msgpack) (C := Toy.crypto) Example.crafted_v2 Example.recipient1_private
  = Ok [].
Proof.
  split; [|vm_compute; reflexivity].
  intros H.
  eassert (Hu : unpack (Umsgpack := Toy.msgpack) Example.two_packets = Ok (_, _))
    by (vm_compute; reflexivity).
  match type of Hu with
  | _ = Ok (?p, _) =>
      eassert (Hi : unpack_at_least 3 p = Ok _) by (vm_compute; reflexivity);
      eassert (Hd : decrypt_packet (C := Toy.crypto) (VInt 2)
                      Example.zero_hash zero32 Example.payload_key 0 p 0 = Ok (_, _))
        by (vm_compute; reflexivity)
  end.
  pose proof (H 1%nat (VInt 2) Example.zero_hash zero32 Example.payload_key 0%nat
                Example.two_packets _ _ _ _ _ [] 0%nat eq_refl Hu Hi Hd) as T.
  vm_compute in T. discriminate T.
Qed.

(** C7.  MAC-key derivation.  For recipient index [i] with public key [R]:
    in version 1 [encrypt] takes bytes 16..48 of
    [box(zero32, header_hash[0..24], R, sender_private)]; in version 2 it
    takes the first 32 bytes of [SHA-512(B1[-32..] ++ B2[-32..])], where [B1]
    is the box under [sender_private] with nonce [header_hash[0..16]], bit 0
    of byte 15 cleared, followed by [u64be(i)], and [B2] the box under
    [ephemeral_private] with the same nonce but that bit set; the loop of
    [encrypt] stores this key at index [i]; and [decrypt], with the
    recipient's private key against the sender's and the ephemeral public
    key, computes the same MAC key. *)
Theorem mac_key_derivation {C : Crypto} (CL : CryptoLaws C)
    (sender_private sender_public ephemeral_private ephemeral_public : bytes)
    (recipient_private R header_hash : bytes) (i : nat) :
  keypair C sender_private sender_public ->
  keypair C ephemeral_private ephemeral_public ->
  keypair C recipient_private R ->
  16 <= len header_hash ->
  (N.of_nat i < 2 ^ 64)%N ->
  recipient_mac_key sender_private ephemeral_private header_hash 1 i R
    = spec_mac_key_v1 header_hash R sender_private /\
  recipient_mac_key sender_private ephemeral_private header_hash 2 i R
    = spec_mac_key_v2 header_hash i R sender_private ephemeral_private /\
  (forall major_version recipients mac_keys,
     recipient_mac_keys_loop sender_private ephemeral_private header_hash major_version 0
       recipients = Ok mac_keys ->
     nth_error recipients i = Some R ->
     exists mac_key,
       nth_error mac_keys i = Some mac_key /\
       recipient_mac_key sender_private ephemeral_private header_hash major_version i R
       = Ok mac_key) /\
  (forall major_version,
     decrypt_mac_key recipient_private header_hash (VInt major_version) i sender_public
       (VBin ephemeral_public)
     = recipient_mac_key sender_private ephemeral_private header_hash major_version i R).
Proof.
  intros Hs He Hr Hh Hi. repeat split.
  - apply recipient_mac_key_v1.
  - apply recipient_mac_key_v2; assumption.
  - intros v recipients mac_keys Hloop Hnth.
    apply (recipient_mac_keys_loop_nth _ _ _ _ _ _ _ _ _ Hloop Hnth).
  - intros v. apply (decrypt_mac_key_eq CL _ _ _ _ _ _ _ Hs He Hr).
Qed.

Lemma mac_key_derivation_witness :
  decrypt_mac_key (C := Toy.crypto) Example.recipient2_private Example.zero_hash (VInt 2) 1
    (Example.public Example.sender_private) (VBin (Example.public Example.ephemeral_private))
  = spec_mac_key_v2 (C := Toy.crypto) Example.zero_hash 1
      (Example.public Example.recipient2_private) Example.sender_private
      Example.ephemeral_private.
Proof.
  destruct (mac_key_derivation ToyFacts.crypto_laws
              Example.sender_private (Example.public Example.sender_private)
              Example.ephemeral_private (Example.public Example.ephemeral_private)
              Example.recipient2_private (Example.public Example.recipient2_private)
              Example.zero_hash 1)
    as (_ & H2 & _ & Hd).
  - vm_compute. reflexivity.
  - vm_compute. reflexivity.
  - vm_compute. reflexivity.
  - vm_compute. discriminate.
  - vm_compute. reflexivity.
  - rewrite Hd. exact H2.
Defined.
(** C4 (amended).  For the empty message, one recipient and any chunk size
    greater than zero (so also for sender [priv(0)], recipient [pub(1)] and
    chunk size 1_000_000), with collaborators that meet their laws: [encrypt]
    returns a ciphertext for major version 1 and for major version 2, both
    decrypt to the empty message with the recipient's private key, and the
    version 1 ciphertext is one byte shorter than the version 2 ciphertext:
    each carries a single packet, and only the version 2 packet has a final
    flag. *)
Theorem empty_message_v1_one_byte_shorter {M : Umsgpack} {C : Crypto}
    (ML : UmsgpackLaws M) (MF : UmsgpackFormat M) (CL : CryptoLaws C) (CS : CryptoSizes C)
    (sender_private recipient_private R : bytes) (chunk_size : Z) (visible_recipients : bool)
    (ephemeral_private1 payload_key1 ephemeral_private2 payload_key2 : bytes) :
  len sender_private = 32 -> len recipient_private = 32 -> keypair C recipient_private R ->
  len ephemeral_private1 = 32 -> len payload_key1 = 32 ->
  len ephemeral_private2 = 32 -> len payload_key2 = 32 ->
  0 < chunk_size ->
  exists ciphertext1 ciphertext2,
    encrypt sender_private [R] [] chunk_size visible_recipients (Some 1)
      ephemeral_private1 payload_key1 = Ok ciphertext1 /\
    encrypt sender_private [R] [] chunk_size visible_recipients (Some 2)
      ephemeral_private2 payload_key2 = Ok ciphertext2 /\
    decrypt ciphertext1 recipient_private = Ok [] /\
    decrypt ciphertext2 recipient_private = Ok [] /\
    len ciphertext1 + 1 = len ciphertext2.
Proof.
  intros Hs Hr Hk He1 Hp1 He2 Hp2 HS.
  destruct (empty_message_ciphertext ML MF CL CS sender_private recipient_private R chunk_size
              visible_recipients 1 ephemeral_private1 payload_key1 Hs Hr Hk He1 Hp1 HS
              ltac:(left; reflexivity)) as (c1 & E1 & D1 & L1).
  destruct (empty_message_ciphertext ML MF CL CS sender_private recipient_private R chunk_size
              visible_recipients 2 ephemeral_private2 payload_key2 Hs Hr Hk He2 Hp2 HS
              ltac:(right; reflexivity)) as (c2 & E2 & D2 & L2).
  exists c1, c2. repeat split; try assumption.
  rewrite L1, L2. unfold ciphertext_size, packet_size. cbn [fold_right Z.eqb Pos.eqb]. lia.
Qed.

Lemma empty_message_v1_one_byte_shorter_witness :
  exists ciphertext1 ciphertext2,
    encrypt (M := Toy.msgpack) (C := Toy.crypto) Example.sender_private
      [Example.public Example.recipient1_private] [] 1000000 false (Some 1)
      Example.ephemeral_private Example.payload_key = Ok ciphertext1 /\
    encrypt (M := Toy.msgpack) (C := Toy.crypto) Example.sender_private
      [Example.public Example.recipient1_private] [] 1000000 false (Some 2)
      Example.ephemeral_private Example.payload_key = Ok ciphertext2 /\
    decrypt (M := Toy.msgpack) (C := Toy.crypto) ciphertext1 Example.recipient1_private = Ok [] /\
    decrypt (M := Toy.msgpack) (C := Toy.crypto) ciphertext2 Example.recipient1_private = Ok [] /\
    len ciphertext1 + 1 = len ciphertext2.
Proof.
  apply (empty_message_v1_one_byte_shorter ToyMsgpack.msgpack_laws ToyMsgpack.msgpack_format
           ToyFacts.crypto_laws ToyFacts.crypto_sizes
           Example.sender_private Example.recipient1_private
           (Example.public Example.recipient1_private) 1000000 false
           Example.ephemeral_private Example.payload_key
           Example.ephemeral_private Example.payload_key).
  all: vm_compute; try reflexivity.
Defined.

(** C4, as stated, fails.  With sender [priv(0)], recipient [pub(1)], the
    empty message and chunk size 1_000_000, the version 1 ciphertext has 207
    bytes and the version 2 ciphertext 208: the version 1 ciphertext is not
    longer.  [chunks_loop] yields the single triple [(0, empty, true)] for the
    empty message in both versions, so neither ciphertext has a second
    packet. *)
Lemma empty_message_v1_not_longer :
  exists ciphertext1 ciphertext2,
    encrypt (M := Toy.msgpack) (C := Toy.crypto) Example.sender_private
      [Example.public Example.recipient1_private] [] 1000000 false (Some 1)
      Example.ephemeral_private Example.payload_key = Ok ciphertext1 /\
    encrypt (M := Toy.msgpack) (C := Toy.crypto) Example.sender_private
      [Example.public Example.recipient1_private] [] 1000000 false (Some 2)
      Example.ephemeral_private Example.payload_key = Ok ciphertext2 /\
    len ciphertext1 = 207 /\ len ciphertext2 = 208 /\
    ~ len ciphertext2 < len ciphertext1.
Proof.
  eexists. eexists.
  split; [vm_compute; reflexivity|].
  split; [vm_compute; reflexivity|].
  split; [vm_compute; reflexivity|].
  split; [vm_compute; reflexivity|].
  vm_compute. discriminate.
Qed.

(** C6.  Wire format.  [encrypt] returns a byte stream exactly when the steps
    below succeed, and the stream is then the packed bytes object whose
    payload is [header_bytes], followed by the packed packets of the chunks in
    order, and nothing else; [header_bytes] is the packing of the 6-element
    array ["saltpack", [major, minor], 0, ephemeral_public, sender_secretbox,
    recipient_pairs]. *)
Theorem encrypt_wire_format {M : Umsgpack} {C : Crypto}
    (sender_private : bytes) (recipients : list bytes) (message : bytes) (chunk_size : Z)
    (visible_recipients : bool) (major_version : option Z)
    (ephemeral_private payload_key ciphertext : bytes) :
  encrypt sender_private recipients message chunk_size visible_recipients major_version
    ephemeral_private payload_key = Ok ciphertext <->
  exists sender_public ephemeral_public sender_secretbox recipient_pairs minor_version
         header_bytes header_hash double_encoded_header_bytes mac_keys chunks
         packets packet_bytes,
    let major := given_version major_version in
    keypair C sender_private sender_public /\
    keypair C ephemeral_private ephemeral_public /\
    crypto_secretbox sender_public SENDER_KEY_SECRETBOX_NONCE payload_key
      = Ok sender_secretbox /\
    recipient_pairs_loop payload_key ephemeral_private visible_recipients major 0 recipients
      = Ok recipient_pairs /\
    CURRENT_MINOR_VERSIONS major = Ok minor_version /\
    packb (VArray [VStr (str "saltpack"); VArray [VInt major; VInt minor_version]; VInt 0;
                   VBin ephemeral_public; VBin sender_secretbox; VArray recipient_pairs])
      = Ok header_bytes /\
    crypto_hash (VBin header_bytes) = Ok header_hash /\
    packb (VBin header_bytes) = Ok double_encoded_header_bytes /\
    recipient_mac_keys_loop sender_private ephemeral_private header_hash major 0 recipients
      = Ok mac_keys /\
    chunks_loop message chunk_size major = Ok chunks /\
    Forall2 (fun chunk packet =>
               chunk_packet payload_key header_hash mac_keys major chunk = Ok packet)
            chunks packets /\
    Forall2 (fun packet b => packb packet = Ok b) packets packet_bytes /\
    ciphertext = double_encoded_header_bytes ++ List.concat packet_bytes.
Proof. apply encrypt_iff. Qed.
